(** * A memory manager over an index-tracking binary heap

    Shallow embedding of [src/main.cpp]: the generic [Heap<T, Compare>] with
    its index-change observer, [MemorySegment], the [MemoryManager] built on a
    [std::list] of segments and a heap of list iterators, and the driver that
    feeds a query stream to the manager. *)

From stdpp Require Import base list gmap.
From Stdlib Require Import ZArith Lia.
Open Scope Z_scope.

Ltac Zify.zify_post_hook ::= Z.to_euclidean_division_equations.

(** ** Machine integers

    [size_t] is an unsigned 64-bit integer and [int] a signed 32-bit one; both
    are carried as [Z], and every conversion or operation that can leave the
    range is written with its wrap-around. *)

Definition to_size_t (z : Z) : Z := z mod 2 ^ 64.
Definition to_int (z : Z) : Z := (z + 2 ^ 31) mod 2 ^ 32 - 2 ^ 31.

Definition is_size_t (z : Z) : Prop := 0 <= z < 2 ^ 64.
Definition is_int (z : Z) : Prop := - 2 ^ 31 <= z < 2 ^ 31.

Definition INT_MAX : Z := 2 ^ 31 - 1.

(** [Heap::kNullIndex = static_cast<size_t>(-1)]. *)
Definition kNullIndex : Z := to_size_t (-1).

(** ** Outcomes of the operations that can throw or leave defined behaviour *)

Inductive exception := runtime_error | logic_error.

Inductive result (A : Type) : Type :=
| Done (a : A)
| Thrown (e : exception)
| Undefined.
Arguments Done {A} a.
Arguments Thrown {A} e.
Arguments Undefined {A}.

#[export] Instance result_ret : MRet result := fun A a => Done a.
#[export] Instance result_bind : MBind result := fun A B f m =>
  match m with
  | Done a => f a
  | Thrown e => Thrown e
  | Undefined => Undefined
  end.

(** ** Heap<T, Compare>

    [T] is the element type. The comparator and the observer of the source are
    function objects that reach outside the heap: the comparator reads what the
    elements refer to, the observer writes to it. That outside is the world
    [W], threaded through every heap operation next to the heap itself. *)

Section Heap.
Context {T W : Type}.
Variable compare_ : W -> T -> T -> bool.
Variable index_change_observer_ : T -> Z -> W -> W.

(** [elements_] is a [std::vector<T>]: a buffer of which the first [finish_]
    slots are the vector's elements. [pop_back] only moves the end, so the
    slots behind it keep what they held; [operator[]] does not check its
    index, and an index at or past the end reads the buffer all the same.
    [out_of_range_] is a ghost flag, raised by every access at an index that is
    not below [size()]. *)
Record Heap := mkHeap {
  elements_ : list T;
  finish_ : nat;
  out_of_range_ : bool
}.

Definition HeapState : Type := W * Heap.

Definition empty_heap : Heap :=
  {| elements_ := []; finish_ := 0; out_of_range_ := false |}.

Definition size (h : Heap) : Z := Z.of_nat (finish_ h).

Definition empty (h : Heap) : bool := size h =? 0.

(** The live part of the buffer: the vector as the program sees it. *)
Definition live (h : Heap) : list T := take (finish_ h) (elements_ h).

Definition in_range (h : Heap) (index : Z) : bool :=
  (0 <=? index) && (index <? size h).

(** [elements_[index]], as far as the buffer reaches. *)
Definition slot (h : Heap) (index : Z) : option T :=
  if (0 <=? index) && (index <? Z.of_nat (length (elements_ h)))
  then elements_ h !! Z.to_nat index
  else None.

Definition touch (index : Z) (h : Heap) : Heap :=
  {| elements_ := elements_ h;
     finish_ := finish_ h;
     out_of_range_ := out_of_range_ h || negb (in_range h index) |}.

Definition push_back (value : T) (h : Heap) : Heap :=
  {| elements_ := live h ++ [value];
     finish_ := S (finish_ h);
     out_of_range_ := out_of_range_ h |}.

Definition pop_back (h : Heap) : Heap :=
  {| elements_ := elements_ h;
     finish_ := pred (finish_ h);
     out_of_range_ := out_of_range_ h || empty h |}.

Definition Parent (index : Z) : Z :=
  if index =? 0 then index else (index - 1) / 2.

Definition LeftSon (h : Heap) (index : Z) : Z :=
  if index <? size h / 2 then to_size_t (2 * index + 1) else kNullIndex.

Definition RightSon (h : Heap) (index : Z) : Z :=
  if (2 <? size h) && (index <? to_size_t (size h - 1) / 2)
  then to_size_t (2 * index + 2)
  else kNullIndex.

Definition CompareElements (first_index second_index : Z) (s : HeapState)
  : bool * HeapState :=
  let '(w, h) := s in
  let h' := touch second_index (touch first_index h) in
  match slot h first_index, slot h second_index with
  | Some a, Some b => (compare_ w a b, (w, h'))
  | _, _ => (false, (w, h'))
  end.

Definition NotifyIndexChange (element : T) (new_element_index : Z) (w : W) : W :=
  index_change_observer_ element new_element_index w.

Definition SwapElements (first_index second_index : Z) (s : HeapState)
  : HeapState :=
  let '(w, h) := s in
  let h' := touch second_index (touch first_index h) in
  match slot h first_index, slot h second_index with
  | Some a, Some b =>
      let w1 := NotifyIndexChange a second_index w in
      let w2 := NotifyIndexChange b first_index w1 in
      (w2, {| elements_ := <[Z.to_nat first_index := b]>
                             (<[Z.to_nat second_index := a]> (elements_ h));
              finish_ := finish_ h;
              out_of_range_ := out_of_range_ h' |})
  | _, _ => (w, h')
  end.

(** The [while] loop of [SiftUp]; [fuel] bounds the number of iterations. *)
Fixpoint SiftUp_loop (fuel : nat) (index new_index : Z) (s : HeapState)
  : Z * HeapState :=
  match fuel with
  | O => (new_index, s)
  | S fuel' =>
      if index =? 0 then (new_index, s)
      else
        let '(ahead, s1) := CompareElements index (Parent index) s in
        if ahead
        then SiftUp_loop fuel' (Parent index) new_index
               (SwapElements index (Parent index) s1)
        else SiftUp_loop fuel' 0 index s1
  end.

Definition SiftUp (index : Z) (s : HeapState) : Z * HeapState :=
  SiftUp_loop (S (S (length (elements_ (snd s))))) index index s.

(** The [while] loop of [SiftDown]. *)
Fixpoint SiftDown_loop (fuel : nat) (index : Z) (s : HeapState) : HeapState :=
  match fuel with
  | O => s
  | S fuel' =>
      let h := snd s in
      if LeftSon h index =? kNullIndex then s
      else
        let '(right_ahead, s1) :=
          if RightSon h index =? kNullIndex then (false, s)
          else CompareElements (RightSon h index) (LeftSon h index) s in
        let best_son_index :=
          if right_ahead then RightSon h index else LeftSon h index in
        let '(ahead, s2) := CompareElements best_son_index index s1 in
        if ahead
        then SiftDown_loop fuel' best_son_index
               (SwapElements best_son_index index s2)
        else SiftDown_loop fuel' kNullIndex s2
  end.

Definition SiftDown (index : Z) (s : HeapState) : HeapState :=
  SiftDown_loop (S (S (finish_ (snd s)))) index s.

Definition push (value : T) (s : HeapState) : Z * HeapState :=
  let '(w, h) := s in
  let h1 := push_back value h in
  let w1 := NotifyIndexChange value (to_size_t (size h1 - 1)) w in
  SiftUp (to_size_t (size h1 - 1)) (w1, h1).

(** [elements_.back()], the element [erase] and [pop] announce as removed. *)
Definition back (h : Heap) : option T := slot h (to_size_t (size h - 1)).

Definition remove_back (s : HeapState) : HeapState :=
  let '(w, h) := s in
  match back h with
  | Some b => (NotifyIndexChange b kNullIndex w, pop_back h)
  | None => (w, pop_back h)
  end.

Definition erase (index : Z) (s : HeapState) : HeapState :=
  let s1 := SwapElements index (to_size_t (size (snd s) - 1)) s in
  let s2 := remove_back s1 in
  SiftDown index (snd (SiftUp index s2)).

Definition top (h : Heap) : option T :=
  if in_range h 0 then slot h 0 else None.

Definition pop (s : HeapState) : HeapState :=
  let s1 := SwapElements 0 (to_size_t (size (snd s) - 1)) s in
  let s2 := remove_back s1 in
  SiftDown 0 s2.

End Heap.

Arguments Heap : clear implicits.
Arguments HeapState : clear implicits.
Arguments CompareElements : simpl never.
Arguments SwapElements : simpl never.
Arguments Parent : simpl never.
Arguments LeftSon : simpl never.
Arguments RightSon : simpl never.
Arguments slot : simpl never.
Arguments size : simpl never.
Arguments live : simpl never.

(** ** MemorySegment *)

Record MemorySegment := mkSegment {
  left : Z;
  right : Z;
  heap_index : Z
}.

(** [MemorySegment::MemorySegment(int left, int right)]: the arguments are
    converted to [int] at the call. *)
Definition MemorySegment_new (l r : Z) : MemorySegment :=
  {| left := to_int l; right := to_int r; heap_index := kNullIndex |}.

Definition Size (seg : MemorySegment) : Z :=
  if right seg >=? left seg
  then to_size_t (to_int (right seg - left seg))
  else 0.

Definition Unite (seg other : MemorySegment) : result MemorySegment :=
  if left seg =? right other then Done (MemorySegment_new (left other) (right seg))
  else if right seg =? left other then Done (MemorySegment_new (left seg) (right other))
  else Thrown runtime_error.

(** ** The segment list and its iterators

    A [std::list<MemorySegment>] is a set of nodes, each holding a segment,
    and the order that links them. A node is named by a number that stands
    for its address; a [MemorySegmentIterator] is such a name, and stays valid
    while the node lives, whatever happens to the others. [Iterator(nullptr)]
    is [None]. *)

Abbreviation node := nat.
Abbreviation Iterator := (option nat).

Abbreviation nodes := (gmap nat MemorySegment).

#[export] Instance MemorySegment_inhabited : Inhabited MemorySegment :=
  populate (MemorySegment_new 0 0).

(** [MemorySegmentSizeCompare]: dereferences both iterators. *)
Definition MemorySegmentSizeCompare (w : nodes) (first second : node) : bool :=
  let a := w !!! first in
  let b := w !!! second in
  if Size a =? Size b then left a <? left b else Size a >? Size b.

(** [MemorySegmentsHeapObserver]: [segment->heap_index = new_index]. *)
Definition set_heap_index (new_index : Z) (seg : MemorySegment) : MemorySegment :=
  {| left := left seg; right := right seg; heap_index := new_index |}.

Definition MemorySegmentsHeapObserver (segment : node) (new_index : Z) (w : nodes)
  : nodes :=
  alter (set_heap_index new_index) segment w.

Abbreviation MemorySegmentHeap := (Heap node).

Abbreviation heap_push := (push MemorySegmentSizeCompare MemorySegmentsHeapObserver).
Abbreviation heap_erase := (erase MemorySegmentSizeCompare MemorySegmentsHeapObserver).

(** ** MemoryManager *)

Record MemoryManager := mkManager {
  free_memory_segments_ : MemorySegmentHeap;
  (** [memory_segments_]: the nodes in list order, and what each holds. *)
  memory_segments_ : list node;
  segment_of_ : nodes;
  (** the name the next node gets *)
  next_node_ : node
}.

(** [--it] and [++it] on the list; [None] is [end()]. *)
Fixpoint prev_of (position : node) (l : list node) : option node :=
  match l with
  | a :: tl =>
      match tl with
      | b :: _ => if decide (b = position) then Some a else prev_of position tl
      | [] => None
      end
  | [] => None
  end.

Fixpoint next_of (position : node) (l : list node) : option node :=
  match l with
  | a :: tl => if decide (a = position) then head tl else next_of position tl
  | [] => None
  end.

(** [list::insert(position, value)]: the new node goes before [position]. *)
Fixpoint insert_before (position new_node : node) (l : list node) : list node :=
  match l with
  | a :: tl =>
      if decide (a = position) then new_node :: a :: tl
      else a :: insert_before position new_node tl
  | [] => [new_node]
  end.

(** [list::erase(position)]. *)
Fixpoint unlink (position : node) (l : list node) : list node :=
  match l with
  | a :: tl => if decide (a = position) then tl else a :: unlink position tl
  | [] => []
  end.

Definition MemoryManager_new (memory_size : Z) : MemoryManager :=
  let initial_memory := MemorySegment_new 0 memory_size in
  let memory_segment_iterator : node := 0%nat in
  let '(_, (w, h)) :=
    heap_push memory_segment_iterator
      ({[ memory_segment_iterator := initial_memory ]}, empty_heap) in
  {| free_memory_segments_ := h;
     memory_segments_ := [memory_segment_iterator];
     segment_of_ := w;
     next_node_ := 1%nat |}.

Definition Allocate (size_ : Z) (m : MemoryManager)
  : result (Iterator * MemoryManager) :=
  if size (free_memory_segments_ m) =? 0 then Done (None, m)
  else
    match top (free_memory_segments_ m) with
    | None => Undefined
    | Some max_free =>
        match segment_of_ m !! max_free with
        | None => Undefined
        | Some seg =>
            if size_ >? Size seg then Done (None, m)
            else if size_ =? Size seg then
              let '(w, h) :=
                heap_erase (heap_index seg)
                  (segment_of_ m, free_memory_segments_ m) in
              Done (Some max_free,
                    {| free_memory_segments_ := h;
                       memory_segments_ := memory_segments_ m;
                       segment_of_ := w;
                       next_node_ := next_node_ m |})
            else
              let allocated := next_node_ m in
              let allocated_seg :=
                MemorySegment_new (left seg)
                  (to_size_t (to_size_t (left seg) + size_)) in
              let w1 := <[allocated := allocated_seg]> (segment_of_ m) in
              let w2 :=
                <[max_free := {| left := right allocated_seg;
                                 right := right seg;
                                 heap_index := heap_index seg |}]> w1 in
              let s3 :=
                heap_erase (heap_index seg) (w2, free_memory_segments_ m) in
              let '(_, (w4, h4)) := heap_push max_free s3 in
              Done (Some allocated,
                    {| free_memory_segments_ := h4;
                       memory_segments_ :=
                         insert_before max_free allocated (memory_segments_ m);
                       segment_of_ := w4;
                       next_node_ := S (next_node_ m) |})
        end
    end.

Definition AppendIfFree (remaining appending : node) (m : MemoryManager)
  : result MemoryManager :=
  match segment_of_ m !! appending, segment_of_ m !! remaining with
  | Some app_seg, Some rem_seg =>
      if heap_index app_seg =? kNullIndex then Done m
      else
        united ← Unite rem_seg app_seg;
        let w1 := <[remaining := united]> (segment_of_ m) in
        let '(w2, h2) :=
          heap_erase (heap_index (w1 !!! appending))
            (w1, free_memory_segments_ m) in
        Done {| free_memory_segments_ := h2;
                memory_segments_ := unlink appending (memory_segments_ m);
                segment_of_ := delete appending w2;
                next_node_ := next_node_ m |}
  | _, _ => Undefined
  end.

Definition Free (position : node) (m : MemoryManager) : result MemoryManager :=
  match segment_of_ m !! position with
  | None => Undefined
  | Some _ =>
      let left_iterator := prev_of position (memory_segments_ m) in
      let right_iterator := next_of position (memory_segments_ m) in
      m1 ← match left_iterator with
            | Some l => AppendIfFree position l m
            | None => Done m
            end;
      m2 ← match right_iterator with
            | Some r => AppendIfFree position r m1
            | None => Done m1
            end;
      let '(_, (w, h)) :=
        heap_push position (segment_of_ m2, free_memory_segments_ m2) in
      Done {| free_memory_segments_ := h;
              memory_segments_ := memory_segments_ m2;
              segment_of_ := w;
              next_node_ := next_node_ m2 |}
  end.

(** ** The driver *)

Record AllocationQuery := { allocation_size : Z }.
Record FreeQuery := { allocation_query_index : Z }.

(** [MemoryManagerQuery] wraps one of two request shapes. *)
Inductive MemoryManagerQuery :=
| Allocation (q : AllocationQuery)
| Release (q : FreeQuery).

Definition AsAllocationQuery (q : MemoryManagerQuery) : option AllocationQuery :=
  match q with Allocation a => Some a | Release _ => None end.

Definition AsFreeQuery (q : MemoryManagerQuery) : option FreeQuery :=
  match q with Release f => Some f | Allocation _ => None end.

(** [stream >> x] on a stream of integers: the extracted value and the rest.
    The model covers streams that hold a token for every extraction: on an
    exhausted stream it yields 0, where the code leaves the variable as it
    was. *)
Definition extract (stream : list Z) : Z * list Z :=
  match stream with
  | x :: rest => (x, rest)
  | [] => (0, [])
  end.

(** The token is taken to lie within [size_t]; a larger one is reduced
    modulo [2^64] here, where the code stores the largest [size_t] and puts
    the stream in its failed state. *)
Definition ReadMemorySize (stream : list Z) : Z * list Z :=
  let '(memory_size, rest) := extract stream in
  (to_size_t memory_size, rest).

(** The body of the loop of [ReadMemoryManagerQueries] on the value read
    into [query_numeric], taken to lie within [int]; a token outside [int]
    is passed on as it is here, where the code stores the nearest [int] and
    puts the stream in its failed state. *)
Definition read_query (query_numeric : Z) : MemoryManagerQuery :=
  if query_numeric >=? 0
  then Allocation {| allocation_size := to_size_t query_numeric |}
  else Release {| allocation_query_index := to_int (to_int (- query_numeric) - 1) |}.

Fixpoint read_queries (queries_number : nat) (stream : list Z)
  : list MemoryManagerQuery :=
  match queries_number with
  | O => []
  | S n =>
      let '(query_numeric, rest) := extract stream in
      read_query query_numeric :: read_queries n rest
  end.

(** [queries_number] is an [unsigned]. *)
Definition ReadMemoryManagerQueries (stream : list Z) : list MemoryManagerQuery :=
  let '(queries_number, rest) := extract stream in
  read_queries (Z.to_nat (queries_number mod 2 ^ 32)) rest.

Record MemoryManagerAllocationResponse := {
  success : bool;
  position : Z
}.

Definition MakeSuccessfulAllocation (position : Z) : MemoryManagerAllocationResponse :=
  {| success := true; position := to_size_t position |}.

Definition MakeFailedAllocation : MemoryManagerAllocationResponse :=
  {| success := false; position := 0 |}.

(** The state of the loop of [RunMemoryManager]. *)
Record RunState := {
  memory_manager : MemoryManager;
  results : list Iterator;
  responses : list MemoryManagerAllocationResponse
}.

Definition run_query (query_n : nat) (query : MemoryManagerQuery) (r : RunState)
  : result RunState :=
  match AsAllocationQuery query with
  | Some query_pointer =>
      '(res, m) ← Allocate (allocation_size query_pointer) (memory_manager r);
      let results' := <[query_n := res]> (results r) in
      match res with
      | Some it =>
          match segment_of_ m !! it with
          | Some seg =>
              Done {| memory_manager := m;
                      results := results';
                      responses :=
                        responses r ++ [MakeSuccessfulAllocation (left seg)] |}
          | None => Undefined
          end
      | None =>
          Done {| memory_manager := m;
                  results := results';
                  responses := responses r ++ [MakeFailedAllocation] |}
      end
  | None =>
      match AsFreeQuery query with
      | Some query_pointer =>
          let results' := <[query_n := None]> (results r) in
          let index := to_size_t (allocation_query_index query_pointer) in
          if index <? Z.of_nat (length results') then
            match results' !!! Z.to_nat index with
            | Some it =>
                m ← Free it (memory_manager r);
                Done {| memory_manager := m;
                        results := results';
                        responses := responses r |}
            | None =>
                Done {| memory_manager := memory_manager r;
                        results := results';
                        responses := responses r |}
            end
          else Undefined
      | None => Thrown logic_error
      end
  end.

Fixpoint run_queries (query_n : nat) (queries : list MemoryManagerQuery)
  (r : RunState) : result RunState :=
  match queries with
  | [] => Done r
  | query :: rest =>
      r' ← run_query query_n query r;
      run_queries (S query_n) rest r'
  end.

Definition RunMemoryManager (memory_size : Z) (queries : list MemoryManagerQuery)
  : result (list MemoryManagerAllocationResponse) :=
  r ← run_queries 0 queries
        {| memory_manager := MemoryManager_new memory_size;
           results := replicate (length queries) None;
           responses := [] |};
  Done (responses r).

(** The numbers [OutputMemoryManagerResponses] prints, one per line. *)
Definition OutputMemoryManagerResponses
  (responses : list MemoryManagerAllocationResponse) : list Z :=
  (fun response =>
     if success response then to_size_t (position response + 1) else -1)
  <$> responses.

(** The numbers written to the output stream by [main] on a given input
    stream. *)
Definition main (stream : list Z) : result (list Z) :=
  let '(memory_size, rest) := ReadMemorySize stream in
  responses ← RunMemoryManager memory_size (ReadMemoryManagerQueries rest);
  Done (OutputMemoryManagerResponses responses).

(** * Properties of the heap *)

Section HeapTheory.
Context {T W : Type} `{EqDecision T}.
Variable compare_ : W -> T -> T -> bool.
Variable observer_ : T -> Z -> W -> W.

(** What the world records as the heap slot of an element; [None] when the
    element does not refer to anything in the world. *)
Variable index_of : W -> T -> option Z.

(** The observer writes the recorded index of its element and nothing a
    comparison reads. *)
Hypothesis compare_observer : forall x i w a b,
  compare_ (observer_ x i w) a b = compare_ w a b.
Hypothesis index_of_observer : forall x i w y,
  index_of (observer_ x i w) y =
    if decide (y = x) then (fun _ => i) <$> index_of w x else index_of w y.

(** [Compare] is a strict weak ordering. *)
Hypothesis compare_irrefl : forall w a, compare_ w a a = false.
Hypothesis compare_trans : forall w a b c,
  compare_ w a b = true -> compare_ w b c = true -> compare_ w a c = true.
Hypothesis compare_negtrans : forall w a b c,
  compare_ w a b = false -> compare_ w b c = false -> compare_ w a c = false.

Local Abbreviation Heap := (Heap T).
Local Abbreviation HeapState := (HeapState T W).
Local Abbreviation CompareElements := (CompareElements compare_).
Local Abbreviation SwapElements := (SwapElements observer_).
Local Abbreviation SiftUp_loop := (SiftUp_loop compare_ observer_).
Local Abbreviation SiftUp := (SiftUp compare_ observer_).
Local Abbreviation SiftDown_loop := (SiftDown_loop compare_ observer_).
Local Abbreviation SiftDown := (SiftDown compare_ observer_).
Local Abbreviation push := (push compare_ observer_).
Local Abbreviation erase := (erase compare_ observer_).
Local Abbreviation pop := (pop compare_ observer_).
Local Abbreviation remove_back := (remove_back observer_).

(** The vector's end lies inside its buffer. *)
Definition wf_heap (h : Heap) : Prop := (finish_ h <= length (elements_ h))%nat.

Lemma compare_asym w a b : compare_ w a b = true -> compare_ w b a = false.
Proof.
  intros Hab. destruct (compare_ w b a) eqn:Hba; [|done].
  rewrite <- (compare_irrefl w a). symmetry. by eapply compare_trans.
Qed.

Lemma kNullIndex_eq : kNullIndex = 2 ^ 64 - 1.
Proof. reflexivity. Qed.

Lemma in_range_true (h : Heap) k : in_range h k = true <-> 0 <= k < size h.
Proof. unfold in_range. lia. Qed.

Lemma in_range_false (h : Heap) k : in_range h k = false <-> ~ 0 <= k < size h.
Proof. unfold in_range. lia. Qed.

Lemma slot_Some (h : Heap) k x :
  slot h k = Some x <-> 0 <= k /\ elements_ h !! Z.to_nat k = Some x.
Proof.
  unfold slot. split.
  - destruct (_ && _) eqn:E; [|done]. intros. split; [lia|done].
  - intros [Hk Hx]. pose proof (lookup_lt_Some _ _ _ Hx).
    destruct (_ && _) eqn:E; [done|lia].
Qed.

Lemma slot_None_ge (h : Heap) k :
  Z.of_nat (length (elements_ h)) <= k -> slot h k = None.
Proof. unfold slot. intros. destruct (_ && _) eqn:E; [lia|done]. Qed.

Lemma slot_is_Some (h : Heap) k :
  wf_heap h -> 0 <= k < size h -> is_Some (slot h k).
Proof.
  unfold wf_heap, size. intros Hwf Hk.
  destruct (lookup_lt_is_Some_2 (elements_ h) (Z.to_nat k)) as [x Hx]; [lia|].
  exists x. apply slot_Some. split; [lia|done].
Qed.

Lemma slot_live (h : Heap) k x :
  0 <= k < size h -> slot h k = Some x -> x ∈ live h.
Proof.
  unfold size, live. intros Hk [_ Hx]%slot_Some.
  apply list_elem_of_lookup. exists (Z.to_nat k).
  rewrite lookup_take_lt; [done|lia].
Qed.

Lemma live_slot (h : Heap) x :
  x ∈ live h -> exists k, 0 <= k < size h /\ slot h k = Some x.
Proof.
  unfold size, live. intros [i Hi]%list_elem_of_lookup.
  apply lookup_take_Some in Hi as [Hi Hlt].
  exists (Z.of_nat i). split; [lia|].
  apply slot_Some. split; [lia|]. by rewrite Nat2Z.id.
Qed.

Lemma touch_in_range (h : Heap) k : 0 <= k < size h -> touch k h = h.
Proof.
  intros Hk. unfold touch. apply in_range_true in Hk as ->.
  destruct h; simpl. by rewrite orb_false_r.
Qed.

Lemma CompareElements_in_range w (h : Heap) i j a b :
  0 <= i < size h -> 0 <= j < size h ->
  slot h i = Some a -> slot h j = Some b ->
  CompareElements i j (w, h) = (compare_ w a b, (w, h)).
Proof.
  intros Hi Hj Ha Hb. unfold CompareElements.
  rewrite Ha, Hb, (touch_in_range h i), (touch_in_range h j); done.
Qed.

Lemma CompareElements_slots w (h : Heap) i j a b :
  slot h i = Some a -> slot h j = Some b ->
  CompareElements i j (w, h) = (compare_ w a b, (w, touch j (touch i h))).
Proof. intros Ha Hb. unfold CompareElements. by rewrite Ha, Hb. Qed.

(** What an in-range swap leaves behind. *)
Definition swap_heap (h : Heap) (i j : Z) (a b : T) : Heap :=
  {| elements_ := <[Z.to_nat i := b]> (<[Z.to_nat j := a]> (elements_ h));
     finish_ := finish_ h;
     out_of_range_ := out_of_range_ h |}.

Lemma SwapElements_in_range w (h : Heap) i j a b :
  0 <= i < size h -> 0 <= j < size h ->
  slot h i = Some a -> slot h j = Some b ->
  SwapElements i j (w, h) =
    (observer_ b i (observer_ a j w), swap_heap h i j a b).
Proof.
  intros Hi Hj Ha Hb. unfold SwapElements, NotifyIndexChange.
  rewrite Ha, Hb, (touch_in_range h i), (touch_in_range h j); done.
Qed.

Lemma size_swap_heap h i j a b : size (swap_heap h i j a b) = size h.
Proof. done. Qed.

Lemma wf_swap_heap h i j a b : wf_heap h -> wf_heap (swap_heap h i j a b).
Proof. unfold wf_heap. simpl. by rewrite !length_insert. Qed.

Lemma slot_swap_heap h i j a b k :
  slot h i = Some a -> slot h j = Some b ->
  slot (swap_heap h i j a b) k =
    if decide (k = i) then Some b
    else if decide (k = j) then Some a
    else slot h k.
Proof.
  intros [Hi Ha]%slot_Some [Hj Hb]%slot_Some.
  pose proof (lookup_lt_Some _ _ _ Ha). pose proof (lookup_lt_Some _ _ _ Hb).
  destruct (decide (k = i)) as [->|Hki].
  { apply slot_Some. split; [done|]. simpl.
    apply list_lookup_insert_eq. by rewrite length_insert. }
  destruct (decide (k = j)) as [->|Hkj].
  { apply slot_Some. split; [done|]. simpl.
    rewrite list_lookup_insert_ne by lia. by apply list_lookup_insert_eq. }
  unfold slot. simpl. rewrite !length_insert.
  destruct (_ && _) eqn:E; [|done].
  rewrite !list_lookup_insert_ne by lia. done.
Qed.

(** ** Index tracking

    Every live slot holds an element whose recorded index is that slot, and
    every element whose recorded index is not [kNullIndex] sits in the live
    slot it records. *)
Record tracked (w : W) (h : Heap) : Prop := {
  tracked_size : size h <= kNullIndex;
  tracked_wf : wf_heap h;
  tracked_slot : forall k x,
    0 <= k < size h -> slot h k = Some x -> index_of w x = Some k;
  tracked_index : forall y j,
    index_of w y = Some j -> j <> kNullIndex ->
    0 <= j < size h /\ slot h j = Some y
}.

(** ** Heap order

    No element compares ahead of the element in its parent slot. *)
Definition edge_ordered (w : W) (h : Heap) (k : Z) : Prop :=
  forall x p, slot h k = Some x -> slot h (Parent k) = Some p ->
  compare_ w x p = false.

Definition heap_ordered (w : W) (h : Heap) : Prop :=
  forall k, 0 < k < size h -> edge_ordered w h k.

(** Heap order around a slot [i] whose content is not yet placed: the edges
    that do not touch [i] are in order, and no child of [i] compares ahead of
    the parent of [i]. *)
Record hole_ordered (w : W) (h : Heap) (i : Z) : Prop := {
  hole_edges : forall k,
    0 < k < size h -> k <> i -> Parent k <> i -> edge_ordered w h k;
  hole_grand : forall c x g,
    0 < c < size h -> Parent c = i -> i <> 0 ->
    slot h c = Some x -> slot h (Parent i) = Some g -> compare_ w x g = false
}.

(** States reached from a state by swaps of live slots. *)
Inductive swapped : HeapState -> HeapState -> Prop :=
| swapped_refl s : swapped s s
| swapped_step w h i j a b s' :
    0 <= i < size h -> 0 <= j < size h ->
    slot h i = Some a -> slot h j = Some b ->
    swapped (observer_ b i (observer_ a j w), swap_heap h i j a b) s' ->
    swapped (w, h) s'.

Lemma swapped_trans s1 s2 s3 : swapped s1 s2 -> swapped s2 s3 -> swapped s1 s3.
Proof.
  induction 1 as [|w h i j a b s' Hi Hj Ha Hb Hs IH]; [done|].
  intros H3. exact (swapped_step w h i j a b s3 Hi Hj Ha Hb (IH H3)).
Qed.

Lemma swapped_one w h i j a b :
  0 <= i < size h -> 0 <= j < size h ->
  slot h i = Some a -> slot h j = Some b ->
  swapped (w, h) (SwapElements i j (w, h)).
Proof.
  intros. erewrite SwapElements_in_range by done.
  eapply (swapped_step w h i j a b); [done..|apply swapped_refl].
Qed.

Lemma insert_move_perm (l : list T) j a b :
  l !! j = Some b -> b :: <[j := a]> l ≡ₚ a :: l.
Proof.
  revert j. induction l as [|y t IH]; intros [|j] Hj; simplify_eq/=.
  - apply perm_swap.
  - rewrite perm_swap. rewrite (IH _ Hj). apply perm_swap.
Qed.

Lemma insert_swap_perm (l : list T) i j a b :
  l !! i = Some a -> l !! j = Some b -> <[i := b]> (<[j := a]> l) ≡ₚ l.
Proof.
  revert i j. induction l as [|x t IH]; intros [|i] [|j] Hi Hj; simplify_eq/=.
  - done.
  - by apply insert_move_perm.
  - by apply insert_move_perm.
  - f_equiv. by apply IH.
Qed.

Lemma live_swap_heap h i j a b :
  0 <= i < size h -> 0 <= j < size h ->
  slot h i = Some a -> slot h j = Some b ->
  live (swap_heap h i j a b) ≡ₚ live h.
Proof.
  unfold size, live. simpl. intros Hi Hj [_ Ha]%slot_Some [_ Hb]%slot_Some.
  rewrite !take_insert_lt by lia.
  apply insert_swap_perm; rewrite lookup_take_lt by lia; done.
Qed.

Lemma tracked_swap w h i j a b :
  tracked w h ->
  0 <= i < size h -> 0 <= j < size h ->
  slot h i = Some a -> slot h j = Some b ->
  tracked (observer_ b i (observer_ a j w)) (swap_heap h i j a b).
Proof.
  intros [Hsz Hwf Hslot Hidx] Hi Hj Ha Hb.
  pose proof (Hslot _ _ Hi Ha) as Hia. pose proof (Hslot _ _ Hj Hb) as Hib.
  assert (Hw : forall y, index_of (observer_ b i (observer_ a j w)) y =
            if decide (y = b) then Some i
            else if decide (y = a) then Some j else index_of w y).
  { intros y. rewrite !index_of_observer.
    destruct (decide (y = b)) as [->|].
    - destruct (decide (b = a)) as [->|]; [by rewrite Hia|by rewrite Hib].
    - destruct (decide (y = a)) as [->|]; [by rewrite Hia|done]. }
  split; rewrite ?size_swap_heap; [done|by apply wf_swap_heap|..].
  - intros k x Hk. rewrite (slot_swap_heap _ _ _ _ _ _ Ha Hb), Hw.
    destruct (decide (k = i)) as [->|Hki].
    { intros [= <-]. by rewrite decide_True. }
    destruct (decide (k = j)) as [->|Hkj].
    { intros [= <-]. destruct (decide (a = b)) as [->|]; [congruence|].
      by rewrite decide_True. }
    intros Hx. pose proof (Hslot _ _ Hk Hx).
    rewrite !decide_False; [done|congruence..].
  - intros y m. rewrite Hw, (slot_swap_heap _ _ _ _ _ _ Ha Hb).
    destruct (decide (y = b)) as [->|Hyb].
    { intros [= <-] _. by rewrite decide_True. }
    destruct (decide (y = a)) as [->|Hya].
    { intros [= <-] _. split; [done|].
      rewrite decide_False; [by rewrite decide_True|congruence]. }
    intros Hy Hm. destruct (Hidx _ _ Hy Hm) as [Hr Hs]. split; [done|].
    rewrite !decide_False; [done|congruence..].
Qed.

Lemma swapped_tracked s s' :
  swapped s s' -> tracked s.1 s.2 -> tracked s'.1 s'.2.
Proof. induction 1; [done|]. intros. apply IHswapped. by apply tracked_swap. Qed.

Lemma swapped_size s s' : swapped s s' -> size s'.2 = size s.2.
Proof. induction 1; [done|]. by rewrite IHswapped. Qed.

Lemma swapped_wf s s' : swapped s s' -> wf_heap s.2 -> wf_heap s'.2.
Proof. induction 1; [done|]. intros. apply IHswapped. by apply wf_swap_heap. Qed.

Lemma swapped_live s s' : swapped s s' -> live s'.2 ≡ₚ live s.2.
Proof.
  induction 1; [done|]. rewrite IHswapped. by apply live_swap_heap.
Qed.

Lemma swapped_flag s s' : swapped s s' -> out_of_range_ s'.2 = out_of_range_ s.2.
Proof. induction 1; [done|]. by rewrite IHswapped. Qed.

Lemma swapped_compare s s' a b :
  swapped s s' -> compare_ s'.1 a b = compare_ s.1 a b.
Proof.
  induction 1; [done|]. by rewrite IHswapped; simpl; rewrite !compare_observer.
Qed.

(** Whatever the observer preserves, a run of swaps preserves. *)
Lemma swapped_preserves (P : W -> Prop) s s' :
  (forall x i w, P w -> P (observer_ x i w)) ->
  swapped s s' -> P s.1 -> P s'.1.
Proof. intros HP. induction 1; [done|]. intros. apply IHswapped. simpl. auto. Qed.

(** ** Index arithmetic *)

Lemma Parent_range k : 0 < k -> 0 <= Parent k < k.
Proof. unfold Parent. destruct (k =? 0) eqn:E; lia. Qed.

Lemma Parent_0 : Parent 0 = 0.
Proof. done. Qed.

Lemma Parent_children k i : 0 < k -> Parent k = i <-> k = 2 * i + 1 \/ k = 2 * i + 2.
Proof. unfold Parent. destruct (k =? 0) eqn:E; lia. Qed.

Lemma LeftSon_spec (h : Heap) i :
  0 <= i -> size h <= kNullIndex ->
  LeftSon h i = if decide (2 * i + 1 < size h) then 2 * i + 1 else kNullIndex.
Proof.
  rewrite kNullIndex_eq. unfold LeftSon, to_size_t. intros Hi Hsz.
  destruct (i <? size h / 2) eqn:E; case_decide; try lia.
  apply kNullIndex_eq.
Qed.

Lemma RightSon_spec (h : Heap) i :
  0 <= i -> size h <= kNullIndex ->
  RightSon h i = if decide (2 * i + 2 < size h) then 2 * i + 2 else kNullIndex.
Proof.
  rewrite kNullIndex_eq. unfold RightSon, to_size_t. intros Hi Hsz.
  destruct (_ && _) eqn:E; case_decide; try lia.
  all: apply kNullIndex_eq.
Qed.

(** ** The sifts only swap live slots *)

Lemma SiftUp_loop_swapped fuel i ni s :
  wf_heap s.2 -> 0 <= i < size s.2 -> swapped s (SiftUp_loop fuel i ni s).2.
Proof.
  revert i ni s. induction fuel as [|fuel IH]; intros i ni [w h] Hwf Hi; simpl in *.
  { apply swapped_refl. }
  destruct (i =? 0) eqn:E0; [apply swapped_refl|].
  pose proof (Parent_range i ltac:(lia)) as HP.
  destruct (slot_is_Some h i) as [a Ha]; [done..|].
  destruct (slot_is_Some h (Parent i)) as [p Hp]; [done|lia|].
  rewrite (CompareElements_in_range w h i (Parent i) a p) by (done || lia).
  destruct (compare_ w a p).
  - eapply swapped_trans; [apply (swapped_one w h i (Parent i) a p); done || lia|].
    rewrite (SwapElements_in_range w h i (Parent i) a p) by (done || lia).
    apply IH; simpl; [by apply wf_swap_heap|rewrite size_swap_heap; lia].
  - apply IH; simpl; [done|lia].
Qed.

Lemma SiftDown_loop_swapped fuel i s :
  wf_heap s.2 -> size s.2 <= kNullIndex -> 0 <= i ->
  swapped s (SiftDown_loop fuel i s).
Proof.
  revert i s. induction fuel as [|fuel IH]; intros i [w h] Hwf Hsz Hi; simpl in *.
  { apply swapped_refl. }
  rewrite LeftSon_spec, RightSon_spec by done.
  destruct (decide (2 * i + 1 < size h)) as [HL|HL];
    [|rewrite Z.eqb_refl; apply swapped_refl].
  assert (EL : (2 * i + 1 =? kNullIndex) = false)
    by (rewrite kNullIndex_eq in *; lia).
  rewrite EL.
  destruct (slot_is_Some h i) as [x Hx]; [done|lia|].
  destruct (slot_is_Some h (2 * i + 1)) as [l Hl]; [done|lia|].
  assert (Hfin : forall b,
    0 <= b < size h ->
    swapped (w, h)
      (let '(ahead, s2) := CompareElements b i (w, h) in
       if ahead then SiftDown_loop fuel b (SwapElements b i s2)
       else SiftDown_loop fuel kNullIndex s2)).
  { intros b Hb. destruct (slot_is_Some h b) as [y Hy]; [done..|].
    rewrite (CompareElements_in_range w h b i y x) by (done || lia).
    destruct (compare_ w y x).
    - eapply swapped_trans; [apply (swapped_one w h b i y x); done || lia|].
      rewrite (SwapElements_in_range w h b i y x) by (done || lia).
      apply IH; simpl; [by apply wf_swap_heap|by rewrite size_swap_heap|lia].
    - apply IH; simpl; [done..|rewrite kNullIndex_eq; lia]. }
  destruct (decide (2 * i + 2 < size h)) as [HR|HR].
  - assert (ER : (2 * i + 2 =? kNullIndex) = false)
      by (rewrite kNullIndex_eq in *; lia).
    rewrite ER.
    destruct (slot_is_Some h (2 * i + 2)) as [r Hr]; [done|lia|].
    rewrite (CompareElements_in_range w h (2 * i + 2) (2 * i + 1) r l)
      by (done || lia).
    destruct (compare_ w r l); apply Hfin; lia.
  - rewrite Z.eqb_refl. apply Hfin; lia.
Qed.

(** ** The sifts restore heap order *)

(** The state of a sift-up at [i]: only the edge from [i] to its parent may be
    out of order. *)
Definition up_ordered (w : W) (h : Heap) (i : Z) : Prop :=
  hole_ordered w h i /\
  forall c, 0 < c < size h -> Parent c = i -> edge_ordered w h c.

(** The state of a sift-down at [i]: only the edges from the children of [i]
    to [i] may be out of order. *)
Definition down_ordered (w : W) (h : Heap) (i : Z) : Prop :=
  hole_ordered w h i /\ (0 < i < size h -> edge_ordered w h i).

Lemma heap_ordered_hole w h i : heap_ordered w h -> hole_ordered w h i.
Proof.
  intros Ho. split; [auto|].
  intros c x g Hc HP Hi Hx Hg.
  destruct (slot_Some h c x) as [[Hc0 _] _]; [done|].
  pose proof (Parent_range c ltac:(lia)) as HPc.
  destruct (slot h i) as [y|] eqn:Hy.
  - eapply compare_negtrans.
    + apply (Ho c Hc x y Hx). by rewrite HP.
    + apply (Ho i ltac:(lia) y g Hy Hg).
  - apply slot_Some in Hx as [_ Hx]. apply lookup_lt_Some in Hx.
    unfold slot in Hy. destruct (_ && _) eqn:E in Hy.
    + apply lookup_ge_None in Hy. lia.
    + lia.
Qed.

Lemma up_ordered_done w h i :
  up_ordered w h i -> (0 < i < size h -> edge_ordered w h i) -> heap_ordered w h.
Proof.
  intros [[He _] Hc] Hi k Hk.
  destruct (decide (k = i)) as [->|]; [auto|].
  destruct (decide (Parent k = i)); [auto|]. by apply He.
Qed.

Lemma down_ordered_done w h i :
  down_ordered w h i ->
  (forall c, 0 < c < size h -> Parent c = i -> edge_ordered w h c) ->
  heap_ordered w h.
Proof.
  intros [[He _] Hi] Hc k Hk.
  destruct (decide (k = i)) as [->|]; [auto|].
  destruct (decide (Parent k = i)); [auto|]. by apply He.
Qed.

Lemma swap_up_ordered w w' h i a p :
  (forall x y, compare_ w' x y = compare_ w x y) ->
  0 < i < size h ->
  slot h i = Some a -> slot h (Parent i) = Some p ->
  compare_ w a p = true ->
  hole_ordered w h i ->
  up_ordered w' (swap_heap h i (Parent i) a p) (Parent i).
Proof.
  intros Hw Hi Ha Hp Hap [He Hg].
  pose proof (Parent_range i ltac:(lia)) as HPi.
  assert (Hsib : forall c x, 0 < c < size h -> Parent c = Parent i -> c <> i ->
            slot h c = Some x -> compare_ w x p = false /\ compare_ w x a = false).
  { intros c x Hc HPc Hci Hx.
    assert (compare_ w x p = false) as Hxp.
    { apply (He c Hc Hci ltac:(lia) x p Hx). by rewrite HPc. }
    split; [done|]. destruct (compare_ w x a) eqn:Hxa; [|done].
    by rewrite (compare_trans _ _ _ _ Hxa Hap) in Hxp. }
  split; [split|]; rewrite ?size_swap_heap.
  - intros k Hk HkP HPk x q.
    rewrite !(slot_swap_heap _ _ _ _ _ _ Ha Hp), !Hw.
    destruct (decide (k = i)) as [->|]; [done|].
    rewrite (decide_False (P := k = Parent i)) by done.
    rewrite (decide_False (P := Parent k = Parent i)) by done.
    destruct (decide (Parent k = i)) as [HPk'|].
    + intros Hx [= <-]. eapply Hg; eauto; lia.
    + by apply He.
  - intros c x g Hc HPc HP0.
    pose proof (Parent_range (Parent i) ltac:(lia)).
    rewrite !(slot_swap_heap _ _ _ _ _ _ Ha Hp), !Hw.
    rewrite (decide_False (P := Parent (Parent i) = i)) by lia.
    rewrite (decide_False (P := Parent (Parent i) = Parent i)) by lia.
    pose proof (Parent_range c ltac:(lia)).
    intros Hx Hgs.
    assert (Hpg : compare_ w p g = false).
    { apply (He (Parent i) ltac:(lia) ltac:(lia) ltac:(lia) p g Hp Hgs). }
    destruct (decide (c = i)) as [->|Hci]; [by simplify_eq|].
    rewrite decide_False in Hx by lia.
    destruct (Hsib c x Hc HPc Hci Hx) as [Hxp _].
    by eapply compare_negtrans.
  - intros c Hc HPc x q.
    pose proof (Parent_range c ltac:(lia)).
    rewrite !(slot_swap_heap _ _ _ _ _ _ Ha Hp), !Hw.
    rewrite (decide_False (P := Parent c = i)) by lia.
    rewrite (decide_True (P := Parent c = Parent i)) by done.
    destruct (decide (c = i)) as [->|Hci].
    + intros [= <-] [= <-]. by apply compare_asym.
    + rewrite decide_False by lia. intros Hx [= <-].
      by destruct (Hsib c x Hc HPc Hci Hx).
Qed.

Lemma SiftUp_loop_0 fuel ni (s : HeapState) : SiftUp_loop fuel 0 ni s = (ni, s).
Proof. by destruct fuel. Qed.

Lemma SiftUp_loop_ordered fuel i ni s :
  wf_heap s.2 -> 0 <= i < size s.2 -> (Z.to_nat i < fuel)%nat ->
  up_ordered s.1 s.2 i ->
  let s' := (SiftUp_loop fuel i ni s).2 in heap_ordered s'.1 s'.2.
Proof.
  revert i ni s. induction fuel as [|fuel IH]; intros i ni [w h] Hwf Hi Hf Hup;
    simpl in *; [lia|].
  destruct (i =? 0) eqn:E0.
  { simpl. apply (up_ordered_done w h i Hup). lia. }
  pose proof (Parent_range i ltac:(lia)) as HP.
  destruct (slot_is_Some h i) as [a Ha]; [done..|].
  destruct (slot_is_Some h (Parent i)) as [p Hp]; [done|lia|].
  rewrite (CompareElements_in_range w h i (Parent i) a p) by (done || lia).
  destruct (compare_ w a p) eqn:Hap.
  - rewrite (SwapElements_in_range w h i (Parent i) a p) by (done || lia).
    apply IH; simpl; [by apply wf_swap_heap|rewrite size_swap_heap; lia|lia|].
    apply (swap_up_ordered w); [|lia|done..|apply Hup].
    intros. by rewrite !compare_observer.
  - rewrite SiftUp_loop_0. simpl. apply (up_ordered_done w h i Hup).
    intros _ x q Hx Hq. by simplify_eq.
Qed.

Lemma swap_down_ordered w w' h i b y x :
  (forall u v, compare_ w' u v = compare_ w u v) ->
  0 <= i -> 0 < b < size h -> Parent b = i ->
  slot h b = Some y -> slot h i = Some x ->
  compare_ w y x = true ->
  (forall o z, 0 < o < size h -> Parent o = i -> o <> b ->
     slot h o = Some z -> compare_ w z y = false) ->
  down_ordered w h i ->
  down_ordered w' (swap_heap h b i y x) b.
Proof.
  intros Hw Hi Hb HPb Hy Hx Hyx Hbest [[He Hg] Hd].
  pose proof (Parent_range b ltac:(lia)) as HPr.
  split; [split|]; rewrite ?size_swap_heap.
  - intros k Hk Hkb HPk u v.
    pose proof (Parent_range k ltac:(lia)).
    rewrite !(slot_swap_heap _ _ _ _ _ _ Hy Hx), !Hw.
    rewrite (decide_False (P := k = b)) by done.
    rewrite (decide_False (P := Parent k = b)) by done.
    destruct (decide (k = i)) as [->|Hki].
    + rewrite (decide_False (P := Parent i = i)) by lia.
      intros [= <-] Hv. eapply (Hg b); eauto; lia.
    + destruct (decide (Parent k = i)) as [HPki|].
      * intros Hu [= <-]. by eapply Hbest.
      * by apply He.
  - intros c u g Hc HPc Hb0.
    pose proof (Parent_range c ltac:(lia)).
    rewrite !(slot_swap_heap _ _ _ _ _ _ Hy Hx), !Hw.
    rewrite (decide_False (P := c = b)) by lia.
    rewrite (decide_False (P := c = i)) by lia.
    rewrite (decide_False (P := Parent b = b)) by lia.
    rewrite (decide_True (P := Parent b = i)) by done.
    intros Hu [= <-]. apply (He c Hc ltac:(lia) ltac:(lia) u y Hu).
    by rewrite HPc.
  - intros _ u v.
    rewrite !(slot_swap_heap _ _ _ _ _ _ Hy Hx), !Hw.
    rewrite (decide_True (P := b = b)) by done.
    rewrite (decide_False (P := Parent b = b)) by lia.
    rewrite (decide_True (P := Parent b = i)) by done.
    intros [= <-] [= <-]. by apply compare_asym.
Qed.

Lemma SiftDown_loop_null fuel (s : HeapState) :
  size s.2 <= kNullIndex -> SiftDown_loop fuel kNullIndex s = s.
Proof.
  intros Hsz. destruct fuel; [done|]. simpl.
  rewrite LeftSon_spec by (done || rewrite kNullIndex_eq; lia).
  rewrite decide_False by (rewrite kNullIndex_eq in *; lia).
  by rewrite Z.eqb_refl.
Qed.

Lemma SiftDown_loop_ordered fuel i s :
  wf_heap s.2 -> size s.2 <= kNullIndex -> 0 <= i ->
  (Z.to_nat (size s.2 - i) < fuel)%nat ->
  down_ordered s.1 s.2 i ->
  let s' := SiftDown_loop fuel i s in heap_ordered s'.1 s'.2.
Proof.
  revert i s. induction fuel as [|fuel IH];
    intros i [w h] Hwf Hsz Hi Hf Hdown; simpl in *; [lia|].
  rewrite LeftSon_spec, RightSon_spec by done.
  destruct (decide (2 * i + 1 < size h)) as [HL|HL].
  2:{ rewrite Z.eqb_refl. simpl. apply (down_ordered_done w h i Hdown).
      intros c Hc HPc. apply Parent_children in HPc; lia. }
  assert (EL : (2 * i + 1 =? kNullIndex) = false)
    by (rewrite kNullIndex_eq in *; lia).
  rewrite EL.
  destruct (slot_is_Some h i) as [x Hx]; [done|lia|].
  destruct (slot_is_Some h (2 * i + 1)) as [l Hl]; [done|lia|].
  assert (Hfin : forall b y,
    0 < b < size h -> Parent b = i -> slot h b = Some y ->
    (forall o z, 0 < o < size h -> Parent o = i -> o <> b ->
       slot h o = Some z -> compare_ w z y = false) ->
    let s' :=
      (let '(ahead, s2) := CompareElements b i (w, h) in
       if ahead then SiftDown_loop fuel b (SwapElements b i s2)
       else SiftDown_loop fuel kNullIndex s2) in
    heap_ordered s'.1 s'.2).
  { intros b y Hb HPb Hy Hbest.
    pose proof (Parent_range b ltac:(lia)).
    rewrite (CompareElements_in_range w h b i y x) by (done || lia).
    destruct (compare_ w y x) eqn:Hyx.
    - rewrite (SwapElements_in_range w h b i y x) by (done || lia).
      apply IH; simpl;
        [by apply wf_swap_heap|by rewrite size_swap_heap|lia
        |rewrite size_swap_heap; lia|].
      apply (swap_down_ordered w); try done.
      intros. by rewrite !compare_observer.
    - rewrite SiftDown_loop_null by done. simpl.
      apply (down_ordered_done w h i Hdown).
      intros c Hc HPc u v Hu. rewrite HPc, Hx. intros [= <-].
      destruct (decide (c = b)) as [->|Hcb]; [by simplify_eq|].
      eapply compare_negtrans; [|exact Hyx]. by eapply Hbest. }
  destruct (decide (2 * i + 2 < size h)) as [HR|HR].
  - assert (ER : (2 * i + 2 =? kNullIndex) = false)
      by (rewrite kNullIndex_eq in *; lia).
    rewrite ER.
    destruct (slot_is_Some h (2 * i + 2)) as [r Hr]; [done|lia|].
    rewrite (CompareElements_in_range w h (2 * i + 2) (2 * i + 1) r l)
      by (done || lia).
    destruct (compare_ w r l) eqn:Hrl.
    + apply (Hfin _ r); [lia|apply Parent_children; lia|done|].
      intros o z Ho HPo Hob Hz. apply Parent_children in HPo; [|lia].
      assert (o = 2 * i + 1) as -> by lia. simplify_eq. by apply compare_asym.
    + apply (Hfin _ l); [lia|apply Parent_children; lia|done|].
      intros o z Ho HPo Hob Hz. apply Parent_children in HPo; [|lia].
      assert (o = 2 * i + 2) as -> by lia. by simplify_eq.
  - rewrite Z.eqb_refl. apply (Hfin _ l); [lia|apply Parent_children; lia|done|].
    intros o z Ho HPo Hob Hz. apply Parent_children in HPo; lia.
Qed.

(** ** Elements in and out of the heap *)

Lemma tracked_live_index w h x :
  tracked w h -> x ∈ live h ->
  exists k, 0 <= k < size h /\ slot h k = Some x /\ index_of w x = Some k.
Proof.
  intros Ht [k [Hk Hx]]%live_slot. exists k.
  split; [lia|]. split; [done|]. by eapply tracked_slot.
Qed.

Lemma tracked_null_iff w h y :
  tracked w h -> is_Some (index_of w y) ->
  index_of w y = Some kNullIndex <-> y ∉ live h.
Proof.
  intros Ht [j Hj]. split.
  - intros Hnull [k (Hk & _ & Hi)]%(tracked_live_index w); [|done].
    pose proof (tracked_size _ _ Ht). simplify_eq. lia.
  - intros Hy. destruct (decide (j = kNullIndex)) as [->|Hne]; [done|].
    exfalso. apply Hy. destruct (tracked_index _ _ Ht y j Hj Hne).
    by eapply slot_live.
Qed.

Lemma tracked_NoDup w h : tracked w h -> NoDup (live h).
Proof.
  intros Ht. apply NoDup_alt. intros i j x Hi Hj.
  unfold live in *. apply lookup_take_Some in Hi as [Hi Hil].
  apply lookup_take_Some in Hj as [Hj Hjl].
  assert (index_of w x = Some (Z.of_nat i)) as Hxi.
  { apply (tracked_slot _ _ Ht); [unfold size; lia|].
    apply slot_Some. rewrite Nat2Z.id. split; [lia|done]. }
  assert (index_of w x = Some (Z.of_nat j)) as Hxj.
  { apply (tracked_slot _ _ Ht); [unfold size; lia|].
    apply slot_Some. rewrite Nat2Z.id. split; [lia|done]. }
  simplify_eq. lia.
Qed.

Lemma tracked_touch w h k : tracked w (touch k h) <-> tracked w h.
Proof. split; intros [? ? ? ?]; split; done. Qed.

Lemma hole_ordered_touch w h k i :
  hole_ordered w (touch k h) i <-> hole_ordered w h i.
Proof. split; intros [? ?]; split; done. Qed.

Lemma heap_ordered_touch w h k : heap_ordered w (touch k h) <-> heap_ordered w h.
Proof. done. Qed.

(** ** push *)

Lemma size_push_back v (h : Heap) : size (push_back v h) = size h + 1.
Proof. unfold size. simpl. lia. Qed.

Lemma length_live (h : Heap) : wf_heap h -> length (live h) = finish_ h.
Proof. unfold wf_heap, live. rewrite length_take. lia. Qed.

Lemma wf_push_back v (h : Heap) : wf_heap h -> wf_heap (push_back v h).
Proof.
  intros Hwf. unfold wf_heap. simpl.
  rewrite length_app, length_live by done. simpl. lia.
Qed.

Lemma live_push_back v (h : Heap) :
  wf_heap h -> live (push_back v h) = live h ++ [v].
Proof.
  intros Hwf. unfold live at 1. simpl. apply take_ge.
  rewrite length_app, length_live by done. simpl. lia.
Qed.

Lemma slot_push_back v (h : Heap) k :
  wf_heap h ->
  slot (push_back v h) k =
    if decide (k = size h) then Some v
    else if decide (0 <= k < size h) then slot h k else None.
Proof.
  intros Hwf. unfold size.
  destruct (decide (k = Z.of_nat (finish_ h))) as [->|Hne].
  { apply slot_Some. split; [lia|]. simpl. rewrite Nat2Z.id.
    rewrite lookup_app_r; rewrite length_live by done; [|done].
    by rewrite Nat.sub_diag. }
  case_decide as Hk.
  - destruct (slot_is_Some h k Hwf Hk) as [x Hx]. rewrite Hx.
    apply slot_Some in Hx as [_ Hx]. apply slot_Some. split; [lia|]. simpl.
    rewrite lookup_app_l by (rewrite length_live by done; lia).
    unfold live. rewrite lookup_take_lt by lia. done.
  - destruct (decide (0 <= k)).
    + apply slot_None_ge. simpl. rewrite length_app, length_live by done.
      simpl. lia.
    + unfold slot. destruct (_ && _) eqn:E; [lia|done].
Qed.

Lemma tracked_push_back w h v :
  tracked w h -> index_of w v = Some kNullIndex -> size h < kNullIndex ->
  tracked (observer_ v (size h) w) (push_back v h).
Proof.
  intros [Hsz Hwf Hslot Hidx] Hv Hlt.
  split; rewrite ?size_push_back; [lia|by apply wf_push_back|..].
  - intros k x Hk. rewrite slot_push_back, index_of_observer by done.
    destruct (decide (k = size h)) as [->|].
    { intros [= <-]. by rewrite decide_True, Hv. }
    rewrite decide_True by lia. intros Hx.
    pose proof (Hslot k x ltac:(lia) Hx).
    rewrite decide_False; [done|]. intros ->. simplify_eq. lia.
  - intros y j. rewrite slot_push_back, index_of_observer by done.
    destruct (decide (y = v)) as [->|].
    { rewrite Hv. simpl. intros [= <-] _.
      split; [unfold size; lia|]. by rewrite decide_True. }
    intros Hy Hj. destruct (Hidx y j Hy Hj) as [Hr Hs]. split; [lia|].
    rewrite decide_False by lia. by rewrite decide_True.
Qed.

Lemma up_ordered_push_back w w' h v :
  (forall x y, compare_ w' x y = compare_ w x y) ->
  wf_heap h -> heap_ordered w h ->
  up_ordered w' (push_back v h) (size h).
Proof.
  intros Hw Hwf Ho.
  assert (Hedge : forall k, 0 < k < size h -> edge_ordered w' (push_back v h) k).
  { intros k Hk x p. pose proof (Parent_range k ltac:(lia)).
    rewrite !slot_push_back, !Hw by done.
    rewrite (decide_False (P := k = size h)) by lia.
    rewrite (decide_False (P := Parent k = size h)) by lia.
    rewrite !decide_True by lia. by apply Ho. }
  split; [split|]; rewrite ?size_push_back.
  - intros k Hk Hne _. apply Hedge. lia.
  - intros c x g Hc HPc. apply Parent_children in HPc; lia.
  - intros c Hc HPc. apply Parent_children in HPc; lia.
Qed.

(** What [push] establishes. *)
Record pushed (v : T) (w : W) (h : Heap) (w' : W) (h' : Heap) : Prop := {
  pushed_tracked : tracked w' h';
  pushed_live : live h' ≡ₚ v :: live h;
  pushed_size : size h' = size h + 1;
  pushed_flag : out_of_range_ h' = out_of_range_ h;
  pushed_compare : forall a b, compare_ w' a b = compare_ w a b;
  pushed_ordered : heap_ordered w h -> heap_ordered w' h';
  pushed_preserves : forall P : W -> Prop,
    (forall x i w0, P w0 -> P (observer_ x i w0)) -> P w -> P w'
}.

Lemma push_spec v w h :
  tracked w h -> index_of w v = Some kNullIndex -> size h < kNullIndex ->
  pushed v w h (push v (w, h)).2.1 (push v (w, h)).2.2.
Proof.
  intros Ht Hv Hlt. pose proof (tracked_wf _ _ Ht) as Hwf.
  pose proof (tracked_size _ _ Ht) as Hsz.
  unfold push, SiftUp, NotifyIndexChange. rewrite size_push_back.
  replace (to_size_t (size h + 1 - 1)) with (size h)
    by (unfold to_size_t, size in *; rewrite kNullIndex_eq in *; lia).
  set (w1 := observer_ v (size h) w). set (h1 := push_back v h).
  set (fuel := S (S (length (elements_ (w1, h1).2)))).
  assert (Hwf1 : wf_heap h1) by by apply wf_push_back.
  assert (Hr1 : 0 <= size h < size h1)
    by (unfold h1; rewrite size_push_back; unfold size; lia).
  pose proof (SiftUp_loop_swapped fuel (size h) (size h) (w1, h1) Hwf1 Hr1) as Hsw.
  split.
  - apply (swapped_tracked _ _ Hsw). by apply tracked_push_back.
  - rewrite (swapped_live _ _ Hsw). simpl. unfold h1.
    rewrite live_push_back by done. by rewrite Permutation_app_comm.
  - rewrite (swapped_size _ _ Hsw). apply size_push_back.
  - by rewrite (swapped_flag _ _ Hsw).
  - intros a b. rewrite (swapped_compare _ _ _ _ Hsw). apply compare_observer.
  - intros Ho. apply SiftUp_loop_ordered; [done..| |].
    + unfold fuel, wf_heap, size in *. simpl in *. lia.
    + apply (up_ordered_push_back w); [|done..]. intros. apply compare_observer.
  - intros P HP HPw. apply (swapped_preserves P _ _ HP Hsw). by apply HP.
Qed.

(** ** erase *)

(** The state of [erase] after the swap to the end and [pop_back]. *)
Record removed (i : Z) (a : T) (w : W) (h : Heap) (w2 : W) (h2 : Heap)
  : Prop := {
  removed_size : size h2 = size h - 1;
  removed_tracked : tracked w2 h2;
  removed_index : index_of w2 a = Some kNullIndex;
  removed_live : live h ≡ₚ a :: live h2;
  removed_flag : out_of_range_ h2 = out_of_range_ h;
  removed_compare : forall x y, compare_ w2 x y = compare_ w x y;
  removed_slot : forall k, 0 <= k < size h2 ->
    slot h2 k = if decide (k = i) then slot h (size h - 1) else slot h k;
  removed_stale : slot h2 (size h - 1) = Some a;
  removed_preserves : forall P : W -> Prop,
    (forall x j w0, P w0 -> P (observer_ x j w0)) -> P w -> P w2
}.

Lemma live_pop_back (h : Heap) x :
  wf_heap h -> 0 < size h -> slot h (size h - 1) = Some x ->
  live h = live (pop_back h) ++ [x].
Proof.
  unfold wf_heap, size, live. intros Hwf Hsz [_ Hx]%slot_Some. simpl.
  replace (Z.to_nat (Z.of_nat (finish_ h) - 1)) with (pred (finish_ h)) in Hx
    by lia.
  rewrite <- (take_S_r _ _ _ Hx). f_equal. lia.
Qed.

Lemma remove_spec i a w h :
  tracked w h -> 0 <= i < size h -> slot h i = Some a ->
  let s2 := remove_back (SwapElements i (to_size_t (size h - 1)) (w, h)) in
  removed i a w h s2.1 s2.2.
Proof.
  intros Ht Hi Ha. pose proof (tracked_wf _ _ Ht) as Hwf.
  pose proof (tracked_size _ _ Ht) as Hsz.
  replace (to_size_t (size h - 1)) with (size h - 1)
    by (unfold to_size_t, size in *; rewrite kNullIndex_eq in *; lia).
  destruct (slot_is_Some h (size h - 1)) as [b Hb]; [done|lia|].
  rewrite (SwapElements_in_range w h i (size h - 1) a b) by (done || lia).
  set (w1 := observer_ b i (observer_ a (size h - 1) w)).
  set (h1 := swap_heap h i (size h - 1) a b).
  assert (Ht1 : tracked w1 h1) by (apply tracked_swap; done || lia).
  assert (Hs1 : slot h1 (size h - 1) = Some a).
  { unfold h1. rewrite (slot_swap_heap _ _ _ _ _ _ Ha Hb).
    case_decide; [by simplify_eq|]. by rewrite decide_True. }
  unfold remove_back, back.
  replace (to_size_t (size h1 - 1)) with (size h - 1)
    by (unfold h1, to_size_t, size in *; simpl; rewrite kNullIndex_eq in *; lia).
  rewrite Hs1. unfold NotifyIndexChange. simpl.
  assert (Hsz2 : size (pop_back h1) = size h - 1) by (unfold size in *; simpl; lia).
  assert (Hslot2 : forall k, slot (pop_back h1) k = slot h1 k) by done.
  assert (Hia : index_of w1 a = Some (size h - 1)).
  { apply (tracked_slot _ _ Ht1); [unfold h1; rewrite size_swap_heap; lia|done]. }
  split.
  - done.
  - destruct Ht1 as [Hsz1 Hwf1 Hslot1 Hidx1].
    unfold h1 in Hsz1, Hslot1, Hidx1. rewrite size_swap_heap in *.
    split; rewrite ?Hsz2.
    + lia.
    + unfold wf_heap in *. simpl in *. lia.
    + intros k x Hk. rewrite Hslot2, index_of_observer. intros Hx.
      pose proof (Hslot1 k x ltac:(lia) Hx).
      rewrite decide_False; [done|]. intros ->. simplify_eq. lia.
    + intros y j. rewrite Hslot2, index_of_observer.
      destruct (decide (y = a)) as [->|].
      { rewrite Hia. simpl. by intros [= <-]. }
      intros Hy Hj. destruct (Hidx1 y j Hy Hj) as [Hr Hs]. split; [|done].
      destruct (decide (j = size h - 1)) as [->|]; [|lia].
      fold h1 in Hs. congruence.
  - rewrite index_of_observer, decide_True, Hia by done. done.
  - rewrite <- (live_swap_heap h i (size h - 1) a b) by (done || lia).
    fold h1. rewrite (live_pop_back h1 a); [|by apply wf_swap_heap|..].
    + by rewrite Permutation_app_comm.
    + change (size h1) with (size h). lia.
    + by change (size h1) with (size h).
  - simpl. unfold empty. change (size h1) with (size h).
    replace (size h =? 0) with false by lia. by rewrite orb_false_r.
  - intros x y. unfold w1. by rewrite !compare_observer.
  - intros k. rewrite Hsz2, Hslot2. intros Hk. unfold h1.
    rewrite (slot_swap_heap _ _ _ _ _ _ Ha Hb).
    case_decide; [by rewrite Hb|]. rewrite decide_False by lia. done.
  - by rewrite Hslot2.
  - intros P HP HPw. unfold w1. auto.
Qed.

Lemma removed_hole i a w h w2 h2 :
  0 <= i < size h -> removed i a w h w2 h2 ->
  hole_ordered w h i -> hole_ordered w2 h2 i.
Proof.
  intros Hi [Hsz _ _ _ _ Hcmp Hslot _ _] [He Hg].
  split; rewrite ?Hsz.
  - intros k Hk Hki HPk x p. pose proof (Parent_range k ltac:(lia)).
    rewrite !Hslot, !Hcmp by lia. rewrite !decide_False by done.
    apply He; [lia|done..].
  - intros c x g Hc HPc Hi0. pose proof (Parent_range c ltac:(lia)).
    pose proof (Parent_range i ltac:(lia)).
    rewrite !Hslot, !Hcmp by lia. rewrite !decide_False by lia.
    apply Hg; [lia|done..].
Qed.

(** What the sifts keep of the state they start from. *)
Record settled (w : W) (h : Heap) (w' : W) (h' : Heap) : Prop := {
  settled_tracked : tracked w' h';
  settled_live : live h' ≡ₚ live h;
  settled_size : size h' = size h;
  settled_compare : forall x y, compare_ w' x y = compare_ w x y;
  settled_preserves : forall P : W -> Prop,
    (forall x j w0, P w0 -> P (observer_ x j w0)) -> P w -> P w'
}.

Lemma swapped_settled s s' :
  tracked s.1 s.2 -> swapped s s' -> settled s.1 s.2 s'.1 s'.2.
Proof.
  intros Ht Hsw. split.
  - by apply (swapped_tracked _ _ Hsw).
  - by apply swapped_live.
  - by apply swapped_size.
  - intros. by apply swapped_compare.
  - intros P HP. by apply swapped_preserves.
Qed.

Lemma settled_trans w1 h1 w2 h2 w3 h3 :
  settled w1 h1 w2 h2 -> settled w2 h2 w3 h3 -> settled w1 h1 w3 h3.
Proof.
  intros [? Hl1 Hs1 Hc1 Hp1] [? Hl2 Hs2 Hc2 Hp2]. split.
  - done.
  - by rewrite Hl2.
  - by rewrite Hs2.
  - intros. by rewrite Hc2.
  - intros P HP HPw. by apply Hp2, Hp1.
Qed.

Lemma is_Some_index_of_observer x j w y :
  is_Some (index_of w y) -> is_Some (index_of (observer_ x j w) y).
Proof.
  rewrite index_of_observer. case_decide; [|done]. subst. intros [k ->]. by eexists.
Qed.

Lemma SiftUp_loop_S fuel i ni (s : HeapState) :
  SiftUp_loop (S fuel) i ni s =
    if i =? 0 then (ni, s)
    else
      let '(ahead, s1) := CompareElements i (Parent i) s in
      if ahead
      then SiftUp_loop fuel (Parent i) ni (SwapElements i (Parent i) s1)
      else SiftUp_loop fuel 0 i s1.
Proof. done. Qed.

(** A sift-up from a slot with unplaced content leaves at most the edges to
    the children of that slot out of order. *)
Lemma SiftUp_hole w h i :
  wf_heap h -> 0 <= i < size h -> hole_ordered w h i ->
  down_ordered (SiftUp i (w, h)).2.1 (SiftUp i (w, h)).2.2 i.
Proof.
  intros Hwf Hi Hh. unfold SiftUp. rewrite SiftUp_loop_S.
  destruct (i =? 0) eqn:E0.
  { simpl. split; [done|lia]. }
  cbn [snd].
  pose proof (Parent_range i ltac:(lia)) as HP.
  destruct (slot_is_Some h i) as [a Ha]; [done..|].
  destruct (slot_is_Some h (Parent i)) as [p Hp]; [done|lia|].
  rewrite (CompareElements_in_range w h i (Parent i) a p) by (done || lia).
  destruct (compare_ w a p) eqn:Hap.
  - rewrite (SwapElements_in_range w h i (Parent i) a p) by (done || lia).
    match goal with |- down_ordered ?s.2.1 ?s.2.2 _ =>
      assert (heap_ordered s.2.1 s.2.2) as Ho end.
    { apply SiftUp_loop_ordered; cbn [fst snd];
        [by apply wf_swap_heap|rewrite size_swap_heap; lia| |].
      - unfold wf_heap, size in *. lia.
      - apply (swap_up_ordered w); [|lia|done..].
        intros. by rewrite !compare_observer. }
    split; [by apply heap_ordered_hole|]. intros. by apply Ho.
  - rewrite SiftUp_loop_0. simpl. split; [done|].
    intros _ x q Hx Hq. by simplify_eq.
Qed.

(** What [erase] establishes. *)
Record erased (i : Z) (a : T) (w : W) (h : Heap) (w' : W) (h' : Heap)
  : Prop := {
  erased_tracked : tracked w' h';
  erased_live : live h ≡ₚ a :: live h';
  erased_size : size h' = size h - 1;
  erased_index : index_of w' a = Some kNullIndex;
  erased_compare : forall x y, compare_ w' x y = compare_ w x y;
  erased_ordered : heap_ordered w' h';
  erased_preserves : forall P : W -> Prop,
    (forall x j w0, P w0 -> P (observer_ x j w0)) -> P w -> P w';
  erased_flag :
    out_of_range_ h' =
      out_of_range_ h || ((i =? size h - 1) && negb (i =? 0))
}.

Lemma erase_spec i a w h :
  tracked w h -> 0 <= i < size h -> slot h i = Some a ->
  hole_ordered w h i ->
  (i = size h - 1 -> 0 < i -> edge_ordered w h i) ->
  erased i a w h (erase i (w, h)).1 (erase i (w, h)).2.
Proof.
  intros Ht Hi Ha Hh Hlast. unfold erase. simpl snd.
  pose proof (remove_spec i a w h Ht Hi Ha) as Hrem. simpl in Hrem.
  destruct (remove_back _) as [w2 h2]. simpl in Hrem.
  pose proof (removed_hole _ _ _ _ _ _ Hi Hrem Hh) as Hh2.
  destruct Hrem as [Hsz2 Ht2 Hidx2 Hlive2 Hflag2 Hcmp2 Hslot2 Hstale2 Hpre2].
  pose proof (tracked_wf _ _ Ht2) as Hwf2.
  pose proof (tracked_size _ _ Ht2) as Hle2.
  (* the state after the sift-up *)
  assert (exists w3 h3, (SiftUp i (w2, h2)).2 = (w3, h3) /\
            settled w2 h2 w3 h3 /\ down_ordered w3 h3 i /\
            out_of_range_ h3 =
              out_of_range_ h2 || ((i =? size h - 1) && negb (i =? 0)))
    as (w3 & h3 & -> & Hset3 & Hdown3 & Hflag3).
  { destruct (decide (i < size h2)) as [Hin|Hout].
    - destruct (SiftUp i (w2, h2)) as [r [w3 h3]] eqn:E. exists w3, h3.
      pose proof (SiftUp_loop_swapped (S (S (length (elements_ h2)))) i i
                    (w2, h2) Hwf2 ltac:(simpl; lia)) as Hsw.
      pose proof (SiftUp_hole w2 h2 i Hwf2 ltac:(lia) Hh2) as Hd.
      unfold SiftUp in E, Hd. cbn [snd] in E, Hsw, Hd.
      rewrite E in Hsw, Hd. cbn [fst snd] in *.
      split; [done|]. split; [by apply (swapped_settled (w2, h2) (w3, h3))|].
      split; [done|]. pose proof (swapped_flag _ _ Hsw) as Hfl.
      simpl in Hfl. rewrite Hfl.
      replace (i =? size h - 1) with false by lia. by rewrite orb_false_r.
    - assert (i = size h - 1) as Hil by lia.
      unfold SiftUp. rewrite SiftUp_loop_S.
      destruct (i =? 0) eqn:E0.
      { exists w2, h2. split; [done|]. split; [by split|].
        split; [split; [done|lia]|]. by rewrite andb_false_r, orb_false_r. }
      pose proof (Parent_range i ltac:(lia)) as HP.
      destruct (slot_is_Some h2 (Parent i)) as [p Hp]; [done|lia|].
      rewrite <- Hil in Hstale2.
      rewrite (CompareElements_slots w2 h2 i (Parent i) a p Hstale2 Hp), Hcmp2.
      assert (compare_ w a p = false) as ->.
      { apply (Hlast Hil ltac:(lia) a p Ha).
        rewrite Hslot2 in Hp by lia. by rewrite decide_False in Hp by lia. }
      rewrite SiftUp_loop_0. simpl.
      exists w2, (touch (Parent i) (touch i h2)).
      split; [done|]. split; [split; [by rewrite !tracked_touch|done..]|].
      split; [split; [by rewrite !hole_ordered_touch|]|].
      { intros Hr. change (size (touch (Parent i) (touch i h2))) with (size h2) in Hr.
        lia. }
      simpl. unfold in_range. simpl.
      change (size (touch i h2)) with (size h2).
      replace (i <? size h2) with false by lia.
      replace (Parent i <? size h2) with true by lia.
      replace (0 <=? Parent i) with true by lia.
      replace (i =? size h - 1) with true by lia.
      by rewrite andb_false_r, orb_false_r. }
  (* the sift-down *)
  destruct Hset3 as [Ht3 Hlive3 Hsz3 Hcmp3 Hpre3].
  pose proof (tracked_wf _ _ Ht3) as Hwf3.
  pose proof (tracked_size _ _ Ht3) as Hle3.
  pose proof (SiftDown_loop_swapped (S (S (finish_ h3))) i (w3, h3)
                Hwf3 Hle3 ltac:(lia)) as Hsw4.
  pose proof (SiftDown_loop_ordered (S (S (finish_ h3))) i (w3, h3)
                Hwf3 Hle3 ltac:(lia) ltac:(unfold size; simpl; lia) Hdown3)
    as Ho4.
  unfold SiftDown. cbn [snd] in *. cbv zeta in Ho4.
  destruct (SiftDown_loop _ _ _) as [w4 h4]. cbn [fst snd] in *.
  destruct (swapped_settled (w3, h3) (w4, h4) Ht3 Hsw4)
    as [Ht4 Hlive4 Hsz4 Hcmp4 Hpre4].
  cbn [fst snd] in *.
  split.
  - done.
  - by rewrite Hlive4, Hlive3.
  - lia.
  - assert (is_Some (index_of w4 a)) as Hsome.
    { assert (HP : forall x j w0, is_Some (index_of w0 a) ->
                is_Some (index_of (observer_ x j w0) a))
        by (intros; by apply is_Some_index_of_observer).
      apply (Hpre4 (fun w0 => is_Some (index_of w0 a)) HP).
      apply (Hpre3 (fun w0 => is_Some (index_of w0 a)) HP).
      by rewrite Hidx2. }
    apply (tracked_null_iff w4 h4 a Ht4 Hsome).
    rewrite Hlive4, Hlive3.
    apply (tracked_null_iff w2 h2 a Ht2); [by rewrite Hidx2|done].
  - intros. by rewrite Hcmp4, Hcmp3, Hcmp2.
  - done.
  - intros P HP HPw. by apply Hpre4, Hpre3, Hpre2.
  - pose proof (swapped_flag _ _ Hsw4) as Hfl. simpl in Hfl.
    by rewrite Hfl, Hflag3, Hflag2.
Qed.

(** ** The top *)

Lemma top_slot (h : Heap) x : top h = Some x <-> 0 < size h /\ slot h 0 = Some x.
Proof.
  unfold top. destruct (in_range h 0) eqn:E.
  - apply in_range_true in E. split; [intros; split; [lia|done]|by intros []].
  - apply in_range_false in E. pose proof (Nat2Z.is_nonneg (finish_ h)).
    unfold size in *. split; [done|]. intros []. lia.
Qed.

(** In an ordered heap no element compares ahead of the root. *)
Lemma heap_ordered_root w h k x r :
  wf_heap h -> heap_ordered w h ->
  0 <= k < size h -> slot h k = Some x -> slot h 0 = Some r ->
  compare_ w x r = false.
Proof.
  intros Hwf Ho Hk Hx Hr. remember (Z.to_nat k) as n eqn:Hn.
  revert k x Hk Hx Hn. induction (lt_wf n) as [n _ IH]. intros k x Hk Hx ->.
  destruct (decide (k = 0)) as [->|Hk0].
  { simplify_eq. apply compare_irrefl. }
  pose proof (Parent_range k ltac:(lia)) as HP.
  destruct (slot_is_Some h (Parent k)) as [p Hp]; [done|lia|].
  eapply compare_negtrans.
  - by apply (Ho k ltac:(lia) x p).
  - apply (IH (Z.to_nat (Parent k)) ltac:(lia) (Parent k) p); [lia|done..].
Qed.

(** ** Changes of the world that the heap does not see *)

Definition idle (o : option Z) : Prop := o = None \/ o = Some kNullIndex.

Lemma tracked_world w w' h :
  tracked w h ->
  (forall y, index_of w' y = index_of w y \/
             idle (index_of w y) /\ idle (index_of w' y)) ->
  tracked w' h.
Proof.
  intros [Hsz Hwf Hslot Hidx] Hw. split; [done..| |].
  - intros k x Hk Hx. pose proof (Hslot k x Hk Hx) as Hi.
    destruct (Hw x) as [->|[[Hn|Hn] _]]; [done|congruence|].
    rewrite Hn in Hi. simplify_eq. lia.
  - intros y j Hy Hj.
    destruct (Hw y) as [Heq|[_ [Hn|Hn]]]; [|congruence..].
    rewrite Heq in Hy. by apply Hidx.
Qed.

Lemma heap_ordered_world w w' h :
  heap_ordered w h ->
  (forall x y, x ∈ live h -> y ∈ live h -> compare_ w' x y = compare_ w x y) ->
  heap_ordered w' h.
Proof.
  intros Ho Hw k Hk x p Hx Hp. pose proof (Parent_range k ltac:(lia)).
  rewrite Hw; [by apply (Ho k)|eapply slot_live; [|done]; lia..].
Qed.

Lemma hole_ordered_world w w' h i :
  hole_ordered w h i ->
  (forall x y, x ∈ live h -> y ∈ live h -> compare_ w' x y = compare_ w x y) ->
  hole_ordered w' h i.
Proof.
  intros [He Hg] Hw. split.
  - intros k Hk Hki HPk x p Hx Hp. pose proof (Parent_range k ltac:(lia)).
    rewrite Hw; [by apply (He k)|eapply slot_live; [|done]; lia..].
  - intros c x g Hc HPc Hi0 Hx Hgs. pose proof (Parent_range c ltac:(lia)).
    pose proof (Parent_range i ltac:(lia)).
    rewrite Hw; [by apply (Hg c)|eapply slot_live; [|done]; lia..].
Qed.

(** Heap order everywhere but at the edges into the root. *)
Lemma hole_ordered_root_world w w' h r :
  heap_ordered w h -> slot h 0 = Some r ->
  (forall x y, x ∈ live h -> y ∈ live h -> x <> r -> y <> r ->
     compare_ w' x y = compare_ w x y) ->
  NoDup (live h) ->
  hole_ordered w' h 0.
Proof.
  intros Ho Hr Hw Hnd. split; [|done].
  intros k Hk Hk0 HPk x p Hx Hp. pose proof (Parent_range k ltac:(lia)).
  assert (forall j y, 0 < j < size h -> slot h j = Some y -> y <> r) as Hne.
  { intros j y Hj Hy ->. apply slot_Some in Hy as [_ Hy], Hr as [_ Hr].
    unfold size, live in *.
    pose proof (NoDup_lookup _ (Z.to_nat j) (Z.to_nat 0) r Hnd) as Heq.
    rewrite !lookup_take_lt in Heq by lia. specialize (Heq Hy Hr). lia. }
  rewrite Hw; [by apply (Ho k)|try (eapply slot_live; [|done]; lia)..].
  - by apply (Hne k).
  - apply (Hne (Parent k)); [lia|done].
Qed.
End HeapTheory.

(** * The heap of the memory manager *)

(** The slot a node records, as the world of segment nodes holds it. *)
Definition seg_index (w : nodes) (n : node) : option Z := heap_index <$> w !! n.

Lemma Size_set_heap_index i seg : Size (set_heap_index i seg) = Size seg.
Proof. done. Qed.

Lemma observer_extent x i (w : nodes) n :
  left (MemorySegmentsHeapObserver x i w !!! n) = left (w !!! n) /\
  right (MemorySegmentsHeapObserver x i w !!! n) = right (w !!! n).
Proof.
  unfold MemorySegmentsHeapObserver. rewrite !lookup_total_alt, lookup_alter.
  case_decide; [|done]. subst. by destruct (w !! n).
Qed.

Lemma seg_compare_observer x i (w : nodes) a b :
  MemorySegmentSizeCompare (MemorySegmentsHeapObserver x i w) a b =
  MemorySegmentSizeCompare w a b.
Proof.
  unfold MemorySegmentSizeCompare, Size. cbv zeta.
  destruct (observer_extent x i w a) as [Ea1 Ea2].
  destruct (observer_extent x i w b) as [Eb1 Eb2].
  by rewrite Ea1, Ea2, Eb1, Eb2.
Qed.

Lemma seg_index_observer x i (w : nodes) y :
  seg_index (MemorySegmentsHeapObserver x i w) y =
    if decide (y = x) then (fun _ => i) <$> seg_index w x else seg_index w y.
Proof.
  unfold seg_index, MemorySegmentsHeapObserver. rewrite lookup_alter.
  destruct (decide (x = y)) as [->|]; case_decide; try congruence.
  by destruct (w !! y).
Qed.

Lemma seg_compare_irrefl (w : nodes) a : MemorySegmentSizeCompare w a a = false.
Proof. unfold MemorySegmentSizeCompare. rewrite Z.eqb_refl. lia. Qed.

Lemma seg_compare_trans (w : nodes) a b c :
  MemorySegmentSizeCompare w a b = true ->
  MemorySegmentSizeCompare w b c = true ->
  MemorySegmentSizeCompare w a c = true.
Proof.
  unfold MemorySegmentSizeCompare.
  repeat match goal with |- context [?x =? ?y] => destruct (Z.eqb_spec x y) end;
    lia.
Qed.

Lemma seg_compare_negtrans (w : nodes) a b c :
  MemorySegmentSizeCompare w a b = false ->
  MemorySegmentSizeCompare w b c = false ->
  MemorySegmentSizeCompare w a c = false.
Proof.
  unfold MemorySegmentSizeCompare.
  repeat match goal with |- context [?x =? ?y] => destruct (Z.eqb_spec x y) end;
    lia.
Qed.

Abbreviation seg_tracked := (tracked seg_index).
Abbreviation seg_ordered := (heap_ordered MemorySegmentSizeCompare).

Lemma seg_push_spec v w h :
  seg_tracked w h -> seg_index w v = Some kNullIndex -> size h < kNullIndex ->
  pushed MemorySegmentSizeCompare MemorySegmentsHeapObserver seg_index
    v w h (heap_push v (w, h)).2.1 (heap_push v (w, h)).2.2.
Proof.
  apply push_spec.
  - apply seg_compare_observer.
  - apply seg_index_observer.
  - apply seg_compare_irrefl.
  - apply seg_compare_trans.
  - apply seg_compare_negtrans.
Qed.

Lemma seg_erase_spec i a w h :
  seg_tracked w h -> 0 <= i < size h -> slot h i = Some a ->
  hole_ordered MemorySegmentSizeCompare w h i ->
  (i = size h - 1 -> 0 < i -> edge_ordered MemorySegmentSizeCompare w h i) ->
  erased MemorySegmentSizeCompare MemorySegmentsHeapObserver seg_index
    i a w h (heap_erase i (w, h)).1 (heap_erase i (w, h)).2.
Proof.
  apply erase_spec.
  - apply seg_compare_observer.
  - apply seg_index_observer.
  - apply seg_compare_irrefl.
  - apply seg_compare_trans.
  - apply seg_compare_negtrans.
Qed.

(** * The state of the memory manager *)

(** The address range of a segment and whether it is free: a segment is free
    exactly when its [heap_index] is not [kNullIndex]. *)
Record block := mkBlock {
  block_left : Z;
  block_right : Z;
  block_free : bool
}.

Definition is_free (seg : MemorySegment) : bool :=
  negb (heap_index seg =? kNullIndex).

Definition block_of (seg : MemorySegment) : block :=
  {| block_left := left seg; block_right := right seg; block_free := is_free seg |}.

Definition block_at (m : MemoryManager) (n : node) : block :=
  block_of (segment_of_ m !!! n).

(** The segment sequence, in list order. *)
Definition blocks (m : MemoryManager) : list block :=
  block_at m <$> memory_segments_ m.

Arguments block_at : simpl never.
Arguments blocks : simpl never.

(** Each block starts where the one before it ends, from [lo] to [hi]. *)
Fixpoint spans (lo hi : Z) (bs : list block) : Prop :=
  match bs with
  | [] => lo = hi
  | b :: rest => block_left b = lo /\ spans (block_right b) hi rest
  end.

(** The blocks partition [[0, memory_size)]: contiguous from 0 to
    [memory_size], each with its left end not above its right end. *)
Definition partitions (memory_size : Z) (bs : list block) : Prop :=
  bs <> [] /\
  spans 0 memory_size bs /\
  Forall (fun b => block_left b <= block_right b) bs.

Fixpoint no_adjacent_free (bs : list block) : Prop :=
  match bs with
  | a :: rest =>
      match rest with
      | b :: _ => ~ (block_free a = true /\ block_free b = true)
      | [] => True
      end /\ no_adjacent_free rest
  | [] => True
  end.

(** A handle the caller may pass to [Free]: a segment of the sequence that is
    allocated. *)
Definition allocated (m : MemoryManager) (p : node) : Prop :=
  p ∈ memory_segments_ m /\
  seg_index (segment_of_ m) p = Some kNullIndex.

(** A free segment of the sequence. *)
Definition free_segment (m : MemoryManager) (n : node) (seg : MemorySegment)
  : Prop :=
  n ∈ memory_segments_ m /\ segment_of_ m !! n = Some seg /\ is_free seg = true.

(** The list, the nodes and the heap agree. *)
Record consistent (m : MemoryManager) : Prop := {
  c_nodup : NoDup (memory_segments_ m);
  c_dom : forall n, n ∈ memory_segments_ m <-> is_Some (segment_of_ m !! n);
  c_fresh : forall n, n ∈ memory_segments_ m -> (n < next_node_ m)%nat;
  c_tracked : seg_tracked (segment_of_ m) (free_memory_segments_ m);
  c_ordered : seg_ordered (segment_of_ m) (free_memory_segments_ m)
}.

(** The blocks lie in the address space the manager was built with:
    contiguous from 0 to the size the constructor stored (an [int]), every
    bound an [int], and, as soon as there are two, each with its left end not
    above its right end. *)
Record laid_out (memory_size : Z) (bs : list block) : Prop := {
  lo_nonempty : bs <> [];
  lo_spans : spans 0 (to_int memory_size) bs;
  lo_int : Forall (fun b => 0 <= block_left b /\
                            is_int (block_left b) /\ is_int (block_right b)) bs;
  lo_sorted : (1 < length bs)%nat ->
    Forall (fun b => block_left b <= block_right b) bs
}.

Record invariant (memory_size : Z) (m : MemoryManager) : Prop := {
  inv_consistent : consistent m;
  inv_laid_out : laid_out memory_size (blocks m);
  inv_no_adjacent_free : no_adjacent_free (blocks m)
}.

(** The heap's vector can take one more element: it holds fewer than the
    largest [size_t], as it must for [push_back] to return. *)
Definition has_room (m : MemoryManager) : Prop :=
  size (free_memory_segments_ m) < kNullIndex.

(** The states a manager built with [memory_size] reaches through [Allocate]
    and through [Free] on allocated handles. *)
Inductive reachable (memory_size : Z) : MemoryManager -> Prop :=
| reachable_new : reachable memory_size (MemoryManager_new memory_size)
| reachable_Allocate m size_ it m' :
    reachable memory_size m -> is_size_t size_ ->
    Allocate size_ m = Done (it, m') ->
    reachable memory_size m'
| reachable_Free m p m' :
    reachable memory_size m -> allocated m p -> has_room m ->
    Free p m = Done m' ->
    reachable memory_size m'.

(** ** The list operations on a sequence without repetition *)

Lemma prev_of_notin p (l : list node) : p ∉ l -> prev_of p l = None.
Proof.
  induction l as [|a [|b tl] IH]; intros Hp; [done..|].
  cbn [prev_of]. rewrite decide_False by set_solver. apply IH. set_solver.
Qed.

Lemma prev_of_app p (l1 l2 : list node) :
  p ∉ l1 -> p ∉ l2 -> prev_of p (l1 ++ p :: l2) = last l1.
Proof.
  intros H1 H2. induction l1 as [|a [|b tl] IH].
  - simpl. destruct l2 as [|b tl]; [done|].
    rewrite decide_False by set_solver. apply prev_of_notin. set_solver.
  - simpl. by rewrite decide_True.
  - change (prev_of p ((a :: b :: tl) ++ p :: l2))
      with (if decide (b = p) then Some a else prev_of p ((b :: tl) ++ p :: l2)).
    rewrite decide_False by set_solver. rewrite IH by set_solver. done.
Qed.

Lemma next_of_app p (l1 l2 : list node) :
  p ∉ l1 -> next_of p (l1 ++ p :: l2) = head l2.
Proof.
  intros H1. induction l1 as [|a tl IH]; simpl.
  - by rewrite decide_True.
  - rewrite decide_False by set_solver. apply IH. set_solver.
Qed.

Lemma insert_before_app t a (l1 l2 : list node) :
  t ∉ l1 -> insert_before t a (l1 ++ t :: l2) = l1 ++ a :: t :: l2.
Proof.
  intros H1. induction l1 as [|x tl IH]; simpl.
  - by rewrite decide_True.
  - rewrite decide_False by set_solver. f_equal. apply IH. set_solver.
Qed.

Lemma unlink_app a (l1 l2 : list node) :
  a ∉ l1 -> unlink a (l1 ++ a :: l2) = l1 ++ l2.
Proof.
  intros H1. induction l1 as [|x tl IH]; simpl.
  - by rewrite decide_True.
  - rewrite decide_False by set_solver. f_equal. apply IH. set_solver.
Qed.

(** ** Sequences of blocks *)

Lemma spans_app lo hi (b1 b2 : list block) :
  spans lo hi (b1 ++ b2) <-> exists mid, spans lo mid b1 /\ spans mid hi b2.
Proof.
  revert lo. induction b1 as [|b tl IH]; intros lo; simpl.
  - split; [eauto|]. by intros (mid & -> & ?).
  - rewrite IH. naive_solver.
Qed.

Lemma spans_unique lo hi hi' (bs : list block) :
  spans lo hi bs -> spans lo hi' bs -> hi = hi'.
Proof.
  revert lo. induction bs as [|b tl IH]; simpl; intros lo; [congruence|].
  intros [_ ?] [_ ?]. eauto.
Qed.

(** Neither of two neighbours, if both are there, is free next to the other. *)
Definition pair_ok (o1 o2 : option block) : Prop :=
  match o1, o2 with
  | Some a, Some b => ~ (block_free a = true /\ block_free b = true)
  | _, _ => True
  end.

Lemma no_adjacent_free_cons b (bs : list block) :
  no_adjacent_free (b :: bs) <-> pair_ok (Some b) (head bs) /\ no_adjacent_free bs.
Proof. by destruct bs. Qed.

Lemma no_adjacent_free_middle (b1 : list block) b (b2 : list block) :
  no_adjacent_free (b1 ++ b :: b2) <->
  no_adjacent_free b1 /\ pair_ok (last b1) (Some b) /\
  pair_ok (Some b) (head b2) /\ no_adjacent_free b2.
Proof.
  induction b1 as [|x [|y tl] IH].
  - rewrite app_nil_l, no_adjacent_free_cons. simpl. naive_solver.
  - change ([x] ++ b :: b2) with (x :: b :: b2).
    rewrite (no_adjacent_free_cons x), (no_adjacent_free_cons b). simpl.
    naive_solver.
  - change ((x :: y :: tl) ++ b :: b2) with (x :: ((y :: tl) ++ b :: b2)).
    rewrite (no_adjacent_free_cons x), IH, (no_adjacent_free_cons x (y :: tl)).
    rewrite last_cons_cons. simpl. naive_solver.
Qed.

Lemma pair_ok_allocated_l b o : block_free b = false -> pair_ok (Some b) o.
Proof. intros Hb. destruct o; simpl; [|done]. intros []. congruence. Qed.

Lemma pair_ok_allocated_r b o : block_free b = false -> pair_ok o (Some b).
Proof. intros Hb. destruct o; simpl; [|done]. intros []. congruence. Qed.

(** A neighbour that is absent or allocated. *)
Definition not_free (o : option block) : Prop :=
  forall b, o = Some b -> block_free b = false.

Lemma pair_ok_free_l b o :
  block_free b = true -> pair_ok (Some b) o <-> not_free o.
Proof.
  intros Hb. unfold not_free. destruct o as [c|]; simpl; [|naive_solver].
  split.
  - intros Hn ? [= <-]. destruct (block_free c); [|done]. by destruct Hn.
  - intros Hn [_ Hc]. specialize (Hn c eq_refl). congruence.
Qed.

Lemma pair_ok_free_r b o :
  block_free b = true -> pair_ok o (Some b) <-> not_free o.
Proof.
  intros Hb. unfold not_free. destruct o as [c|]; simpl; [|naive_solver].
  split.
  - intros Hn ? [= <-]. destruct (block_free c); [|done]. by destruct Hn.
  - intros Hn [Hc _]. specialize (Hn c eq_refl). congruence.
Qed.

(** ** Nodes, extents and the heap *)

Lemma to_int_is_int z : is_int (to_int z).
Proof. unfold is_int, to_int. lia. Qed.

Lemma to_int_id z : is_int z -> to_int z = z.
Proof. unfold is_int, to_int. lia. Qed.

Lemma to_size_t_id z : is_size_t z -> to_size_t z = z.
Proof. unfold is_size_t, to_size_t. lia. Qed.

Lemma is_free_true seg : is_free seg = true <-> heap_index seg <> kNullIndex.
Proof. unfold is_free. destruct (Z.eqb_spec (heap_index seg) kNullIndex); naive_solver. Qed.

Lemma is_free_false seg : is_free seg = false <-> heap_index seg = kNullIndex.
Proof. unfold is_free. destruct (Z.eqb_spec (heap_index seg) kNullIndex); naive_solver. Qed.

Lemma seg_index_Some (w : nodes) n seg :
  w !! n = Some seg -> seg_index w n = Some (heap_index seg).
Proof. unfold seg_index. by intros ->. Qed.


Lemma free_iff_live (w : nodes) h n seg :
  seg_tracked w h -> w !! n = Some seg ->
  is_free seg = true <-> n ∈ live h.
Proof.
  intros Ht Hn. pose proof (seg_index_Some _ _ _ Hn) as Hi.
  pose proof (tracked_null_iff seg_index w h n Ht ltac:(by rewrite Hi)) as Hiff.
  rewrite Hi in Hiff. rewrite is_free_true.
  destruct (decide (n ∈ live h)); split; try done.
  - intros _ Heq. apply Hiff; [by rewrite Heq|done].
  - intros Hne. exfalso. apply Hne.
    assert (Some (heap_index seg) = Some kNullIndex) by by apply Hiff.
    congruence.
Qed.

(** The address range a node holds. *)
Definition extent_of (w : nodes) (n : node) : option (Z * Z) :=
  (fun seg => (left seg, right seg)) <$> w !! n.

Definition same_extents (w w' : nodes) : Prop :=
  forall n, extent_of w' n = extent_of w n.

Lemma extent_of_observer x i (w : nodes) n :
  extent_of (MemorySegmentsHeapObserver x i w) n = extent_of w n.
Proof.
  unfold extent_of, MemorySegmentsHeapObserver. rewrite lookup_alter.
  case_decide; [|done]. subst. by destruct (w !! n).
Qed.

Lemma same_extents_observer (w0 : nodes) x i w :
  same_extents w0 w -> same_extents w0 (MemorySegmentsHeapObserver x i w).
Proof. intros Hs n. by rewrite extent_of_observer. Qed.

Lemma same_extents_refl w : same_extents w w.
Proof. done. Qed.

Lemma same_extents_trans w1 w2 w3 :
  same_extents w1 w2 -> same_extents w2 w3 -> same_extents w1 w3.
Proof. intros H1 H2 n. by rewrite H2. Qed.

Lemma same_extents_is_Some (w w' : nodes) n :
  same_extents w w' -> is_Some (w' !! n) <-> is_Some (w !! n).
Proof.
  intros Hs. specialize (Hs n). unfold extent_of in Hs.
  rewrite <- !(fmap_is_Some (fun seg => (left seg, right seg))). by rewrite Hs.
Qed.

Lemma same_extents_total (w w' : nodes) n :
  same_extents w w' ->
  left (w' !!! n) = left (w !!! n) /\ right (w' !!! n) = right (w !!! n).
Proof.
  intros Hs. specialize (Hs n). unfold extent_of in Hs.
  rewrite !lookup_total_alt.
  destruct (w' !! n), (w !! n); simplify_eq/=; done.
Qed.

Lemma same_extents_compare (w w' : nodes) a b :
  same_extents w w' ->
  MemorySegmentSizeCompare w' a b = MemorySegmentSizeCompare w a b.
Proof.
  intros Hs. unfold MemorySegmentSizeCompare, Size. cbv zeta.
  destruct (same_extents_total w w' a Hs) as [Ea1 Ea2].
  destruct (same_extents_total w w' b Hs) as [Eb1 Eb2].
  by rewrite Ea1, Ea2, Eb1, Eb2.
Qed.

Lemma pushed_extents v (w : nodes) h w' h' :
  pushed MemorySegmentSizeCompare MemorySegmentsHeapObserver seg_index
    v w h w' h' ->
  same_extents w w'.
Proof.
  intros Hp. apply (pushed_preserves _ _ _ _ _ _ _ _ Hp (same_extents w)); [|done].
  intros. by apply same_extents_observer.
Qed.

Lemma erased_extents i a (w : nodes) h w' h' :
  erased MemorySegmentSizeCompare MemorySegmentsHeapObserver seg_index
    i a w h w' h' ->
  same_extents w w'.
Proof.
  intros He. apply (erased_preserves _ _ _ _ _ _ _ _ _ He (same_extents w)); [|done].
  intros. by apply same_extents_observer.
Qed.

(** The block of a node, from the range it holds and the content of the
    heap. *)
Definition view (w : nodes) (lv : list node) (n : node) : block :=
  mkBlock (left (w !!! n)) (right (w !!! n)) (bool_decide (n ∈ lv)).

Lemma block_of_view (w : nodes) h n :
  seg_tracked w h -> is_Some (w !! n) ->
  block_of (w !!! n) = view w (live h) n.
Proof.
  intros Ht [seg Hn]. rewrite (lookup_total_correct _ _ _ Hn).
  unfold block_of, view. rewrite (lookup_total_correct _ _ _ Hn). f_equal.
  pose proof (free_iff_live w h n seg Ht Hn) as Hiff.
  destruct (is_free seg); case_bool_decide; naive_solver.
Qed.

Lemma view_ext (w w' : nodes) lv lv' n :
  left (w' !!! n) = left (w !!! n) -> right (w' !!! n) = right (w !!! n) ->
  (n ∈ lv' <-> n ∈ lv) ->
  view w' lv' n = view w lv n.
Proof.
  intros Hl Hr Hiff. unfold view. rewrite Hl, Hr. f_equal.
  by apply bool_decide_ext.
Qed.

Lemma blocks_view m :
  consistent m ->
  blocks m = view (segment_of_ m) (live (free_memory_segments_ m))
               <$> memory_segments_ m.
Proof.
  intros Hc. unfold blocks. apply list_fmap_ext. intros i n Hn.
  unfold block_at. apply block_of_view; [apply Hc|].
  apply (c_dom _ Hc). by eapply list_elem_of_lookup_2.
Qed.

(** ** The constructor *)

Lemma tracked_empty_heap (seg : MemorySegment) :
  heap_index seg = kNullIndex ->
  seg_tracked {[ 0%nat := seg ]} empty_heap.
Proof.
  intros Hnull. split.
  - rewrite kNullIndex_eq. unfold size. simpl. lia.
  - unfold wf_heap. simpl. lia.
  - unfold size. simpl. lia.
  - intros y j. unfold seg_index.
    destruct (decide (y = 0%nat)) as [->|Hy].
    + rewrite lookup_singleton_eq. simpl. congruence.
    + by rewrite lookup_singleton_ne.
Qed.

Lemma MemoryManager_new_spec memory_size :
  let m := MemoryManager_new memory_size in
  consistent m /\
  memory_segments_ m = [0%nat] /\
  blocks m = [mkBlock 0 (to_int memory_size) true].
Proof.
  unfold MemoryManager_new.
  set (seg0 := MemorySegment_new 0 memory_size).
  pose proof (seg_push_spec 0%nat {[ 0%nat := seg0 ]} empty_heap
                (tracked_empty_heap seg0 eq_refl)) as Hp.
  destruct (heap_push _ _) as [r [w h]]. simpl in Hp.
  specialize (Hp ltac:(unfold seg_index; by rewrite lookup_singleton_eq)
                 ltac:(by rewrite kNullIndex_eq)).
  pose proof (pushed_extents _ _ _ _ _ Hp) as Hext.
  destruct Hp as [Ht Hlive Hsz _ _ Ho _].
  assert (Hdom : forall n, is_Some (w !! n) <-> n = 0%nat).
  { intros n. rewrite (same_extents_is_Some _ _ n Hext).
    destruct (decide (n = 0%nat)) as [->|].
    - by rewrite lookup_singleton_eq.
    - rewrite lookup_singleton_ne by done. split; [by intros []|done]. }
  assert (Hc : consistent (mkManager h [0%nat] w 1%nat)).
  { split; simpl.
    - apply NoDup_singleton.
    - intros n. rewrite Hdom. set_solver.
    - intros n ->%list_elem_of_singleton. lia.
    - done.
    - apply Ho. intros k Hk. unfold size in Hk. simpl in Hk. lia. }
  split; [done|]. split; [done|].
  rewrite (blocks_view _ Hc). simpl. f_equal.
  unfold view. destruct (same_extents_total _ _ 0%nat Hext) as [-> ->].
  rewrite lookup_total_singleton. simpl. f_equal.
  apply bool_decide_eq_true. rewrite Hlive. set_solver.
Qed.

Lemma MemoryManager_new_invariant memory_size :
  invariant memory_size (MemoryManager_new memory_size).
Proof.
  destruct (MemoryManager_new_spec memory_size) as (Hc & Hl & Hb).
  split; [done|split|]; rewrite ?Hb; simpl.
  - done.
  - done.
  - repeat constructor; simpl; try apply to_int_is_int; lia.
  - lia.
  - done.
Qed.

(** ** Layouts under the changes the manager makes *)

Lemma spans_middle lo hi (b1 : list block) b (b2 : list block) :
  spans lo hi (b1 ++ b :: b2) <->
  spans lo (block_left b) b1 /\ spans (block_right b) hi b2.
Proof. rewrite spans_app. simpl. naive_solver. Qed.

Lemma laid_out_sorted_rest M (b1 : list block) b (b2 : list block) :
  laid_out M (b1 ++ b :: b2) ->
  Forall (fun b => block_left b <= block_right b) (b1 ++ b2).
Proof.
  intros Hl. destruct b1 as [|x b1]; [destruct b2 as [|y b2]|].
  - done.
  - apply lo_sorted in Hl; [|simpl; lia]. by apply Forall_cons in Hl as [_ ?].
  - apply lo_sorted in Hl; [|simpl; rewrite length_app; simpl; lia].
    apply Forall_app in Hl as [H1 H2]. apply Forall_cons in H2 as [_ H2].
    apply Forall_app. by split.
Qed.

(** A block changes its state. *)
Lemma laid_out_flag M (b1 : list block) b b' (b2 : list block) :
  laid_out M (b1 ++ b :: b2) ->
  block_left b' = block_left b -> block_right b' = block_right b ->
  laid_out M (b1 ++ b' :: b2).
Proof.
  intros [Hne Hsp Hint Hso] Hl Hr. split.
  - by destruct b1.
  - apply spans_middle. rewrite Hl, Hr. by apply spans_middle.
  - rewrite Forall_app, Forall_cons in *. rewrite Hl, Hr. naive_solver.
  - rewrite length_app in *. simpl in *. intros Hlen. specialize (Hso Hlen).
    rewrite Forall_app, Forall_cons in *. rewrite Hl, Hr. naive_solver.
Qed.

(** A block is split in two. *)
Lemma laid_out_split M (b1 : list block) b ba bt (b2 : list block) :
  laid_out M (b1 ++ b :: b2) ->
  block_left ba = block_left b -> block_right ba = block_left bt ->
  block_right bt = block_right b ->
  block_left ba <= block_right ba -> block_left bt <= block_right bt ->
  laid_out M (b1 ++ ba :: bt :: b2).
Proof.
  intros Hlo Hl Hm Hr Hsa Hst.
  pose proof (laid_out_sorted_rest _ _ _ _ Hlo) as Hrest.
  destruct Hlo as [Hne Hsp Hint Hso]. split.
  - by destruct b1.
  - apply spans_middle. simpl. rewrite Hl, Hr.
    apply spans_middle in Hsp. naive_solver.
  - rewrite Forall_app, !Forall_cons in *. unfold is_int in *.
    destruct Hint as (? & (? & ? & ?) & ?).
    split_and!; try done; lia.
  - intros _. rewrite Forall_app, !Forall_cons in *. naive_solver.
Qed.

(** Two neighbours are merged into one block. *)
Lemma laid_out_merge M (b1 : list block) ba bp b' (b2 : list block) :
  laid_out M (b1 ++ ba :: bp :: b2) ->
  block_left b' = block_left ba -> block_right b' = block_right bp ->
  laid_out M (b1 ++ b' :: b2).
Proof.
  intros [Hne Hsp Hint Hso] Hl Hr.
  specialize (Hso ltac:(rewrite length_app; simpl; lia)).
  apply spans_middle in Hsp as [Hsp1 [Hmid Hsp2]].
  rewrite Forall_app, !Forall_cons in Hint, Hso. split.
  - by destruct b1.
  - apply spans_middle. rewrite Hl, Hr. done.
  - rewrite Forall_app, !Forall_cons. rewrite Hl, Hr. naive_solver.
  - intros _. rewrite Forall_app, !Forall_cons. rewrite Hl, Hr.
    split_and!; try naive_solver. lia.
Qed.

(** ** The free heap of a consistent state *)

Lemma live_in_list m n :
  consistent m -> n ∈ live (free_memory_segments_ m) ->
  n ∈ memory_segments_ m /\
  exists seg, segment_of_ m !! n = Some seg /\ is_free seg = true.
Proof.
  intros Hc Hn.
  destruct (tracked_live_index seg_index _ _ n (c_tracked _ Hc) Hn)
    as (k & Hk & Hs & Hi).
  unfold seg_index in Hi.
  destruct (segment_of_ m !! n) as [seg|] eqn:E; [|done].
  split; [apply (c_dom _ Hc); by rewrite E|]. exists seg. split; [done|].
  by apply (free_iff_live _ _ _ _ (c_tracked _ Hc) E).
Qed.

Lemma free_segment_live m n seg :
  consistent m -> free_segment m n seg -> n ∈ live (free_memory_segments_ m).
Proof.
  intros Hc (_ & Hn & Hf). by apply (free_iff_live _ _ _ _ (c_tracked _ Hc) Hn).
Qed.

Lemma top_facts m t :
  consistent m -> top (free_memory_segments_ m) = Some t ->
  slot (free_memory_segments_ m) 0 = Some t /\
  0 < size (free_memory_segments_ m) /\
  t ∈ memory_segments_ m /\
  exists seg, segment_of_ m !! t = Some seg /\ heap_index seg = 0 /\
              is_free seg = true.
Proof.
  intros Hc [Hsz Hs]%top_slot.
  pose proof (tracked_slot _ _ _ (c_tracked _ Hc) 0 t ltac:(lia) Hs) as Hi.
  unfold seg_index in Hi.
  destruct (segment_of_ m !! t) as [seg|] eqn:E; [|done].
  simpl in Hi. split; [done|]. split; [done|].
  split; [apply (c_dom _ Hc); by rewrite E|]. exists seg.
  split; [done|]. split; [congruence|].
  apply is_free_true. rewrite kNullIndex_eq. simplify_eq. lia.
Qed.

Lemma heap_nonempty_top m :
  consistent m -> size (free_memory_segments_ m) <> 0 ->
  exists t, top (free_memory_segments_ m) = Some t.
Proof.
  intros Hc Hsz. pose proof (Nat2Z.is_nonneg (finish_ (free_memory_segments_ m))).
  destruct (slot_is_Some (free_memory_segments_ m) 0) as [t Ht].
  - apply (tracked_wf _ _ _ (c_tracked _ Hc)).
  - unfold size in *. lia.
  - exists t. apply top_slot. unfold size in *. split; [lia|done].
Qed.

(** No free segment compares ahead of the top of the heap. *)
Lemma top_ahead m t n seg :
  consistent m -> top (free_memory_segments_ m) = Some t ->
  free_segment m n seg ->
  MemorySegmentSizeCompare (segment_of_ m) n t = false.
Proof.
  intros Hc Ht Hn. destruct (top_facts m t Hc Ht) as (Hs & _).
  apply (free_segment_live m n seg Hc) in Hn.
  apply live_slot in Hn as (k & Hk & Hks).
  apply (heap_ordered_root MemorySegmentSizeCompare seg_compare_irrefl
           seg_compare_negtrans _ (free_memory_segments_ m) k n t);
    [apply (tracked_wf _ _ _ (c_tracked _ Hc))|apply Hc|done..].
Qed.

(** The top is the largest free segment, the leftmost of the largest. *)
Lemma top_largest m t tseg n seg :
  consistent m -> top (free_memory_segments_ m) = Some t ->
  segment_of_ m !! t = Some tseg ->
  free_segment m n seg ->
  Size seg <= Size tseg /\ (Size seg = Size tseg -> left tseg <= left seg).
Proof.
  intros Hc Ht Hts Hn. pose proof (top_ahead m t n seg Hc Ht Hn) as Hcmp.
  destruct Hn as (_ & Hn & _). unfold MemorySegmentSizeCompare in Hcmp.
  rewrite (lookup_total_correct _ _ _ Hn), (lookup_total_correct _ _ _ Hts) in Hcmp.
  destruct (Z.eqb_spec (Size seg) (Size tseg)); lia.
Qed.

Lemma consistent_heap_step m w' h' :
  consistent m -> seg_tracked w' h' -> seg_ordered w' h' ->
  same_extents (segment_of_ m) w' ->
  consistent (mkManager h' (memory_segments_ m) w' (next_node_ m)).
Proof.
  intros [Hnd Hdom Hfr Ht Ho] Ht' Ho' Hext. split; simpl; try done.
  intros n. by rewrite Hdom, (same_extents_is_Some _ _ n Hext).
Qed.

Lemma view_fmap_ext (w w' : nodes) lv lv' (l : list node) :
  (forall n, n ∈ l ->
     left (w' !!! n) = left (w !!! n) /\ right (w' !!! n) = right (w !!! n) /\
     (n ∈ lv' <-> n ∈ lv)) ->
  view w' lv' <$> l = view w lv <$> l.
Proof.
  intros Hl. apply list_fmap_ext. intros i n Hn.
  destruct (Hl n) as (? & ? & ?); [by eapply list_elem_of_lookup_2|].
  by apply view_ext.
Qed.

Lemma Size_sorted seg :
  0 <= left seg -> is_int (right seg) -> left seg <= right seg ->
  Size seg = right seg - left seg.
Proof.
  unfold Size, is_int, to_size_t, to_int. intros.
  destruct (right seg >=? left seg) eqn:E; lia.
Qed.

Lemma Size_nonneg seg : 0 <= Size seg.
Proof. unfold Size, to_size_t. destruct (right seg >=? left seg); lia. Qed.

Lemma Size_positive seg : 0 < Size seg -> left seg <= right seg.
Proof. unfold Size. destruct (right seg >=? left seg) eqn:E; lia. Qed.

Lemma view_unchanged m (w' : nodes) lv' (l : list node) :
  consistent m ->
  (forall n, n ∈ l ->
     n ∈ memory_segments_ m /\
     left (w' !!! n) = left (segment_of_ m !!! n) /\
     right (w' !!! n) = right (segment_of_ m !!! n) /\
     (n ∈ lv' <-> n ∈ live (free_memory_segments_ m))) ->
  view w' lv' <$> l = block_at m <$> l.
Proof.
  intros Hc Hl. apply list_fmap_ext. intros i n Hn.
  destruct (Hl n) as (Hin & ? & ? & Hiff); [by eapply list_elem_of_lookup_2|].
  unfold block_at.
  rewrite (block_of_view _ (free_memory_segments_ m));
    [|apply Hc|by apply (c_dom _ Hc)].
  by apply view_ext.
Qed.

Lemma blocks_split m (l1 : list node) t (l2 : list node) :
  memory_segments_ m = l1 ++ t :: l2 ->
  blocks m = (block_at m <$> l1) ++ block_at m t :: (block_at m <$> l2).
Proof. unfold blocks. intros ->. by rewrite fmap_app, fmap_cons. Qed.

(** ** Allocate *)

Lemma Allocate_exact M m t seg l1 l2 :
  invariant M m ->
  top (free_memory_segments_ m) = Some t ->
  segment_of_ m !! t = Some seg ->
  memory_segments_ m = l1 ++ t :: l2 ->
  exists m',
    Allocate (Size seg) m = Done (Some t, m') /\
    invariant M m' /\
    memory_segments_ m' = memory_segments_ m /\
    next_node_ m' = next_node_ m /\
    same_extents (segment_of_ m) (segment_of_ m') /\
    live (free_memory_segments_ m) ≡ₚ t :: live (free_memory_segments_ m') /\
    blocks m' =
      (block_at m <$> l1) ++ mkBlock (left seg) (right seg) false
                          :: (block_at m <$> l2).
Proof.
  intros [Hc Hlo Hna] Ht Hseg Hl.
  destruct (top_facts m t Hc Ht) as (Hs0 & Hsz & Htl & seg' & Hseg' & Hidx & Hfree).
  simplify_eq.
  pose proof (c_tracked _ Hc) as Htr. pose proof (c_ordered _ Hc) as Hord.
  pose proof (seg_erase_spec 0 t _ _ Htr ltac:(lia) Hs0
                (heap_ordered_hole _ seg_compare_negtrans _ _ 0 Hord)
                ltac:(lia)) as He.
  unfold Allocate.
  replace (size (free_memory_segments_ m) =? 0) with false by lia.
  rewrite Ht, Hseg. replace (Size seg >? Size seg) with false by lia.
  rewrite Z.eqb_refl, Hidx.
  destruct (heap_erase 0 _) as [w' h']. simpl in He.
  pose proof (erased_extents _ _ _ _ _ _ He) as Hext.
  destruct He as [Ht' Hlive _ Hidx' _ Ho' _ _].
  set (m' := mkManager h' (memory_segments_ m) w' (next_node_ m)).
  assert (Hc' : consistent m') by by apply consistent_heap_step.
  assert (Hnd : NoDup (l1 ++ t :: l2)) by (rewrite <- Hl; apply Hc).
  apply NoDup_app in Hnd as (_ & Hnd1 & [Hnd2 _]%NoDup_cons).
  assert (Hb' : blocks m' =
    (block_at m <$> l1) ++ mkBlock (left seg) (right seg) false
                        :: (block_at m <$> l2)).
  { rewrite (blocks_view _ Hc'). simpl. rewrite Hl, fmap_app, fmap_cons.
    f_equal; [|f_equal].
    - apply view_unchanged; [done|]. intros n Hn.
      destruct (same_extents_total _ _ n Hext).
      split_and!; [rewrite Hl; set_solver|done..|]. rewrite Hlive.
      assert (n <> t) by (intros ->; apply (Hnd1 t Hn); set_solver). set_solver.
    - unfold view. destruct (same_extents_total _ _ t Hext) as [-> ->].
      rewrite (lookup_total_correct _ _ _ Hseg). f_equal.
      apply bool_decide_eq_false.
      pose proof (tracked_NoDup _ _ _ Htr) as Hn. rewrite Hlive in Hn.
      by apply NoDup_cons in Hn as [? _].
    - apply view_unchanged; [done|]. intros n Hn.
      destruct (same_extents_total _ _ n Hext).
      split_and!; [rewrite Hl; set_solver|done..|]. rewrite Hlive.
      assert (n <> t) by (intros ->; done). set_solver. }
  exists m'. split; [done|]. split; [|done].
  rewrite (blocks_split m l1 t l2 Hl) in Hlo, Hna.
  assert (Hbt : block_at m t = mkBlock (left seg) (right seg) true).
  { unfold block_at, block_of. rewrite (lookup_total_correct _ _ _ Hseg).
    by rewrite Hfree. }
  rewrite Hbt in Hlo, Hna.
  split; [done|rewrite Hb'..].
  - by eapply laid_out_flag.
  - apply no_adjacent_free_middle in Hna as (? & ? & ? & ?).
    apply no_adjacent_free_middle.
    split_and!; [done|by apply pair_ok_allocated_r|by apply pair_ok_allocated_l|done].
Qed.

Lemma block_at_lookup m n seg :
  segment_of_ m !! n = Some seg ->
  block_at m n = mkBlock (left seg) (right seg) (is_free seg).
Proof. intros Hn. unfold block_at. by rewrite (lookup_total_correct _ _ _ Hn). Qed.

Lemma Allocate_split M m s t seg l1 l2 :
  invariant M m ->
  top (free_memory_segments_ m) = Some t ->
  segment_of_ m !! t = Some seg ->
  0 <= s < Size seg ->
  memory_segments_ m = l1 ++ t :: l2 ->
  exists m',
    Allocate s m = Done (Some (next_node_ m), m') /\
    invariant M m' /\
    memory_segments_ m' = l1 ++ next_node_ m :: t :: l2 /\
    next_node_ m' = S (next_node_ m) /\
    next_node_ m ∉ memory_segments_ m /\
    live (free_memory_segments_ m') ≡ₚ live (free_memory_segments_ m) /\
    blocks m' =
      (block_at m <$> l1) ++ mkBlock (left seg) (left seg + s) false
                          :: mkBlock (left seg + s) (right seg) true
                          :: (block_at m <$> l2).
Proof.
  intros [Hc Hlo Hna] Ht Hseg Hs Hl.
  destruct (top_facts m t Hc Ht) as (Hs0 & Hsz & Htl & seg' & Hseg' & Hidx & Hfree).
  simplify_eq.
  pose proof (c_tracked _ Hc) as Htr. pose proof (c_ordered _ Hc) as Hord.
  set (w := segment_of_ m) in *. set (h := free_memory_segments_ m) in *.
  set (a := next_node_ m).
  (* the geometry of the top segment *)
  rewrite (blocks_split m l1 t l2 Hl), (block_at_lookup m t seg Hseg), Hfree
    in Hlo, Hna.
  pose proof (lo_int _ _ Hlo) as Hint.
  apply Forall_app in Hint as [_ [Hint _]%Forall_cons]. simpl in Hint.
  destruct Hint as (Hl0 & Hli & Hri).
  pose proof (Size_positive seg ltac:(lia)) as Hlr.
  rewrite (Size_sorted seg Hl0 Hri Hlr) in Hs.
  (* the new node *)
  assert (Ha : a ∉ memory_segments_ m).
  { intros Hin. apply (c_fresh _ Hc) in Hin. unfold a in Hin. lia. }
  assert (Hwa : w !! a = None).
  { apply eq_None_not_Some. unfold w. by rewrite <- (c_dom _ Hc). }
  assert (Hat : a <> t) by (intros ->; done).
  assert (Haseg : MemorySegment_new (left seg)
                    (to_size_t (to_size_t (left seg) + s)) =
                  mkSegment (left seg) (left seg + s) kNullIndex).
  { unfold MemorySegment_new. f_equal; unfold is_int, to_int, to_size_t in *; lia. }
  unfold Allocate. fold w h.
  replace (size h =? 0) with false by lia.
  rewrite Ht, Hseg. replace (s >? Size seg) with false
    by (rewrite (Size_sorted seg Hl0 Hri Hlr); lia).
  replace (s =? Size seg) with false
    by (rewrite (Size_sorted seg Hl0 Hri Hlr); lia).
  cbv zeta. rewrite Haseg, Hidx. fold a. simpl (right (mkSegment _ _ _)).
  set (tseg := mkSegment (left seg + s) (right seg) 0).
  set (w2 := <[t := tseg]> (<[a := mkSegment (left seg) (left seg + s) kNullIndex]> w)).
  assert (Hw2 : forall n, n <> a -> n <> t -> w2 !! n = w !! n).
  { intros n ? ?. unfold w2. by rewrite !lookup_insert_ne. }
  assert (Hw2t : w2 !! t = Some tseg) by (unfold w2; by rewrite lookup_insert_eq).
  assert (Hw2a : w2 !! a = Some (mkSegment (left seg) (left seg + s) kNullIndex)).
  { unfold w2. rewrite lookup_insert_ne by done. by rewrite lookup_insert_eq. }
  assert (Hlive_l : forall n, n ∈ live h -> n ∈ memory_segments_ m).
  { intros n Hn. by apply (live_in_list m n Hc). }
  (* the heap still tracks its elements *)
  assert (Htr2 : seg_tracked w2 h).
  { apply (tracked_world seg_index w); [done|]. intros y. unfold seg_index.
    destruct (decide (y = t)) as [->|];
      [left; rewrite Hw2t, Hseg; simpl; by rewrite Hidx|].
    destruct (decide (y = a)) as [->|]; [|left; by rewrite Hw2].
    right. rewrite Hw2a, Hwa. split; [by left|by right]. }
  assert (Hh2 : hole_ordered MemorySegmentSizeCompare w2 h 0).
  { apply (hole_ordered_root_world _ w w2 h t); [done..| |].
    - intros x y Hx Hy Hxt Hyt. unfold MemorySegmentSizeCompare.
      rewrite !lookup_total_alt, !Hw2; try done.
      + intros ->. apply Ha. by apply Hlive_l.
      + intros ->. apply Ha. by apply Hlive_l.
    - by apply (tracked_NoDup seg_index w). }
  pose proof (seg_erase_spec 0 t w2 h Htr2 ltac:(lia) Hs0 Hh2 ltac:(lia)) as He.
  destruct (heap_erase 0 (w2, h)) as [w3 h3]. simpl in He.
  pose proof (erased_extents _ _ _ _ _ _ He) as Hext3.
  destruct He as [Ht3 Hlive3 Hsz3 Hidx3 _ Ho3 _ _].
  pose proof (seg_push_spec t w3 h3 Ht3 Hidx3
                ltac:(pose proof (tracked_size _ _ _ Htr); lia)) as Hp.
  destruct (heap_push t (w3, h3)) as [r [w4 h4]]. simpl in Hp.
  pose proof (pushed_extents _ _ _ _ _ Hp) as Hext4.
  destruct Hp as [Ht4 Hlive4 _ _ _ Ho4 _]. specialize (Ho4 Ho3).
  pose proof (same_extents_trans _ _ _ Hext3 Hext4) as Hext.
  assert (Hlive : live h4 ≡ₚ live h) by by rewrite Hlive4, Hlive3.
  set (m' := mkManager h4 (l1 ++ a :: t :: l2) w4 (S a)).
  assert (Hnd : NoDup (l1 ++ t :: l2)) by (rewrite <- Hl; apply Hc).
  assert (Hin : forall n, n ∈ l1 ++ a :: t :: l2 <-> n = a \/ n ∈ memory_segments_ m).
  { intros n. rewrite Hl. set_solver. }
  assert (Hc' : consistent m').
  { split; simpl.
    - rewrite Hl in Ha. apply NoDup_app in Hnd as (? & ? & ?).
      apply NoDup_app. split_and!; [done| |apply NoDup_cons; split; [set_solver|done]].
      intros x Hx. set_solver.
    - intros n. rewrite Hin, (same_extents_is_Some _ _ n Hext), (c_dom _ Hc).
      destruct (decide (n = a)) as [->|]; [rewrite Hw2a; naive_solver|].
      destruct (decide (n = t)) as [->|]; [rewrite Hw2t; fold w; rewrite Hseg; naive_solver|].
      rewrite Hw2 by done. naive_solver.
    - intros n [->|Hn]%Hin; [lia|]. apply (c_fresh _ Hc) in Hn. fold a in Hn. lia.
    - done.
    - done. }
  assert (Hib : insert_before t a (memory_segments_ m) = l1 ++ a :: t :: l2).
  { rewrite Hl. apply insert_before_app.
    apply NoDup_app in Hnd as (_ & Hnd1 & _). intros Hn.
    apply (Hnd1 t Hn). set_solver. }
  rewrite Hib.
  exists m'. split; [done|].
  assert (Hb' : blocks m' =
    (block_at m <$> l1) ++ mkBlock (left seg) (left seg + s) false
                        :: mkBlock (left seg + s) (right seg) true
                        :: (block_at m <$> l2)).
  { rewrite (blocks_view _ Hc'). simpl. rewrite fmap_app, !fmap_cons.
    apply NoDup_app in Hnd as (_ & Hnd1 & [Hnd2 _]%NoDup_cons).
    assert (Hrest : forall n, n ∈ memory_segments_ m -> n <> t ->
              n ∈ memory_segments_ m /\
              left (w4 !!! n) = left (w !!! n) /\
              right (w4 !!! n) = right (w !!! n) /\
              (n ∈ live h4 <-> n ∈ live h)).
    { intros n Hn Hnt. assert (n <> a) by (intros ->; done).
      destruct (same_extents_total _ _ n Hext) as [-> ->].
      rewrite !lookup_total_alt, Hw2 by done. by rewrite Hlive. }
    f_equal; [|f_equal; [|f_equal]].
    - apply view_unchanged; [done|]. intros n Hn. apply Hrest.
      + rewrite Hl. set_solver.
      + intros ->. apply (Hnd1 t Hn). set_solver.
    - unfold view. destruct (same_extents_total _ _ a Hext) as [-> ->].
      rewrite (lookup_total_correct _ _ _ Hw2a). simpl. f_equal.
      apply bool_decide_eq_false. rewrite Hlive. intros Hn. by apply Ha, Hlive_l.
    - unfold view. destruct (same_extents_total _ _ t Hext) as [-> ->].
      rewrite (lookup_total_correct _ _ _ Hw2t). simpl. f_equal.
      apply bool_decide_eq_true. rewrite Hlive. by eapply slot_live; [|done]; lia.
    - apply view_unchanged; [done|]. intros n Hn. apply Hrest.
      + rewrite Hl. set_solver.
      + intros ->. done. }
  split; [|done]. split; [done|rewrite Hb'..].
  - eapply laid_out_split; [done|simpl; lia..].
  - apply no_adjacent_free_middle in Hna as (? & ? & ? & ?).
    apply no_adjacent_free_middle.
    split_and!; [done|by apply pair_ok_allocated_r|by apply pair_ok_allocated_l|].
    by apply no_adjacent_free_cons.
Qed.

(** ** Free *)

Lemma Unite_left pseg aseg :
  left pseg = right aseg -> is_int (left aseg) -> is_int (right pseg) ->
  Unite pseg aseg = Done (mkSegment (left aseg) (right pseg) kNullIndex).
Proof.
  intros Heq Hl Hr. unfold Unite, MemorySegment_new.
  replace (left pseg =? right aseg) with true by lia.
  by rewrite !to_int_id.
Qed.

Lemma Unite_right pseg bseg :
  right pseg = left bseg ->
  left pseg <= right pseg -> left bseg <= right bseg ->
  is_int (left pseg) -> is_int (right bseg) ->
  Unite pseg bseg = Done (mkSegment (left pseg) (right bseg) kNullIndex).
Proof.
  intros Heq Hp Hb Hl Hr. unfold Unite, MemorySegment_new.
  destruct (Z.eqb_spec (left pseg) (right bseg)) as [Hlr|Hlr].
  - assert (left bseg = left pseg) as -> by lia.
    assert (right pseg = right bseg) as -> by lia. by rewrite !to_int_id.
  - replace (right pseg =? left bseg) with true by lia. by rewrite !to_int_id.
Qed.

Lemma AppendIfFree_allocated m p a aseg pseg :
  segment_of_ m !! a = Some aseg -> segment_of_ m !! p = Some pseg ->
  is_free aseg = false ->
  AppendIfFree p a m = Done m.
Proof.
  intros Ha Hp Hf. unfold AppendIfFree. rewrite Ha, Hp.
  apply is_free_false in Hf. by rewrite Hf, Z.eqb_refl.
Qed.

Lemma allocated_not_live m p :
  consistent m -> allocated m p -> p ∉ live (free_memory_segments_ m).
Proof.
  intros Hc [Hp Hi].
  apply (tracked_null_iff seg_index _ _ p (c_tracked _ Hc)); [by rewrite Hi|done].
Qed.

Lemma AppendIfFree_merge m p a aseg pseg u la lb :
  consistent m -> allocated m p -> a <> p ->
  segment_of_ m !! a = Some aseg -> is_free aseg = true ->
  segment_of_ m !! p = Some pseg ->
  memory_segments_ m = la ++ a :: lb ->
  Unite pseg aseg = Done u -> heap_index u = kNullIndex ->
  exists m1,
    AppendIfFree p a m = Done m1 /\ consistent m1 /\
    memory_segments_ m1 = la ++ lb /\
    next_node_ m1 = next_node_ m /\
    allocated m1 p /\
    block_at m1 p = mkBlock (left u) (right u) false /\
    (forall n, n ∈ la ++ lb -> n <> p -> block_at m1 n = block_at m n) /\
    live (free_memory_segments_ m) ≡ₚ a :: live (free_memory_segments_ m1) /\
    has_room m1.
Proof.
  intros Hc Hal Hap Ha Hfa Hp Hl Hu Hun.
  pose proof (c_tracked _ Hc) as Htr. pose proof (c_ordered _ Hc) as Hord.
  pose proof (allocated_not_live m p Hc Hal) as Hpl.
  destruct Hal as [Hpin Hpi].
  set (w := segment_of_ m) in *. set (h := free_memory_segments_ m) in *.
  set (w1 := <[p := u]> w).
  assert (Hw1 : forall n, n <> p -> w1 !! n = w !! n)
    by (intros; unfold w1; by rewrite lookup_insert_ne).
  assert (Hw1p : w1 !! p = Some u) by (unfold w1; by rewrite lookup_insert_eq).
  (* the slot of the neighbour *)
  apply is_free_true in Hfa as Hia.
  destruct (tracked_index _ _ _ Htr a (heap_index aseg)
              (seg_index_Some _ _ _ Ha) Hia) as [Hr Hsa].
  assert (Htr1 : seg_tracked w1 h).
  { apply (tracked_world seg_index w); [done|]. intros y. left. unfold seg_index.
    destruct (decide (y = p)) as [->|]; [|by rewrite Hw1].
    unfold seg_index in Hpi. rewrite Hw1p, Hpi. simpl. by rewrite Hun. }
  assert (Hcmp1 : forall x y, x ∈ live h -> y ∈ live h ->
            MemorySegmentSizeCompare w1 x y = MemorySegmentSizeCompare w x y).
  { intros x y Hx Hy. unfold MemorySegmentSizeCompare.
    rewrite !lookup_total_alt, !Hw1; [done|by intros ->..]. }
  assert (Hord1 : seg_ordered w1 h) by by apply (heap_ordered_world _ w).
  pose proof (seg_erase_spec (heap_index aseg) a w1 h Htr1 Hr Hsa
                (heap_ordered_hole _ seg_compare_negtrans _ _ _ Hord1)
                ltac:(intros; apply Hord1; lia)) as He.
  unfold AppendIfFree. fold w h. rewrite Ha, Hp.
  replace (heap_index aseg =? kNullIndex) with false by lia.
  rewrite Hu. simpl. fold w1.
  rewrite (lookup_total_correct w1 a aseg) by (by rewrite Hw1).
  destruct (heap_erase (heap_index aseg) (w1, h)) as [w2 h2]. simpl in He.
  pose proof (erased_extents _ _ _ _ _ _ He) as Hext.
  destruct He as [Ht2 Hlive2 Hsz2 Hidx2 _ Ho2 _ _].
  assert (Hal2 : a ∉ live h2).
  { pose proof (tracked_NoDup _ _ _ Htr) as Hn. rewrite Hlive2 in Hn.
    by apply NoDup_cons in Hn as [? _]. }
  set (w3 := delete a w2).
  assert (Hw3 : forall n, n <> a -> w3 !! n = w2 !! n)
    by (intros; unfold w3; by rewrite lookup_delete_ne).
  assert (Hw3a : w3 !! a = None) by (unfold w3; by rewrite lookup_delete_eq).
  assert (Ht3 : seg_tracked w3 h2).
  { apply (tracked_world seg_index w2); [done|]. intros y. unfold seg_index.
    destruct (decide (y = a)) as [->|]; [|left; by rewrite Hw3].
    right. unfold seg_index in Hidx2. rewrite Hw3a, Hidx2.
    split; [by right|by left]. }
  assert (Ho3 : seg_ordered w3 h2).
  { apply (heap_ordered_world _ w2); [done|]. intros x y Hx Hy.
    unfold MemorySegmentSizeCompare.
    rewrite !lookup_total_alt, !Hw3; [done|by intros ->..]. }
  set (m1 := mkManager h2 (unlink a (memory_segments_ m)) w3 (next_node_ m)).
  assert (Hnd : NoDup (la ++ a :: lb)) by (rewrite <- Hl; apply Hc).
  assert (Hala : a ∉ la /\ a ∉ lb).
  { apply NoDup_app in Hnd as (_ & Hnd1 & [Hnd2 _]%NoDup_cons).
    split; [|done]. intros Hn. apply (Hnd1 a Hn). set_solver. }
  assert (Hul : unlink a (memory_segments_ m) = la ++ lb).
  { rewrite Hl. apply unlink_app. apply Hala. }
  assert (Hin : forall n, n ∈ la ++ lb <-> n ∈ memory_segments_ m /\ n <> a).
  { intros n. rewrite Hl. destruct Hala. set_solver. }
  assert (Hsome : forall n, n <> a -> is_Some (w3 !! n) <-> is_Some (w !! n)).
  { intros n Hn. rewrite Hw3 by done. rewrite (same_extents_is_Some _ _ n Hext).
    destruct (decide (n = p)) as [->|]; [|by rewrite Hw1].
    rewrite Hw1p. fold w in Hp. rewrite Hp. split; by eexists. }
  assert (Hc1 : consistent m1).
  { split; simpl; rewrite ?Hul.
    - apply NoDup_app in Hnd as (? & ? & [? ?]%NoDup_cons).
      apply NoDup_app. split_and!; [done| |done]. set_solver.
    - intros n. rewrite Hin. destruct (decide (n = a)) as [->|Hna].
      + rewrite Hw3a. split; [naive_solver|by intros []].
      + rewrite (Hsome n Hna), (c_dom _ Hc). naive_solver.
    - intros n [Hn _]%Hin. by apply (c_fresh _ Hc).
    - done.
    - done. }
  exists m1. split; [done|]. split; [done|]. split; [done|]. split; [done|].
  assert (Hpl2 : p ∉ live h2).
  { intros Hn. apply Hpl. rewrite Hlive2. set_solver. }
  assert (Hp3 : exists pseg', w3 !! p = Some pseg' /\
            left pseg' = left u /\ right pseg' = right u /\
            heap_index pseg' = kNullIndex).
  { destruct (Hsome p ltac:(done)) as [_ [pseg' Hp']]; [by rewrite Hp|].
    exists pseg'. split; [done|].
    pose proof (Hext p) as Hep. unfold extent_of in Hep.
    rewrite <- (Hw3 p) in Hep by done. rewrite Hp', Hw1p in Hep.
    simpl in Hep. split; [congruence|]. split; [congruence|].
    apply is_free_false. destruct (is_free pseg') eqn:Hf; [|done].
    exfalso. apply Hpl2. by apply (free_iff_live w3 h2 p pseg'). }
  destruct Hp3 as (pseg' & Hp3 & Hpl' & Hpr' & Hpi').
  split; [|split; [|split]].
  - split; simpl; [rewrite Hul; apply Hin; by split|].
    unfold seg_index. by rewrite Hp3, <- Hpi'.
  - rewrite (block_at_lookup m1 p pseg' Hp3). f_equal; [done..|].
    by apply is_free_false.
  - intros n Hn Hnp. apply Hin in Hn as [Hn Hna].
    unfold block_at. simpl.
    rewrite (block_of_view w3 h2), (block_of_view w h); [|done|by apply (c_dom _ Hc)|done|].
    2:{ apply (Hsome n Hna). by apply (c_dom _ Hc). }
    apply view_ext.
    + rewrite !lookup_total_alt, Hw3 by done.
      destruct (same_extents_total _ _ n Hext) as [E _].
      rewrite !lookup_total_alt in E. rewrite E. by rewrite Hw1.
    + rewrite !lookup_total_alt, Hw3 by done.
      destruct (same_extents_total _ _ n Hext) as [_ E].
      rewrite !lookup_total_alt in E. rewrite E. by rewrite Hw1.
    + rewrite Hlive2. set_solver.
  - split; [done|]. unfold has_room. simpl.
    pose proof (tracked_size _ _ _ Htr). lia.
Qed.

Lemma invariant_lookup M m n :
  invariant M m -> n ∈ memory_segments_ m ->
  exists seg, segment_of_ m !! n = Some seg /\
    block_at m n = mkBlock (left seg) (right seg) (is_free seg).
Proof.
  intros Hi Hn. apply (c_dom _ (inv_consistent _ _ Hi)) in Hn as [seg Hseg].
  exists seg. split; [done|]. by apply block_at_lookup.
Qed.

Lemma AppendIfFree_left_free M m p a l1 l2 :
  invariant M m -> allocated m p ->
  memory_segments_ m = l1 ++ a :: p :: l2 ->
  block_free (block_at m a) = true ->
  exists m1,
    AppendIfFree p a m = Done m1 /\ invariant M m1 /\ allocated m1 p /\
    next_node_ m1 = next_node_ m /\
    memory_segments_ m1 = l1 ++ p :: l2 /\
    block_at m1 p =
      mkBlock (block_left (block_at m a)) (block_right (block_at m p)) false /\
    (forall n, n ∈ l1 ++ l2 -> block_at m1 n = block_at m n) /\
    not_free (last (block_at m <$> l1)) /\
    has_room m1.
Proof.
  intros Hinv Hal Hl Hfa. pose proof Hinv as [Hc Hlo Hna].
  destruct (invariant_lookup M m a Hinv) as (aseg & Ha & Hba); [rewrite Hl; set_solver|].
  destruct (invariant_lookup M m p Hinv) as (pseg & Hp & Hbp); [rewrite Hl; set_solver|].
  rewrite Hba in Hfa. simpl in Hfa.
  assert (Hnd : NoDup (l1 ++ a :: p :: l2)) by (rewrite <- Hl; apply Hc).
  apply NoDup_app in Hnd as (Hnd1 & Hnd12 & [Hnda [Hndp Hnd2]%NoDup_cons]%NoDup_cons).
  assert (Hap : a <> p) by set_solver.
  rewrite (blocks_split m l1 a (p :: l2) Hl), fmap_cons in Hlo, Hna.
  set (B1 := block_at m <$> l1) in *. set (B2 := block_at m <$> l2) in *.
  pose proof (lo_spans _ _ Hlo) as Hsp.
  apply spans_middle in Hsp as [_ [Hmid _]]. rewrite Hba, Hbp in Hmid. simpl in Hmid.
  pose proof (lo_int _ _ Hlo) as Hint.
  apply Forall_app in Hint as [_ [Hia [Hip _]%Forall_cons]%Forall_cons].
  rewrite Hba in Hia. rewrite Hbp in Hip. simpl in Hia, Hip.
  destruct (AppendIfFree_merge m p a aseg pseg
              (mkSegment (left aseg) (right pseg) kNullIndex) l1 (p :: l2))
    as (m1 & Hm1 & Hc1 & Hl1 & Hn1 & Hal1 & Hbp1 & Hrest & Hlive & Hroom);
    [done..|apply Unite_left; naive_solver|done|].
  simpl in Hbp1.
  assert (Hrest' : forall n, n ∈ l1 ++ l2 -> block_at m1 n = block_at m n).
  { intros n Hn. apply Hrest; [set_solver|]. intros ->.
    apply elem_of_app in Hn as [Hn|Hn]; [|done]. apply (Hnd12 p Hn). set_solver. }
  assert (Hb1 : blocks m1 =
            B1 ++ mkBlock (left aseg) (right pseg) false :: B2).
  { apply (blocks_split m1 l1 p l2) in Hl1 as ->. rewrite Hbp1.
    f_equal; [|f_equal]; apply list_fmap_ext; intros i n Hn;
      apply Hrest', elem_of_app; [left|right]; by eapply list_elem_of_lookup_2. }
  apply no_adjacent_free_middle in Hna as (Hna1 & Hpa & _ & Hna2).
  apply no_adjacent_free_cons in Hna2 as [_ Hna2].
  exists m1. split; [done|]. split; [|split; [done|]].
  { split; [done|rewrite Hb1..].
    - eapply laid_out_merge; [exact Hlo|by rewrite Hba|by rewrite Hbp].
    - apply no_adjacent_free_middle.
      split_and!; [done|by apply pair_ok_allocated_r|by apply pair_ok_allocated_l|done]. }
  split; [done|]. split; [done|]. split; [by rewrite Hba, Hbp|]. split; [done|].
  split; [|done]. rewrite Hba in Hpa. by apply pair_ok_free_r in Hpa.
Qed.

Lemma AppendIfFree_right_free M m p b l1 l2 :
  invariant M m -> allocated m p ->
  memory_segments_ m = l1 ++ p :: b :: l2 ->
  block_free (block_at m b) = true ->
  exists m1,
    AppendIfFree p b m = Done m1 /\ invariant M m1 /\ allocated m1 p /\
    next_node_ m1 = next_node_ m /\
    memory_segments_ m1 = l1 ++ p :: l2 /\
    block_at m1 p =
      mkBlock (block_left (block_at m p)) (block_right (block_at m b)) false /\
    (forall n, n ∈ l1 ++ l2 -> block_at m1 n = block_at m n) /\
    not_free (head (block_at m <$> l2)) /\
    has_room m1.
Proof.
  intros Hinv Hal Hl Hfb. pose proof Hinv as [Hc Hlo Hna].
  destruct (invariant_lookup M m b Hinv) as (bseg & Hb & Hbb); [rewrite Hl; set_solver|].
  destruct (invariant_lookup M m p Hinv) as (pseg & Hp & Hbp); [rewrite Hl; set_solver|].
  rewrite Hbb in Hfb. simpl in Hfb.
  assert (Hnd : NoDup (l1 ++ p :: b :: l2)) by (rewrite <- Hl; apply Hc).
  apply NoDup_app in Hnd as (Hnd1 & Hnd12 & [Hndp [Hndb Hnd2]%NoDup_cons]%NoDup_cons).
  assert (Hbp' : b <> p) by set_solver.
  rewrite (blocks_split m l1 p (b :: l2) Hl), fmap_cons in Hlo, Hna.
  set (B1 := block_at m <$> l1) in *. set (B2 := block_at m <$> l2) in *.
  pose proof (lo_spans _ _ Hlo) as Hsp.
  apply spans_middle in Hsp as [_ [Hmid _]]. rewrite Hbb, Hbp in Hmid. simpl in Hmid.
  pose proof (lo_int _ _ Hlo) as Hint.
  apply Forall_app in Hint as [_ [Hip [Hib _]%Forall_cons]%Forall_cons].
  pose proof (lo_sorted _ _ Hlo ltac:(rewrite length_app; simpl; lia)) as Hso.
  apply Forall_app in Hso as [_ [Hsp' [Hsb _]%Forall_cons]%Forall_cons].
  rewrite Hbb in Hib, Hsb. rewrite Hbp in Hip, Hsp'. simpl in Hib, Hip, Hsb, Hsp'.
  assert (Hl' : memory_segments_ m = (l1 ++ [p]) ++ b :: l2)
    by (by rewrite Hl, <- app_assoc).
  destruct (AppendIfFree_merge m p b bseg pseg
              (mkSegment (left pseg) (right bseg) kNullIndex) (l1 ++ [p]) l2)
    as (m1 & Hm1 & Hc1 & Hl1 & Hn1 & Hal1 & Hbp1 & Hrest & Hlive & Hroom);
    [done..|apply Unite_right; naive_solver|done|].
  simpl in Hbp1. rewrite <- app_assoc in Hl1. simpl in Hl1.
  assert (Hrest' : forall n, n ∈ l1 ++ l2 -> block_at m1 n = block_at m n).
  { intros n Hn. apply Hrest; [set_solver|]. intros ->.
    apply elem_of_app in Hn as [Hn|Hn]; [|set_solver]. apply (Hnd12 p Hn). set_solver. }
  assert (Hb1 : blocks m1 =
            B1 ++ mkBlock (left pseg) (right bseg) false :: B2).
  { apply (blocks_split m1 l1 p l2) in Hl1 as ->. rewrite Hbp1.
    f_equal; [|f_equal]; apply list_fmap_ext; intros i n Hn;
      apply Hrest', elem_of_app; [left|right]; by eapply list_elem_of_lookup_2. }
  apply no_adjacent_free_middle in Hna as (Hna1 & _ & _ & Hna2).
  apply no_adjacent_free_cons in Hna2 as [Hpb Hna2].
  exists m1. split; [done|]. split; [|split; [done|]].
  { split; [done|rewrite Hb1..].
    - eapply laid_out_merge; [exact Hlo|by rewrite Hbp|by rewrite Hbb].
    - apply no_adjacent_free_middle.
      split_and!; [done|by apply pair_ok_allocated_r|by apply pair_ok_allocated_l|done]. }
  split; [done|]. split; [done|]. split; [by rewrite Hbb, Hbp|]. split; [done|].
  split; [|done]. rewrite Hbb in Hpb. by apply pair_ok_free_l in Hpb.
Qed.

(** The last step of [Free]: the segment goes onto the heap. *)
Lemma Free_push M m p l1 l2 :
  invariant M m -> allocated m p -> has_room m ->
  memory_segments_ m = l1 ++ p :: l2 ->
  not_free (last (block_at m <$> l1)) ->
  not_free (head (block_at m <$> l2)) ->
  exists m',
    (let '(_, (w, h)) :=
       heap_push p (segment_of_ m, free_memory_segments_ m) in
     Done {| free_memory_segments_ := h;
             memory_segments_ := memory_segments_ m;
             segment_of_ := w;
             next_node_ := next_node_ m |}) = Done m' /\
    invariant M m' /\
    memory_segments_ m' = memory_segments_ m /\
    next_node_ m' = next_node_ m /\
    block_at m' p =
      mkBlock (block_left (block_at m p)) (block_right (block_at m p)) true /\
    (forall n, n ∈ l1 ++ l2 -> block_at m' n = block_at m n).
Proof.
  intros Hinv Hal Hsz Hl Hleft Hright. pose proof Hinv as [Hc Hlo Hna].
  pose proof (allocated_not_live m p Hc Hal) as Hpl.
  destruct (invariant_lookup M m p Hinv) as (pseg & Hp & Hbp); [apply Hal|].
  pose proof (seg_push_spec p _ _ (c_tracked _ Hc) (proj2 Hal) Hsz) as Hpush.
  destruct (heap_push p _) as [r [w' h']]. simpl in Hpush.
  pose proof (pushed_extents _ _ _ _ _ Hpush) as Hext.
  destruct Hpush as [Ht' Hlive _ _ _ Ho' _]. specialize (Ho' (c_ordered _ Hc)).
  set (m' := mkManager h' (memory_segments_ m) w' (next_node_ m)).
  assert (Hc' : consistent m') by by apply consistent_heap_step.
  assert (Hnd : NoDup (l1 ++ p :: l2)) by (rewrite <- Hl; apply Hc).
  apply NoDup_app in Hnd as (_ & Hnd1 & [Hnd2 _]%NoDup_cons).
  assert (Hbp' : block_at m' p = mkBlock (left pseg) (right pseg) true).
  { unfold block_at. simpl. rewrite (block_of_view w' h'); [|done|].
    2:{ apply (same_extents_is_Some _ _ p Hext). by rewrite Hp. }
    unfold view. destruct (same_extents_total _ _ p Hext) as [-> ->].
    rewrite (lookup_total_correct _ _ _ Hp). f_equal.
    apply bool_decide_eq_true. rewrite Hlive. set_solver. }
  assert (Hrest : forall n, n ∈ l1 ++ l2 -> block_at m' n = block_at m n).
  { intros n Hn.
    assert (n <> p).
    { intros ->. apply elem_of_app in Hn as [Hn|Hn]; [|done].
      apply (Hnd1 p Hn). set_solver. }
    assert (n ∈ memory_segments_ m) as Hnl by (rewrite Hl; set_solver).
    unfold block_at. simpl.
    rewrite (block_of_view w' h'), (block_of_view _ (free_memory_segments_ m));
      [|apply Hc|by apply (c_dom _ Hc)|done|].
    2:{ apply (same_extents_is_Some _ _ n Hext). by apply (c_dom _ Hc). }
    destruct (same_extents_total _ _ n Hext).
    apply view_ext; [done..|]. rewrite Hlive. set_solver. }
  assert (Hb' : blocks m' =
            (block_at m <$> l1) ++ mkBlock (left pseg) (right pseg) true
                                :: (block_at m <$> l2)).
  { rewrite (blocks_split m' l1 p l2 Hl), Hbp'.
    f_equal; [|f_equal]; apply list_fmap_ext; intros i n Hn;
      apply Hrest, elem_of_app; [left|right]; by eapply list_elem_of_lookup_2. }
  exists m'. split; [done|]. split; [|by rewrite Hbp].
  rewrite (blocks_split m l1 p l2 Hl), Hbp in Hlo, Hna.
  split; [done|rewrite Hb'..].
  - by eapply laid_out_flag.
  - apply no_adjacent_free_middle in Hna as (? & ? & ? & ?).
    apply no_adjacent_free_middle.
    split_and!; [done|by apply pair_ok_free_r|by apply pair_ok_free_l|done].
Qed.

(** The first step of [Free]: the left neighbour, if free, is merged. *)
Lemma Free_left_step M m p l1 l2 :
  invariant M m -> allocated m p ->
  memory_segments_ m = l1 ++ p :: l2 ->
  exists m1 l1',
    match last l1 with
    | Some a => AppendIfFree p a m
    | None => Done m
    end = Done m1 /\
    invariant M m1 /\ allocated m1 p /\ next_node_ m1 = next_node_ m /\
    memory_segments_ m1 = l1' ++ p :: l2 /\
    (forall n, n ∈ l1' ++ l2 -> block_at m1 n = block_at m n) /\
    not_free (last (block_at m <$> l1')) /\
    block_right (block_at m1 p) = block_right (block_at m p) /\
    block_free (block_at m1 p) = false /\
    (l1' = l1 /\ m1 = m /\ not_free (last (block_at m <$> l1)) \/
     exists a, l1 = l1' ++ [a] /\ block_free (block_at m a) = true /\
               block_left (block_at m1 p) = block_left (block_at m a) /\
               has_room m1).
Proof.
  intros Hinv Hal Hl.
  destruct (invariant_lookup M m p Hinv) as (pseg & Hp & Hbp); [apply Hal|].
  assert (Hpf : block_free (block_at m p) = false).
  { rewrite Hbp. simpl. apply is_free_false. destruct Hal as [_ Hi].
    unfold seg_index in Hi. rewrite Hp in Hi. by simplify_eq/=. }
  destruct (last l1) as [a|] eqn:Hlast.
  - apply last_Some in Hlast as [l1' ->].
    rewrite <- app_assoc in Hl. simpl in Hl.
    destruct (invariant_lookup M m a Hinv) as (aseg & Ha & Hba);
      [rewrite Hl; set_solver|].
    destruct (block_free (block_at m a)) eqn:Hfa.
    + destruct (AppendIfFree_left_free M m p a l1' l2 Hinv Hal Hl Hfa)
        as (m1 & Hm1 & Hinv1 & Hal1 & Hn1 & Hl1 & Hbp1 & Hrest & Hnf & Hroom).
      exists m1, l1'. rewrite Hbp1. simpl.
      split_and!; try done. right. by exists a.
    + exists m, (l1' ++ [a]). rewrite <- app_assoc.
      change ([a] ++ p :: l2) with (a :: p :: l2).
      rewrite Hba in Hfa. simpl in Hfa.
      rewrite (AppendIfFree_allocated m p a aseg pseg Ha Hp Hfa).
      assert (not_free (last (block_at m <$> l1' ++ [a]))) as Hnf.
      { rewrite fmap_app. change (block_at m <$> [a]) with [block_at m a].
        rewrite last_snoc. intros ? [= <-]. by rewrite Hba. }
      split_and!; try done. by left.
  - apply last_None in Hlast as ->.
    exists m, []. split_and!; try done. left. done.
Qed.

(** The second step of [Free]: the right neighbour, if free, is merged. *)
Lemma Free_right_step M m p l1 l2 :
  invariant M m -> allocated m p ->
  memory_segments_ m = l1 ++ p :: l2 ->
  exists m1 l2',
    match head l2 with
    | Some b => AppendIfFree p b m
    | None => Done m
    end = Done m1 /\
    invariant M m1 /\ allocated m1 p /\ next_node_ m1 = next_node_ m /\
    memory_segments_ m1 = l1 ++ p :: l2' /\
    (forall n, n ∈ l1 ++ l2' -> block_at m1 n = block_at m n) /\
    not_free (head (block_at m <$> l2')) /\
    block_left (block_at m1 p) = block_left (block_at m p) /\
    block_free (block_at m1 p) = false /\
    (l2' = l2 /\ m1 = m /\ not_free (head (block_at m <$> l2)) \/
     exists b, l2 = b :: l2' /\ block_free (block_at m b) = true /\
               block_right (block_at m1 p) = block_right (block_at m b) /\
               has_room m1).
Proof.
  intros Hinv Hal Hl.
  destruct (invariant_lookup M m p Hinv) as (pseg & Hp & Hbp); [apply Hal|].
  assert (Hpf : block_free (block_at m p) = false).
  { rewrite Hbp. simpl. apply is_free_false. destruct Hal as [_ Hi].
    unfold seg_index in Hi. rewrite Hp in Hi. by simplify_eq/=. }
  destruct l2 as [|b l2']; cbn [head].
  - exists m, []. split_and!; try done. left. done.
  - destruct (invariant_lookup M m b Hinv) as (bseg & Hb & Hbb);
      [rewrite Hl; set_solver|].
    destruct (block_free (block_at m b)) eqn:Hfb.
    + destruct (AppendIfFree_right_free M m p b l1 l2' Hinv Hal Hl Hfb)
        as (m1 & Hm1 & Hinv1 & Hal1 & Hn1 & Hl1 & Hbp1 & Hrest & Hnf & Hroom).
      exists m1, l2'. rewrite Hbp1. simpl.
      split_and!; try done. right. by exists b.
    + exists m, (b :: l2').
      rewrite Hbb in Hfb. simpl in Hfb.
      rewrite (AppendIfFree_allocated m p b bseg pseg Hb Hp Hfb).
      assert (not_free (head (block_at m <$> b :: l2'))) as Hnf.
      { simpl. intros ? [= <-]. by rewrite Hbb. }
      split_and!; try done. left. done.
Qed.

Lemma fmap_block_at_ext m m' (l : list node) :
  (forall n, n ∈ l -> block_at m' n = block_at m n) ->
  block_at m' <$> l = block_at m <$> l.
Proof.
  intros Hl. apply list_fmap_ext. intros i n Hn.
  apply Hl. by eapply list_elem_of_lookup_2.
Qed.

(** [Free] on an allocated segment at [l1 ++ p :: l2]: what it returns, and
    what became of the segment and of its two neighbours. *)
Lemma Free_spec M m p l1 l2 :
  invariant M m -> allocated m p ->
  memory_segments_ m = l1 ++ p :: l2 ->
  (not_free (last (block_at m <$> l1)) ->
   not_free (head (block_at m <$> l2)) -> has_room m) ->
  exists m' l1' l2',
    Free p m = Done m' /\ invariant M m' /\
    next_node_ m' = next_node_ m /\
    memory_segments_ m' = l1' ++ p :: l2' /\
    block_free (block_at m' p) = true /\
    (forall n, n ∈ l1' ++ l2' -> block_at m' n = block_at m n) /\
    (l1' = l1 /\ not_free (last (block_at m <$> l1)) /\
       block_left (block_at m' p) = block_left (block_at m p) \/
     exists a, l1 = l1' ++ [a] /\ block_free (block_at m a) = true /\
               block_left (block_at m' p) = block_left (block_at m a)) /\
    (l2' = l2 /\ not_free (head (block_at m <$> l2)) /\
       block_right (block_at m' p) = block_right (block_at m p) \/
     exists b, l2 = b :: l2' /\ block_free (block_at m b) = true /\
               block_right (block_at m' p) = block_right (block_at m b)).
Proof.
  intros Hinv Hal Hl Hroom. pose proof (inv_consistent _ _ Hinv) as Hc.
  destruct (invariant_lookup M m p Hinv) as (pseg & Hp & Hbp); [apply Hal|].
  assert (Hnd : NoDup (l1 ++ p :: l2)) by (rewrite <- Hl; apply Hc).
  apply NoDup_app in Hnd as (_ & Hnd1 & [Hnd2 _]%NoDup_cons).
  assert (Hp1 : p ∉ l1) by (intros Hn; apply (Hnd1 p Hn); set_solver).
  unfold Free. rewrite Hp. cbv zeta.
  rewrite Hl, (prev_of_app p l1 l2 Hp1 Hnd2), (next_of_app p l1 l2 Hp1).
  destruct (Free_left_step M m p l1 l2 Hinv Hal Hl)
    as (m1 & l1' & -> & Hinv1 & Hal1 & Hn1 & Hl1 & Hrest1 & Hnf1 & Hr1 & Hf1 & Hleft).
  change (Done m1 ≫= ?f) with (f m1). cbv beta.
  destruct (Free_right_step M m1 p l1' l2 Hinv1 Hal1 Hl1)
    as (m2 & l2' & -> & Hinv2 & Hal2 & Hn2 & Hl2 & Hrest2 & Hnf2 & Hr2 & Hf2 & Hright).
  change (Done m2 ≫= ?f) with (f m2). cbv beta.
  assert (Hrest12 : forall n, n ∈ l1' ++ l2' -> block_at m2 n = block_at m n).
  { intros n Hn. rewrite (Hrest2 n Hn). apply Hrest1.
    destruct Hright as [(-> & _)|(b & -> & _)]; set_solver. }
  assert (Hroom2 : has_room m2).
  { destruct Hright as [(-> & -> & Hnfr)|(b & _ & _ & _ & ?)]; [|done].
    destruct Hleft as [(-> & -> & Hnfl)|(a & _ & _ & _ & ?)]; [|done].
    by apply Hroom. }
  destruct (Free_push M m2 p l1' l2' Hinv2 Hal2 Hroom2 Hl2)
    as (m3 & -> & Hinv3 & Hl3 & Hn3 & Hbp3 & Hrest3).
  { rewrite (fmap_block_at_ext m m2); [done|]. intros n Hn. apply Hrest12. set_solver. }
  { rewrite (fmap_block_at_ext m1 m2); [done|]. intros n Hn. apply Hrest2. set_solver. }
  exists m3, l1', l2'. split; [done|]. split; [done|].
  split; [congruence|]. split; [congruence|].
  split; [by rewrite Hbp3|].
  split; [intros n Hn; rewrite (Hrest3 n Hn); by apply Hrest12|].
  rewrite Hbp3. cbn [block_left block_right]. split.
  - rewrite Hr2. destruct Hleft as [(-> & -> & ?)|(a & -> & ? & ? & _)]; [by left|].
    right. by exists a.
  - destruct Hright as [(-> & -> & Hnf)|(b & -> & Hfb & Hrb & _)].
    + left. split; [done|]. split; [|done].
      rewrite <- (fmap_block_at_ext m m1); [done|].
      intros n Hn. apply Hrest1. set_solver.
    + right. exists b. rewrite <- (Hrest1 b) by set_solver. done.
Qed.

(** ** The outcomes of Allocate *)

(** [Allocate] on a state that satisfies the invariant: the heap is empty and
    it fails; or the top segment is too small and it fails; or the top segment
    fits exactly and is handed out; or it is larger and is split. *)
Lemma Allocate_cases M m s :
  invariant M m -> is_size_t s ->
  size (free_memory_segments_ m) = 0 /\ Allocate s m = Done (None, m) \/
  exists t seg l1 l2,
    top (free_memory_segments_ m) = Some t /\
    segment_of_ m !! t = Some seg /\
    is_free seg = true /\
    memory_segments_ m = l1 ++ t :: l2 /\
    (Size seg < s /\ Allocate s m = Done (None, m) \/
     s = Size seg /\
       (exists m',
          Allocate s m = Done (Some t, m') /\ invariant M m' /\
          memory_segments_ m' = memory_segments_ m /\
          next_node_ m' = next_node_ m /\
          same_extents (segment_of_ m) (segment_of_ m') /\
          live (free_memory_segments_ m)
            ≡ₚ t :: live (free_memory_segments_ m') /\
          blocks m' =
            (block_at m <$> l1) ++ mkBlock (left seg) (right seg) false
                                :: (block_at m <$> l2)) \/
     s < Size seg /\
       (exists m',
          Allocate s m = Done (Some (next_node_ m), m') /\ invariant M m' /\
          memory_segments_ m' = l1 ++ next_node_ m :: t :: l2 /\
          next_node_ m' = S (next_node_ m) /\
          next_node_ m ∉ memory_segments_ m /\
          live (free_memory_segments_ m')
            ≡ₚ live (free_memory_segments_ m) /\
          blocks m' =
            (block_at m <$> l1) ++ mkBlock (left seg) (left seg + s) false
                                :: mkBlock (left seg + s) (right seg) true
                                :: (block_at m <$> l2))).
Proof.
  intros Hinv Hs. pose proof (inv_consistent _ _ Hinv) as Hc.
  destruct (decide (size (free_memory_segments_ m) = 0)) as [H0|H0].
  { left. split; [done|]. unfold Allocate. by rewrite H0. }
  right. destruct (heap_nonempty_top m Hc H0) as [t Ht].
  destruct (top_facts m t Hc Ht) as (_ & _ & Htl & seg & Hseg & _ & Hfree).
  destruct (list_elem_of_split _ _ Htl) as (l1 & l2 & Hl).
  exists t, seg, l1, l2. split_and!; try done.
  destruct (Z.lt_trichotomy s (Size seg)) as [Hlt|[Heq|Hgt]].
  - right. right. split; [done|].
    apply (Allocate_split M m s t seg l1 l2); try done.
    unfold is_size_t in Hs. lia.
  - right. left. split; [done|]. subst s.
    by apply (Allocate_exact M m t seg l1 l2).
  - left. split; [done|]. unfold Allocate.
    replace (size (free_memory_segments_ m) =? 0) with false by lia.
    rewrite Ht, Hseg. by replace (s >? Size seg) with true by lia.
Qed.

Lemma Allocate_invariant M m s it m' :
  invariant M m -> is_size_t s -> Allocate s m = Done (it, m') ->
  invariant M m'.
Proof.
  intros Hinv Hs Ha.
  destruct (Allocate_cases M m s Hinv Hs)
    as [[_ E]|(t & seg & l1 & l2 & _ & _ & _ & _ &
               [[_ E]|[[_ (m1 & E & ? & _)]|[_ (m1 & E & ? & _)]]])];
    rewrite E in Ha; by simplify_eq.
Qed.

Lemma Free_invariant M m p m' :
  invariant M m -> allocated m p -> has_room m -> Free p m = Done m' ->
  invariant M m'.
Proof.
  intros Hinv Hal Hroom Hf.
  destruct (list_elem_of_split _ _ (proj1 Hal)) as (l1 & l2 & Hl).
  destruct (Free_spec M m p l1 l2 Hinv Hal Hl ltac:(done))
    as (m1 & _ & _ & E & ? & _).
  rewrite E in Hf. by simplify_eq.
Qed.

(** Every reachable state satisfies the invariant. *)
Lemma reachable_invariant M m : reachable M m -> invariant M m.
Proof.
  induction 1 as [|m s it m' _ IH Hs Ha|m p m' _ IH Hal Hroom Hf].
  - apply MemoryManager_new_invariant.
  - by eapply Allocate_invariant.
  - by eapply Free_invariant.
Qed.

(** ** Reading the blocks of a state off its sequence *)

Lemma blocks_inj_1 m (l1 : list node) x (l2 : list node) (B1 : list block) b B2 :
  memory_segments_ m = l1 ++ x :: l2 ->
  blocks m = B1 ++ b :: B2 ->
  length B1 = length l1 ->
  block_at m <$> l1 = B1 /\ block_at m x = b /\ block_at m <$> l2 = B2.
Proof.
  intros Hl Hb Hlen. rewrite (blocks_split m l1 x l2 Hl) in Hb.
  apply app_inj_1 in Hb as [? Hb]; [|by rewrite length_fmap].
  by simplify_eq.
Qed.

Lemma block_at_allocated m p :
  consistent m -> p ∈ memory_segments_ m ->
  block_free (block_at m p) = false -> allocated m p.
Proof.
  intros Hc Hp Hf. split; [done|].
  apply (c_dom _ Hc) in Hp as [seg Hseg].
  rewrite (block_at_lookup m p seg Hseg) in Hf. simpl in Hf.
  apply is_free_false in Hf. unfold seg_index. by rewrite Hseg, <- Hf.
Qed.

Lemma free_segment_block m n seg :
  free_segment m n seg -> block_at m n = mkBlock (left seg) (right seg) true.
Proof. intros (_ & Hn & Hf). by rewrite (block_at_lookup m n seg Hn), Hf. Qed.

Lemma empty_heap_no_free m n seg :
  consistent m -> size (free_memory_segments_ m) = 0 -> ~ free_segment m n seg.
Proof.
  intros Hc Hsz Hn. apply (free_segment_live m n seg Hc) in Hn.
  apply live_slot in Hn as (k & Hk & _). lia.
Qed.

(** [Allocate] returns on every state that satisfies the invariant, and it
    returns a handle exactly when some free segment is large enough. *)
Lemma Allocate_success M m s :
  invariant M m -> is_size_t s ->
  exists it m',
    Allocate s m = Done (it, m') /\
    (is_Some it <-> exists n seg, free_segment m n seg /\ s <= Size seg) /\
    (size (free_memory_segments_ m) = 0 -> it = None).
Proof.
  intros Hinv Hs. pose proof (inv_consistent _ _ Hinv) as Hc.
  destruct (Allocate_cases M m s Hinv Hs)
    as [[H0 E]|(t & seg & l1 & l2 & Ht & Hseg & Hfree & Hl & Hcase)].
  { exists None, m. split; [done|]. split; [|done]. split; [by intros []|].
    intros (n & g & Hn & _). by destruct (empty_heap_no_free m n g Hc H0). }
  assert (Hft : free_segment m t seg).
  { split; [rewrite Hl; set_solver|done]. }
  assert (Hne : size (free_memory_segments_ m) <> 0).
  { apply top_slot in Ht. lia. }
  destruct Hcase as [[Hlt E]|[[-> (m' & E & _)]|[Hlt (m' & E & _)]]].
  - exists None, m. split; [done|]. split; [|done]. split; [by intros []|].
    intros (n & g & Hn & Hle).
    destruct (top_largest m t seg n g Hc Ht Hseg Hn). lia.
  - exists (Some t), m'. split; [done|]. split; [|done].
    split; [|by eexists]. intros _. exists t, seg. split; [done|lia].
  - exists (Some (next_node_ m)), m'. split; [done|]. split; [|done].
    split; [|by eexists]. intros _. exists t, seg. split; [done|lia].
Qed.

(** * The properties the specification states *)



Lemma Allocate_None_unchanged s m m' :
  Allocate s m = Done (None, m') -> m' = m.
Proof.
  unfold Allocate. repeat case_match; intros; simplify_eq; done.
Qed.

Lemma Allocate_never_throws s m e : Allocate s m <> Thrown e.
Proof. unfold Allocate. repeat case_match; done. Qed.

(** C9. For every reachable state and every size, [Allocate] returns (it
    neither throws nor leaves defined behaviour), and when it returns the null
    handle the state it returns is the state it was given: the same segment
    sequence, the same heap, the same [heap_index] in every node. It returns
    the null handle exactly when the free heap is empty or every free segment
    is smaller than the request. *)
Theorem Allocate_failure_leaves_state M m s :
  reachable M m -> is_size_t s ->
  exists it m',
    Allocate s m = Done (it, m') /\
    (it = None -> m' = m) /\
    (it = None <->
       size (free_memory_segments_ m) = 0 \/
       forall n seg, free_segment m n seg -> Size seg < s).
Proof.
  intros Hr Hs.
  destruct (Allocate_success M m s (reachable_invariant M m Hr) Hs)
    as (it & m' & E & Hiff & H0).
  exists it, m'. split; [done|]. split.
  { intros ->. by apply (Allocate_None_unchanged s). }
  split.
  - intros ->. right. intros n seg Hn.
    destruct (decide (Size seg < s)); [done|].
    assert (is_Some (@None nat)) as [? ?]; [|done].
    apply Hiff. exists n, seg. split; [done|lia].
  - intros [Hz|Hsmall]; [by apply H0|].
    destruct it as [handle|]; [|done]. exfalso.
    destruct Hiff as [Hiff _]. destruct (Hiff ltac:(by eexists)) as (n & seg & Hn & Hle).
    specialize (Hsmall n seg Hn). lia.
Qed.

Lemma Allocate_failure_leaves_state_witness :
  reachable 1 (MemoryManager_new 1) /\ is_size_t 2 /\
  exists it m', Allocate 2 (MemoryManager_new 1) = Done (it, m') /\
                (it = None -> m' = MemoryManager_new 1).
Proof.
  assert (Hr : reachable 1 (MemoryManager_new 1)) by apply reachable_new.
  assert (Hs : is_size_t 2) by (unfold is_size_t; lia).
  split; [exact Hr|]. split; [exact Hs|].
  destruct (Allocate_failure_leaves_state 1 (MemoryManager_new 1) 2 Hr Hs)
    as (it & m' & E & Hsame & _).
  by exists it, m'.
Defined.

(** C10. For every reachable state whose free heap is not empty,
    [Allocate(0)] succeeds. If the top segment has size 0 the handle is that
    segment, allocated in place with the sequence as it was; otherwise the
    handle is a new node holding the empty range [[L, L)] at the left end [L]
    of the top segment, placed immediately before it, while the top segment
    keeps its whole range and stays free and every other block is as before.
    With an empty free heap [Allocate(0)] returns the null handle, and that is
    the only case in which it does. *)
Theorem Allocate_zero M m :
  reachable M m ->
  (size (free_memory_segments_ m) = 0 -> Allocate 0 m = Done (None, m)) /\
  (size (free_memory_segments_ m) <> 0 ->
   exists handle m' t tseg l1 l2,
     Allocate 0 m = Done (Some handle, m') /\
     top (free_memory_segments_ m) = Some t /\
     free_segment m t tseg /\
     memory_segments_ m = l1 ++ t :: l2 /\
     (Size tseg = 0 /\ handle = t /\
        memory_segments_ m' = memory_segments_ m /\
        blocks m' =
          (block_at m <$> l1) ++ mkBlock (left tseg) (right tseg) false
                              :: (block_at m <$> l2) \/
      0 < Size tseg /\ handle = next_node_ m /\
        handle ∉ memory_segments_ m /\
        memory_segments_ m' = l1 ++ handle :: t :: l2 /\
        blocks m' =
          (block_at m <$> l1) ++ mkBlock (left tseg) (left tseg) false
                              :: mkBlock (left tseg) (right tseg) true
                              :: (block_at m <$> l2))) /\
  (forall m', Allocate 0 m = Done (None, m') ->
     size (free_memory_segments_ m) = 0).
Proof.
  intros Hr. pose proof (reachable_invariant M m Hr) as Hinv.
  assert (Hs : is_size_t 0) by (unfold is_size_t; lia).
  destruct (Allocate_cases M m 0 Hinv Hs)
    as [[H0 E]|(t & seg & l1 & l2 & Ht & Hseg & Hfree & Hl & Hcase)].
  { split; [done|]. split; [done|]. done. }
  assert (Hne : size (free_memory_segments_ m) <> 0).
  { apply top_slot in Ht. lia. }
  assert (Hft : free_segment m t seg).
  { split; [rewrite Hl; set_solver|done]. }
  pose proof (Size_nonneg seg) as Hnn.
  destruct Hcase as [[Hlt E]|[[Heq (m' & E & _ & Hl' & _ & _ & _ & Hb')]
                             |[Hlt (m' & E & _ & Hl' & _ & Hfresh & _ & Hb')]]];
    [lia|..].
  - split; [done|]. split; [|intros m'' E'; rewrite E in E'; done].
    intros _. exists t, m', t, seg, l1, l2. split_and!; try done.
    left. by split_and!.
  - split; [done|]. split; [|intros m'' E'; rewrite E in E'; done].
    intros _. exists (next_node_ m), m', t, seg, l1, l2. split_and!; try done.
    right. rewrite Z.add_0_r in Hb'. by split_and!.
Qed.

Lemma Allocate_zero_witness :
  reachable 10 (MemoryManager_new 10) /\
  exists handle m', Allocate 0 (MemoryManager_new 10) = Done (Some handle, m').
Proof.
  assert (Hr : reachable 10 (MemoryManager_new 10)) by apply reachable_new.
  split; [exact Hr|].
  destruct (Allocate_zero 10 (MemoryManager_new 10) Hr) as (_ & Hsome & _).
  destruct Hsome as (handle & m' & _ & _ & _ & _ & E & _).
  { vm_compute. discriminate. }
  by exists handle, m'.
Defined.

(** Blocks further along the sequence lie at higher addresses. *)
Definition ascending (bs : list block) : Prop :=
  forall i j bi bj, (i < j)%nat -> bs !! i = Some bi -> bs !! j = Some bj ->
  block_right bi <= block_left bj.

Lemma spans_ascending lo hi (bs : list block) :
  spans lo hi bs ->
  Forall (fun b => block_left b <= block_right b) bs ->
  lo <= hi /\
  (forall b, b ∈ bs -> lo <= block_left b /\ block_right b <= hi) /\
  ascending bs.
Proof.
  revert lo. induction bs as [|b rest IH]; intros lo Hsp Hso.
  { simpl in Hsp. split; [lia|]. split; [set_solver|]. by intros i j ? ? ? ?. }
  destruct Hsp as [Hl Hsp]. apply Forall_cons in Hso as [Hb Hso].
  destruct (IH _ Hsp Hso) as (Hle & Hin & Hasc).
  split; [lia|]. split.
  - intros b' [->|Hb']%elem_of_cons; [lia|]. destruct (Hin b' Hb'). lia.
  - intros [|i] [|j] bi bj Hij Hi Hj; try lia; simpl in *.
    + simplify_eq. apply list_elem_of_lookup_2 in Hj. by destruct (Hin bj Hj).
    + apply (Hasc i j); [lia|done..].
Qed.

Lemma laid_out_partitions M (bs : list block) :
  0 <= M <= INT_MAX -> laid_out M bs -> partitions M bs.
Proof.
  intros HM [Hne Hsp Hint Hso].
  rewrite to_int_id in Hsp by (unfold is_int, INT_MAX in *; lia).
  split; [done|]. split; [done|].
  destruct bs as [|b [|b' rest]]; [done| |apply Hso; simpl; lia].
  simpl in Hsp. destruct Hsp as [Hl Hr]. repeat constructor. lia.
Qed.




(** ** Example runs

    The state [Allocate] leaves, and the state [Free] leaves, in a run that
    goes through; the state itself where the call does not return one. *)
Definition after_Allocate (size_ : Z) (m : MemoryManager) : MemoryManager :=
  match Allocate size_ m with
  | Done (_, m') => m'
  | _ => m
  end.

Definition after_Free (position : node) (m : MemoryManager) : MemoryManager :=
  match Free position m with
  | Done m' => m'
  | _ => m
  end.

Lemma after_Allocate_reachable M m s :
  reachable M m -> is_size_t s -> reachable M (after_Allocate s m).
Proof.
  intros Hr Hs. unfold after_Allocate.
  destruct (Allocate s m) as [[it m']| |] eqn:E; [|done..].
  by apply (reachable_Allocate M m s it m').
Qed.

Lemma after_Free_reachable M m p :
  reachable M m -> allocated m p -> has_room m ->
  reachable M (after_Free p m).
Proof.
  intros Hr Hal Hroom. unfold after_Free.
  destruct (Free p m) as [m'| |] eqn:E; [|done..].
  by apply (reachable_Free M m p m').
Qed.

(** A manager of 10 cells gives out [[0, 1)], [[1, 4)], [[4, 6)] and
    [[6, 7)], in the nodes 1, 2, 3 and 4; node 0 keeps the free rest
    [[7, 10)]. *)
Definition example_allocated : MemoryManager :=
  after_Allocate 1
    (after_Allocate 2 (after_Allocate 3 (after_Allocate 1 (MemoryManager_new 10)))).

(** Then [[4, 6)] and [[0, 1)] are freed. The heap holds three free
    segments: [[7, 10)] in the root, [[4, 6)] in slot 1 and [[0, 1)] in slot
    2; [[1, 4)] and [[6, 7)] are allocated. *)
Definition example_state : MemoryManager :=
  after_Free 1 (after_Free 3 example_allocated).

(** One allocation of 3 cells that is freed again: the segment sequence is
    the single free node 1, where a new manager has node 0. *)
Definition example_returned : MemoryManager :=
  after_Free 1 (after_Allocate 3 (MemoryManager_new 10)).

Lemma example_allocated_reachable : reachable 10 example_allocated.
Proof.
  unfold example_allocated.
  do 4 (apply after_Allocate_reachable; [|unfold is_size_t; lia]).
  apply reachable_new.
Qed.

Lemma example_state_reachable : reachable 10 example_state.
Proof.
  assert (Hl3 : memory_segments_ example_allocated = [1; 2; 3; 4; 0]%nat)
    by (vm_compute; reflexivity).
  assert (Hl1 : memory_segments_ (after_Free 3 example_allocated)
                = [1; 2; 3; 4; 0]%nat) by (vm_compute; reflexivity).
  apply after_Free_reachable; [apply after_Free_reachable|..].
  - apply example_allocated_reachable.
  - split; [rewrite Hl3; repeat constructor|vm_compute; reflexivity].
  - unfold has_room. vm_compute. reflexivity.
  - split; [rewrite Hl1; repeat constructor|vm_compute; reflexivity].
  - unfold has_room. vm_compute. reflexivity.
Qed.

Lemma example_returned_reachable : reachable 10 example_returned.
Proof.
  assert (Hl : memory_segments_ (after_Allocate 3 (MemoryManager_new 10))
               = [1; 0]%nat) by (vm_compute; reflexivity).
  apply after_Free_reachable.
  - apply after_Allocate_reachable; [apply reachable_new|].
    unfold is_size_t. lia.
  - split; [rewrite Hl; repeat constructor|vm_compute; reflexivity].
  - unfold has_room. vm_compute. reflexivity.
Qed.

(** Two free segments of a sequence that touch: one ends at the address the
    other starts at. *)
Definition touching_free (bs : list block) : Prop :=
  exists (i j : nat) a b,
    i <> j /\ bs !! i = Some a /\ bs !! j = Some b /\
    block_free a = true /\ block_free b = true /\
    block_right a = block_left b.

(** C4, as stated, fails. A manager of 10 cells gives out [[0, 3)] and then
    the empty segment [[3, 3)], and the first is freed: the free segments
    [[0, 3)] and [[3, 10)] touch at address 3 and are not merged, for the
    allocated empty segment lies between them in the sequence. All 10 cells
    are free, and a request for 10 is refused. *)
Lemma touching_free_counterexample :
  let m := after_Free 1
             (after_Allocate 0 (after_Allocate 3 (MemoryManager_new 10))) in
  reachable 10 m /\
  blocks m = [mkBlock 0 3 true; mkBlock 3 3 false; mkBlock 3 10 true] /\
  touching_free (blocks m) /\
  Allocate 10 m = Done (None, m).
Proof.
  cbv zeta.
  assert (Hl : memory_segments_
                 (after_Allocate 0 (after_Allocate 3 (MemoryManager_new 10)))
               = [1; 2; 0]%nat) by (vm_compute; reflexivity).
  assert (Hb : blocks (after_Free 1
                 (after_Allocate 0 (after_Allocate 3 (MemoryManager_new 10))))
               = [mkBlock 0 3 true; mkBlock 3 3 false; mkBlock 3 10 true])
    by (vm_compute; reflexivity).
  split_and!.
  - apply after_Free_reachable.
    + do 2 (apply after_Allocate_reachable; [|unfold is_size_t; lia]).
      apply reachable_new.
    + split; [rewrite Hl; repeat constructor|vm_compute; reflexivity].
    + unfold has_room. vm_compute. reflexivity.
  - exact Hb.
  - rewrite Hb. exists 0%nat, 2%nat, (mkBlock 0 3 true), (mkBlock 3 10 true).
    by split_and!.
  - vm_compute. reflexivity.
Qed.

Lemma example_heap :
  let w := segment_of_ example_state in
  let h := free_memory_segments_ example_state in
  seg_tracked w h /\ seg_ordered w h /\
  live h = [0; 3; 1]%nat /\ size h = 3 /\ out_of_range_ h = false /\
  seg_index w 2%nat = Some kNullIndex.
Proof.
  cbv zeta.
  pose proof (reachable_invariant 10 _ example_state_reachable) as [Hc _ _].
  split; [apply Hc|]. split; [apply Hc|].
  repeat split; vm_compute; reflexivity.
Qed.

(** C4, amended. In every reachable state no two segments that are
    neighbours in the segment sequence are both free. [Free] on an allocated
    segment [p] at [l1 ++ p :: l2] returns a state in which [p] is free; its
    left neighbour was either absent or allocated and is kept, or was free
    and is gone, [p] starting where it started; likewise its right neighbour;
    every other block is as before, and again no two neighbours are both
    free. *)
Theorem no_adjacent_free_invariant M m :
  reachable M m ->
  no_adjacent_free (blocks m) /\
  forall p l1 l2,
    allocated m p -> has_room m ->
    memory_segments_ m = l1 ++ p :: l2 ->
    exists m' l1' l2',
      Free p m = Done m' /\
      no_adjacent_free (blocks m') /\
      memory_segments_ m' = l1' ++ p :: l2' /\
      block_free (block_at m' p) = true /\
      (forall n, n ∈ l1' ++ l2' -> block_at m' n = block_at m n) /\
      (l1' = l1 /\ not_free (last (block_at m <$> l1)) /\
         block_left (block_at m' p) = block_left (block_at m p) \/
       exists a, l1 = l1' ++ [a] /\ block_free (block_at m a) = true /\
                 block_left (block_at m' p) = block_left (block_at m a)) /\
      (l2' = l2 /\ not_free (head (block_at m <$> l2)) /\
         block_right (block_at m' p) = block_right (block_at m p) \/
       exists b, l2 = b :: l2' /\ block_free (block_at m b) = true /\
                 block_right (block_at m' p) = block_right (block_at m b)).
Proof.
  intros Hr. pose proof (reachable_invariant M m Hr) as Hinv.
  split; [apply Hinv|]. intros p l1 l2 Hal Hroom Hl.
  destruct (Free_spec M m p l1 l2 Hinv Hal Hl ltac:(done))
    as (m' & l1' & l2' & E & Hinv' & _ & Hl' & Hf & Hrest & Hleft & Hright).
  exists m', l1', l2'. split_and!; try done. apply Hinv'.
Qed.

Lemma no_adjacent_free_invariant_witness :
  reachable 10 example_state /\
  blocks example_state =
    [mkBlock 0 1 true; mkBlock 1 4 false; mkBlock 4 6 true;
     mkBlock 6 7 false; mkBlock 7 10 true] /\
  no_adjacent_free (blocks example_state) /\
  exists m' l1' l2',
    Free 2%nat example_state = Done m' /\
    no_adjacent_free (blocks m') /\
    memory_segments_ m' = l1' ++ 2%nat :: l2' /\
    block_free (block_at m' 2%nat) = true /\
    (exists a, [1%nat] = l1' ++ [a] /\
       block_left (block_at m' 2%nat) = block_left (block_at example_state a)) /\
    (exists b, [3; 4; 0]%nat = b :: l2' /\
       block_right (block_at m' 2%nat)
       = block_right (block_at example_state b)).
Proof.
  assert (Hr : reachable 10 example_state) by apply example_state_reachable.
  assert (Hl : memory_segments_ example_state = [1%nat] ++ 2%nat :: [3; 4; 0]%nat)
    by (vm_compute; reflexivity).
  assert (Hal : allocated example_state 2%nat).
  { split; [rewrite Hl; repeat constructor|vm_compute; reflexivity]. }
  assert (Hroom : has_room example_state)
    by (unfold has_room; vm_compute; reflexivity).
  assert (Hfa : block_free (block_at example_state 1%nat) = true)
    by (vm_compute; reflexivity).
  assert (Hfb : block_free (block_at example_state 3%nat) = true)
    by (vm_compute; reflexivity).
  destruct (no_adjacent_free_invariant 10 example_state Hr) as [Hno HFree].
  destruct (HFree 2%nat [1%nat] [3; 4; 0]%nat Hal Hroom Hl)
    as (m' & l1' & l2' & E & Hno' & Hl' & Hf & _ & Hleft & Hright).
  split; [exact Hr|]. split; [vm_compute; reflexivity|]. split; [exact Hno|].
  exists m', l1', l2'. split; [exact E|]. split; [exact Hno'|].
  split; [exact Hl'|]. split; [exact Hf|]. split.
  - destruct Hleft as [(_ & Hn & _)|(a & Ha & _ & HL)].
    + exfalso. specialize (Hn (block_at example_state 1%nat) eq_refl).
      rewrite Hfa in Hn. discriminate.
    + exists a. split; [exact Ha|exact HL].
  - destruct Hright as [(_ & Hn & _)|(b & Hb & _ & HR)].
    + exfalso. specialize (Hn (block_at example_state 3%nat) eq_refl).
      rewrite Hfb in Hn. discriminate.
    + exists b. split; [exact Hb|exact HR].
Defined.






(** The addresses covered by the free segments of a state. *)
Definition free_address (m : MemoryManager) (x : Z) : Prop :=
  exists b, b ∈ blocks m /\ block_free b = true /\
            block_left b <= x < block_right b.

Lemma free_neighbours_allocated (B1 : list block) b (B2 : list block) :
  no_adjacent_free (B1 ++ b :: B2) -> block_free b = true ->
  not_free (last B1) /\ not_free (head B2).
Proof.
  intros (_ & Hl & Hr & _)%no_adjacent_free_middle Hb.
  split; [by apply (pair_ok_free_r b)|by apply (pair_ok_free_l b)].
Qed.

Lemma cons_eq_split {A} (x y : A) (l k : list A) :
  x :: l = y :: k -> x = y /\ l = k.
Proof. intros H. by injection H. Qed.

Lemma block_eta b l r f :
  block_left b = l -> block_right b = r -> block_free b = f ->
  b = mkBlock l r f.
Proof. destruct b. simpl. by intros -> -> ->. Qed.

(** C7. For every reachable state and every size for which [Allocate]
    returns a handle, [Free] on that handle in the state [Allocate] returned
    succeeds, and the state it returns has the same sequence of blocks as the
    state before the [Allocate]: the same ranges in the same order with the
    same free flags. In particular the free segments cover the same
    addresses. *)
Theorem Allocate_Free_round_trip M m s handle m' :
  reachable M m -> is_size_t s ->
  Allocate s m = Done (Some handle, m') ->
  exists m'',
    Free handle m' = Done m'' /\
    blocks m'' = blocks m /\
    (forall x, free_address m'' x <-> free_address m x).
Proof.
  intros Hr Hs Ha. pose proof (reachable_invariant M m Hr) as Hinv.
  cut (exists m'', Free handle m' = Done m'' /\ blocks m'' = blocks m).
  { intros (m'' & E & Hb). exists m''. split; [done|]. split; [done|].
    intros x. unfold free_address. by rewrite Hb. }
  destruct (Allocate_cases M m s Hinv Hs)
    as [[_ E]|(t & seg & l1 & l2 & Ht & Hseg & Hfree & Hl &
               [[_ E]|[[-> (m1 & E & Hinv' & Hl' & _ & _ & Hperm & Hb')]
                      |[Hlt (m1 & E & Hinv' & Hl' & _ & _ & _ & Hb')]]])];
    rewrite E in Ha; simplify_eq.
  - (* the top segment was handed out whole *)
    pose proof (inv_consistent _ _ Hinv) as Hc.
    pose proof (inv_consistent _ _ Hinv') as Hc'.
    rewrite Hl in Hl'.
    destruct (blocks_inj_1 m' l1 handle l2 _ _ _ Hl' Hb'
                ltac:(by rewrite length_fmap)) as (H1 & Ht' & H2).
    assert (Hbm : blocks m = (block_at m <$> l1)
                    ++ mkBlock (left seg) (right seg) true :: (block_at m <$> l2)).
    { by rewrite (blocks_split m l1 handle l2 Hl),
        (block_at_lookup m handle seg Hseg), Hfree. }
    destruct (free_neighbours_allocated (block_at m <$> l1)
                (mkBlock (left seg) (right seg) true) (block_at m <$> l2))
      as [Hnl Hnr]; [rewrite <- Hbm; apply Hinv|done|].
    assert (Hal : allocated m' handle).
    { apply block_at_allocated; [done|rewrite Hl'; set_solver|by rewrite Ht']. }
    assert (Hroom : has_room m').
    { unfold has_room. apply Permutation_length in Hperm. simpl in Hperm.
      rewrite !length_live in Hperm
        by (apply (tracked_wf _ _ _ (c_tracked _ Hc)) ||
            apply (tracked_wf _ _ _ (c_tracked _ Hc'))).
      pose proof (tracked_size _ _ _ (c_tracked _ Hc)) as Hsz.
      unfold size in *. lia. }
    destruct (Free_spec M m' handle l1 l2 Hinv' Hal Hl' ltac:(done))
      as (m'' & l1' & l2' & EF & _ & _ & Hl'' & Hf & Hrest & Hleft & Hright).
    exists m''. split; [done|].
    destruct Hleft as [(-> & _ & HL)|(a & -> & Hfa & _)]; cycle 1.
    { exfalso. rewrite <- H1, fmap_app in Hnl.
      change (block_at m' <$> [a]) with [block_at m' a] in Hnl.
      rewrite last_snoc in Hnl. specialize (Hnl _ eq_refl). congruence. }
    destruct Hright as [(-> & _ & HR)|(b & -> & Hfb & _)]; cycle 1.
    { exfalso. rewrite <- H2 in Hnr. specialize (Hnr _ eq_refl). congruence. }
    rewrite (blocks_split m'' l1 handle l2 Hl''), Hbm.
    rewrite (fmap_block_at_ext m' m'' l1), (fmap_block_at_ext m' m'' l2), H1, H2
      by (intros n Hn; apply Hrest; set_solver).
    do 2 f_equal. apply block_eta; [|by rewrite HR, Ht'|done].
    by rewrite HL, Ht'.
  - (* the top segment was split *)
    pose proof (inv_consistent _ _ Hinv') as Hc'.
    set (a := next_node_ m) in *.
    destruct (blocks_inj_1 m' l1 a (t :: l2) _ _ _ Hl' Hb'
                ltac:(by rewrite length_fmap)) as (H1 & Ha' & H2).
    rewrite fmap_cons in H2. apply cons_eq_split in H2 as [Ht' H2].
    assert (Hbm : blocks m = (block_at m <$> l1)
                    ++ mkBlock (left seg) (right seg) true :: (block_at m <$> l2)).
    { by rewrite (blocks_split m l1 t l2 Hl),
        (block_at_lookup m t seg Hseg), Hfree. }
    destruct (free_neighbours_allocated (block_at m <$> l1)
                (mkBlock (left seg) (right seg) true) (block_at m <$> l2))
      as [Hnl _]; [rewrite <- Hbm; apply Hinv|done|].
    assert (Hal : allocated m' a).
    { apply block_at_allocated; [done|rewrite Hl'; set_solver|by rewrite Ha']. }
    destruct (Free_spec M m' a l1 (t :: l2) Hinv' Hal Hl')
      as (m'' & l1' & l2' & EF & _ & _ & Hl'' & Hf & Hrest & Hleft & Hright).
    { intros _ Hn. specialize (Hn (block_at m' t) eq_refl).
      rewrite Ht' in Hn. done. }
    exists m''. split; [done|].
    destruct Hleft as [(-> & _ & HL)|(c & -> & Hfc & _)]; cycle 1.
    { exfalso. rewrite <- H1, fmap_app in Hnl.
      change (block_at m' <$> [c]) with [block_at m' c] in Hnl.
      rewrite last_snoc in Hnl. specialize (Hnl _ eq_refl). congruence. }
    destruct Hright as [(_ & Hn & _)|(b & [= <- <-] & _ & HR)].
    { exfalso. specialize (Hn (block_at m' t) eq_refl).
      rewrite Ht' in Hn. done. }
    rewrite (blocks_split m'' l1 a l2 Hl''), Hbm.
    rewrite (fmap_block_at_ext m' m'' l1), (fmap_block_at_ext m' m'' l2), H1, H2
      by (intros n Hn; apply Hrest; set_solver).
    do 2 f_equal. apply block_eta; [|by rewrite HR, Ht'|done].
    by rewrite HL, Ha'.
Qed.

Lemma Allocate_Free_round_trip_witness :
  exists handle m' m'',
    Allocate 3 (MemoryManager_new 10) = Done (Some handle, m') /\
    Free handle m' = Done m'' /\
    blocks m'' = blocks (MemoryManager_new 10).
Proof.
  assert (Hr : reachable 10 (MemoryManager_new 10)) by apply reachable_new.
  assert (Hs : is_size_t 3) by (unfold is_size_t; lia).
  assert (E : exists handle m',
             Allocate 3 (MemoryManager_new 10) = Done (Some handle, m')).
  { vm_compute. eexists _, _. reflexivity. }
  destruct E as (handle & m' & E).
  destruct (Allocate_Free_round_trip 10 (MemoryManager_new 10) 3 handle m'
              Hr Hs E) as (m'' & EF & Hb & _).
  by exists handle, m', m''.
Defined.

(** C2. A manager of 10 cells gives out [[0, 5)] and then [[5, 6)], which
    leaves the free segment [[6, 10)] alone in the heap. [Free] on the first
    handle pushes it onto that heap: it is inserted at index 1, compares ahead
    of the root and is swapped into slot 0. [push] returns 1, the index of
    insertion, while the pushed handle rests in slot 0 (and its [heap_index]
    says 0); slot 1 holds the other segment. *)
Theorem push_returns_insertion_index :
  exists a m1 b m2 w h,
    Allocate 5 (MemoryManager_new 10) = Done (Some a, m1) /\
    Allocate 1 m1 = Done (Some b, m2) /\
    live (free_memory_segments_ m2) = [0%nat] /\
    heap_push a (segment_of_ m2, free_memory_segments_ m2) = (1, (w, h)) /\
    slot h 0 = Some a /\
    slot h 1 = Some 0%nat /\
    a <> 0%nat /\
    heap_index <$> w !! a = Some 0.
Proof.
  eexists _, _, _, _, _, _.
  split; [vm_compute; reflexivity|]. split; [vm_compute; reflexivity|].
  split; [vm_compute; reflexivity|]. split; [vm_compute; reflexivity|].
  split; [vm_compute; reflexivity|]. split; [vm_compute; reflexivity|].
  split; [discriminate|vm_compute; reflexivity].
Qed.

(** [erase] at a valid slot of the free heap, when the heap is in order:
    the element of that slot leaves, the others stay and are in order again,
    their [heap_index] fields name their slots. The vector is read outside
    its bounds exactly when the slot is the last one and not the root: after
    [pop_back] the call [SiftUp(index)] compares [elements_[index]], one past
    the end, with its parent. *)
Lemma erase_in_order i a w h :
  seg_tracked w h -> seg_ordered w h ->
  0 <= i < size h -> slot h i = Some a ->
  let s' := heap_erase i (w, h) in
  live h ≡ₚ a :: live s'.2 /\
  size s'.2 = size h - 1 /\
  seg_tracked s'.1 s'.2 /\
  seg_ordered s'.1 s'.2 /\
  out_of_range_ s'.2 =
    out_of_range_ h || ((i =? size h - 1) && negb (i =? 0)).
Proof.
  intros Ht Ho Hi Ha.
  destruct (seg_erase_spec i a w h Ht Hi Ha) as [? ? ? _ _ ? _ ?].
  - apply heap_ordered_hole; [apply seg_compare_negtrans|done].
  - intros _ H0. apply Ho. lia.
  - done.
Qed.

(** C6. A manager of 10 cells gives out [[0, 3)], [[3, 6)] and [[6, 9)];
    the first is freed, so the heap holds two free segments, [[0, 3)] in
    slot 0 and [[9, 10)] in slot 1, and no access has left the bounds of the
    vector. [Free] on the third handle then erases slot 1, the last one:
    [erase(1)] swaps the slot with itself, pops it, and [SiftUp(1)] reads
    [elements_[1]] of a vector that now has one element. *)
Theorem erase_last_reads_past_the_end :
  exists a m1 b m2 c m3 m4 m5,
    Allocate 3 (MemoryManager_new 10) = Done (Some a, m1) /\
    Allocate 3 m1 = Done (Some b, m2) /\
    Allocate 3 m2 = Done (Some c, m3) /\
    Free a m3 = Done m4 /\
    size (free_memory_segments_ m4) = 2 /\
    out_of_range_ (free_memory_segments_ m4) = false /\
    out_of_range_
      (heap_erase 1 (segment_of_ m4, free_memory_segments_ m4)).2 = true /\
    Free c m4 = Done m5 /\
    size (free_memory_segments_ m5) = 2 /\
    out_of_range_ (free_memory_segments_ m5) = true.
Proof.
  eexists _, _, _, _, _, _, _, _.
  split; [vm_compute; reflexivity|]. split; [vm_compute; reflexivity|].
  split; [vm_compute; reflexivity|]. split; [vm_compute; reflexivity|].
  split; [vm_compute; reflexivity|]. split; [vm_compute; reflexivity|].
  split; [vm_compute; reflexivity|]. split; [vm_compute; reflexivity|].
  split; vm_compute; reflexivity.
Qed.

(** * The driver *)

Lemma allocated_iff_block m q :
  consistent m ->
  allocated m q <->
  q ∈ memory_segments_ m /\ block_free (block_at m q) = false.
Proof.
  intros Hc. split.
  - intros [Hq Hi]. split; [done|].
    apply (c_dom _ Hc) in Hq as [seg Hseg].
    rewrite (block_at_lookup m q seg Hseg). simpl. apply is_free_false.
    rewrite (seg_index_Some _ _ _ Hseg) in Hi. by simplify_eq.
  - intros [Hq Hf]. by apply block_at_allocated.
Qed.

Lemma fmap_eq_elem {A B} (f g : A -> B) (l : list A) :
  f <$> l = g <$> l -> forall x, x ∈ l -> f x = g x.
Proof.
  induction l as [|y l IH]; [set_solver|].
  rewrite !fmap_cons. intros [Hy Hl]%cons_eq_split x.
  rewrite elem_of_cons. intros [->|Hx]; [done|by apply IH].
Qed.

(** The free heap holds no more elements than nodes were ever created. *)
Lemma heap_size_bound m :
  consistent m ->
  size (free_memory_segments_ m) <= Z.of_nat (next_node_ m).
Proof.
  intros Hc.
  assert (live (free_memory_segments_ m) ⊆+ seq 0 (next_node_ m)) as Hsub.
  { apply NoDup_submseteq;
      [apply (tracked_NoDup seg_index _ _ (c_tracked _ Hc))|].
    intros n Hn. apply (live_in_list m n Hc) in Hn as [Hn _].
    apply (c_fresh _ Hc) in Hn. apply elem_of_seq. lia. }
  apply submseteq_length in Hsub.
  rewrite length_live, length_seq in Hsub
    by apply (tracked_wf _ _ _ (c_tracked _ Hc)).
  unfold size. lia.
Qed.

(** [Allocate] keeps every allocated segment allocated, creates at most one
    node, and the handle it returns is allocated afterwards and was not
    before. *)
Lemma Allocate_allocated M m s it m' :
  invariant M m -> is_size_t s -> Allocate s m = Done (it, m') ->
  (next_node_ m' <= S (next_node_ m))%nat /\
  (forall q, allocated m q -> allocated m' q) /\
  (forall h, it = Some h -> allocated m' h /\ ~ allocated m h).
Proof.
  intros Hinv Hs Ha. pose proof (inv_consistent _ _ Hinv) as Hc.
  destruct (Allocate_cases M m s Hinv Hs)
    as [[_ E]|(t & seg & l1 & l2 & Ht & Hseg & Hfree & Hl &
               [[_ E]|[[-> (m1 & E & Hinv' & Hl' & Hn' & _ & _ & Hb')]
                      |[Hlt (m1 & E & Hinv' & Hl' & Hn' & Hfresh & _ & Hb')]]])];
    rewrite E in Ha; simplify_eq; try (split; [lia|done]).
  - (* exact fit *)
    pose proof (inv_consistent _ _ Hinv') as Hc'.
    rewrite Hl in Hl'.
    destruct (blocks_inj_1 m' l1 t l2 _ _ _ Hl' Hb'
                ltac:(by rewrite length_fmap)) as (H1 & Ht' & H2).
    assert (Hnt : ~ allocated m t).
    { intros [_ Hi]. rewrite (seg_index_Some _ _ _ Hseg) in Hi.
      apply is_free_true in Hfree. by simplify_eq. }
    split; [lia|]. split.
    + intros q Hq. pose proof Hq as [Hqm Hqf]%(allocated_iff_block m q Hc).
      apply (allocated_iff_block m' q Hc'). rewrite Hl'. rewrite Hl in Hqm.
      split; [done|]. rewrite <- Hqf. f_equal.
      apply elem_of_app in Hqm as [Hq1|[->|Hq2]%elem_of_cons]; [| |].
      * by apply (fmap_eq_elem _ _ l1).
      * done.
      * by apply (fmap_eq_elem _ _ l2).
    + intros h [= <-]. split; [|done].
      apply (allocated_iff_block m' t Hc'). rewrite Hl', Ht'.
      split; [set_solver|done].
  - (* split *)
    pose proof (inv_consistent _ _ Hinv') as Hc'.
    set (a := next_node_ m) in *.
    destruct (blocks_inj_1 m' l1 a (t :: l2) _ _ _ Hl' Hb'
                ltac:(by rewrite length_fmap)) as (H1 & Ha' & H2).
    rewrite fmap_cons in H2. apply cons_eq_split in H2 as [Ht' H2].
    assert (Hnt : ~ allocated m t).
    { intros [_ Hi]. rewrite (seg_index_Some _ _ _ Hseg) in Hi.
      apply is_free_true in Hfree. by simplify_eq. }
    split; [lia|]. split.
    + intros q Hq. pose proof Hq as [Hqm Hqf]%(allocated_iff_block m q Hc).
      apply (allocated_iff_block m' q Hc'). rewrite Hl'. rewrite Hl in Hqm.
      split; [set_solver|]. rewrite <- Hqf. f_equal.
      apply elem_of_app in Hqm as [Hq1|[->|Hq2]%elem_of_cons]; [| |].
      * by apply (fmap_eq_elem _ _ l1).
      * done.
      * by apply (fmap_eq_elem _ _ l2).
    + intros h [= <-]. split; [|by intros [? _]].
      apply (allocated_iff_block m' a Hc'). rewrite Hl', Ha'.
      split; [set_solver|done].
Qed.

(** [Free] on an allocated handle returns, creates no node, and keeps every
    other allocated segment allocated. *)
Lemma Free_allocated M m p :
  invariant M m -> allocated m p -> has_room m ->
  exists m',
    Free p m = Done m' /\
    next_node_ m' = next_node_ m /\
    forall q, allocated m q -> q <> p -> allocated m' q.
Proof.
  intros Hinv Hal Hroom. pose proof (inv_consistent _ _ Hinv) as Hc.
  destruct (list_elem_of_split _ _ (proj1 Hal)) as (l1 & l2 & Hl).
  destruct (Free_spec M m p l1 l2 Hinv Hal Hl ltac:(done))
    as (m' & l1' & l2' & E & Hinv' & Hn & Hl' & _ & Hrest & Hleft & Hright).
  pose proof (inv_consistent _ _ Hinv') as Hc'.
  exists m'. split; [done|]. split; [done|].
  intros q Hq Hqp. pose proof Hq as [Hqm Hqf]%(allocated_iff_block m q Hc).
  apply (allocated_iff_block m' q Hc').
  assert (q ∈ l1' ++ l2') as Hin.
  { rewrite Hl in Hqm.
    apply elem_of_app in Hqm as [Hq1|[->|Hq2]%elem_of_cons]; [|done|].
    - destruct Hleft as [(-> & _)|(a & -> & Hfa & _)]; [set_solver|].
      apply elem_of_app in Hq1 as [?|Hqa%list_elem_of_singleton];
        [set_solver|]. subst q. congruence.
    - destruct Hright as [(-> & _)|(b & -> & Hfb & _)]; [set_solver|].
      apply elem_of_cons in Hq2 as [->|?]; [congruence|set_solver]. }
  split; [rewrite Hl'; set_solver|]. by rewrite (Hrest q Hin).
Qed.

(** ** The driver as the specification words it *)


(** A free request is in order after the values [earlier] when it names one
    of them and, if that one is an allocation request, no earlier free request
    names it too. *)
Definition free_request_ok (earlier : list Z) (v : Z) : bool :=
  (- v - 1 <? Z.of_nat (length earlier)) &&
  negb (bool_decide (v ∈ earlier) &&
        match earlier !! Z.to_nat (- v - 1) with
        | Some u => 0 <=? u
        | None => false
        end).

Fixpoint valid_stream (earlier values : list Z) : bool :=
  match values with
  | [] => true
  | v :: rest =>
      ((0 <=? v) || free_request_ok earlier v) &&
      valid_stream (earlier ++ [v]) rest
  end.

(** The loop of [RunMemoryManager] after the requests [pre], of [n] in all:
    [hs] are the handles given to them. *)
Record serving (M : Z) (n : nat) (pre : list Z) (hs : list Iterator)
  (r : RunState) : Prop := {
  sv_reachable : reachable M (memory_manager r);
  sv_length : length hs = length pre;
  sv_results : results r = hs ++ replicate (n - length hs) None;
  sv_nodes : (next_node_ (memory_manager r) <= S (length pre))%nat;
  sv_request : forall k h, hs !! k = Some (Some h) ->
    exists u, pre !! k = Some u /\ 0 <= u;
  sv_allocated : forall k h, hs !! k = Some (Some h) ->
    - Z.of_nat k - 1 ∉ pre -> allocated (memory_manager r) h;
  sv_distinct : forall k k' h,
    hs !! k = Some (Some h) -> hs !! k' = Some (Some h) ->
    - Z.of_nat k - 1 ∉ pre -> - Z.of_nat k' - 1 ∉ pre -> k = k'
}.

Lemma read_query_allocation v :
  is_int v -> 0 <= v -> read_query v = Allocation {| allocation_size := v |}.
Proof.
  intros Hv H0. unfold read_query.
  replace (v >=? 0) with true by lia.
  rewrite to_size_t_id; [done|]. unfold is_int, is_size_t in *. lia.
Qed.

Lemma read_query_free v :
  is_int v -> v < 0 ->
  read_query v = Release {| allocation_query_index := - v - 1 |}.
Proof.
  intros Hv H0. unfold read_query.
  replace (v >=? 0) with false by lia. do 2 f_equal.
  unfold is_int, to_int in *. lia.
Qed.

Lemma read_queries_fmap (values : list Z) :
  read_queries (length values) values = read_query <$> values.
Proof. induction values as [|v values IH]; [done|]. simpl. by rewrite IH. Qed.

Lemma segment_left_range M m n seg :
  invariant M m -> n ∈ memory_segments_ m -> segment_of_ m !! n = Some seg ->
  0 <= left seg /\ is_int (left seg).
Proof.
  intros Hinv Hn Hseg.
  pose proof (lo_int _ _ (inv_laid_out _ _ Hinv)) as Hall.
  rewrite Forall_forall in Hall.
  destruct (Hall (block_at m n)) as (H0 & Hi & _).
  { unfold blocks. apply list_elem_of_fmap. by exists n. }
  rewrite (block_at_lookup m n seg Hseg) in H0, Hi. simpl in *. done.
Qed.

Lemma results_step (hs : list Iterator) (n : nat) it :
  (length hs < n)%nat ->
  <[length hs := it]> (hs ++ replicate (n - length hs) None)
  = (hs ++ [it]) ++ replicate (n - length (hs ++ [it])) None.
Proof.
  intros Hn. rewrite length_app. simpl.
  replace (n - length hs)%nat with (S (n - (length hs + 1))) by lia.
  simpl. rewrite insert_app_r_alt, Nat.sub_diag by lia. simpl.
  by rewrite <- app_assoc.
Qed.

Lemma not_named_snoc (pre : list Z) (v : Z) (k : nat) :
  - Z.of_nat k - 1 ∉ pre ++ [v] ->
  - Z.of_nat k - 1 ∉ pre /\ v <> - Z.of_nat k - 1.
Proof. rewrite not_elem_of_app, not_elem_of_cons. naive_solver. Qed.

Lemma serve_allocation M n pre hs r v :
  serving M n pre hs r -> is_int v -> 0 <= v -> (length pre < n)%nat ->
  exists it m' r',
    Allocate v (memory_manager r) = Done (it, m') /\
    run_query (length pre) (read_query v) r = Done r' /\
    memory_manager r' = m' /\
    OutputMemoryManagerResponses (responses r') =
      OutputMemoryManagerResponses (responses r)
      ++ [match it with
          | Some handle => left (segment_of_ m' !!! handle) + 1
          | None => -1
          end] /\
    serving M n (pre ++ [v]) (hs ++ [it]) r'.
Proof.
  intros [Hr Hlen Hres Hnodes Hreq Hall Hdis] Hv H0 Hn.
  set (m := memory_manager r) in *.
  pose proof (reachable_invariant M m Hr) as Hinv.
  assert (Hs : is_size_t v) by (unfold is_int, is_size_t in *; lia).
  destruct (Allocate_success M m v Hinv Hs) as (it & m' & E & _).
  assert (Hr' : reachable M m') by by eapply reachable_Allocate.
  pose proof (reachable_invariant M m' Hr') as Hinv'.
  destruct (Allocate_allocated M m v it m' Hinv Hs E) as (Hn' & Hold & Hnew).
  assert (Hserving : forall resp,
    serving M n (pre ++ [v]) (hs ++ [it])
      {| memory_manager := m';
         results := <[length pre := it]> (results r);
         responses := resp |}).
  { intros resp. split; simpl.
    - done.
    - rewrite !length_app. simpl. lia.
    - rewrite Hres, <- Hlen. apply results_step. lia.
    - rewrite length_app. simpl. lia.
    - intros k h Hk. destruct (decide (k < length hs)%nat) as [Hlt|Hge].
      + rewrite lookup_app_l in Hk by done.
        destruct (Hreq k h Hk) as (u & Hu & ?). exists u. split; [|done].
        rewrite lookup_app_l; [done|]. by apply lookup_lt_Some in Hu.
      + apply lookup_lt_Some in Hk as Hk'. rewrite length_app in Hk'.
        simpl in Hk'. assert (k = length hs) as -> by lia.
        exists v. split; [|done]. rewrite Hlen.
        by rewrite lookup_app_r, Nat.sub_diag by lia.
    - intros k h Hk [Hnot _]%not_named_snoc.
      destruct (decide (k < length hs)%nat) as [Hlt|Hge].
      + rewrite lookup_app_l in Hk by done. apply Hold. by eapply Hall.
      + apply lookup_lt_Some in Hk as Hk'. rewrite length_app in Hk'.
        simpl in Hk'. assert (k = length hs) as -> by lia.
        rewrite lookup_app_r, Nat.sub_diag in Hk by lia. simpl in Hk.
        simplify_eq. by apply Hnew.
    - assert (Hfresh : forall k h, hs !! k = Some (Some h) ->
                - Z.of_nat k - 1 ∉ pre -> it <> Some h).
      { intros k h Hk Hnot ->. destruct (Hnew h eq_refl) as [_ Hno].
        apply Hno. by eapply Hall. }
      intros k k' h Hk Hk' [Hnot _]%not_named_snoc [Hnot' _]%not_named_snoc.
      apply lookup_lt_Some in Hk as Hkl. apply lookup_lt_Some in Hk' as Hkl'.
      rewrite length_app in Hkl, Hkl'. simpl in Hkl, Hkl'.
      destruct (decide (k < length hs)%nat) as [Hlt|Hge];
        destruct (decide (k' < length hs)%nat) as [Hlt'|Hge'].
      + rewrite lookup_app_l in Hk, Hk' by done. by eapply Hdis.
      + rewrite lookup_app_l in Hk by done.
        assert (k' = length hs) as -> by lia.
        rewrite lookup_app_r, Nat.sub_diag in Hk' by lia. simpl in Hk'.
        simplify_eq. by destruct (Hfresh k h Hk Hnot).
      + rewrite lookup_app_l in Hk' by done.
        assert (k = length hs) as -> by lia.
        rewrite lookup_app_r, Nat.sub_diag in Hk by lia. simpl in Hk.
        simplify_eq. by destruct (Hfresh k' h Hk' Hnot').
      + lia. }
  rewrite (read_query_allocation v Hv H0).
  unfold run_query. cbn [AsAllocationQuery allocation_size].
  fold m. rewrite E. cbn [mbind result_bind].
  destruct it as [h|].
  - destruct (Hnew h eq_refl) as [[Hh Hi] _].
    destruct (invariant_lookup M m' h Hinv' Hh) as (seg & Hseg & _).
    rewrite Hseg.
    destruct (segment_left_range M m' h seg Hinv' Hh Hseg) as [Hl0 Hli].
    eexists (Some h), m', _. split; [done|]. split; [done|]. cbn.
    split; [done|]. split; [|apply Hserving].
    unfold OutputMemoryManagerResponses. rewrite fmap_app. f_equal. cbn.
    rewrite (lookup_total_correct _ _ _ Hseg).
    unfold is_int in Hli.
    rewrite (to_size_t_id (left seg)) by (unfold is_size_t; lia).
    rewrite to_size_t_id by (unfold is_size_t; lia). done.
  - eexists None, m', _. split; [done|]. split; [done|]. cbn.
    split; [done|]. split; [|apply Hserving].
    unfold OutputMemoryManagerResponses. by rewrite fmap_app.
Qed.

Lemma serve_free M n pre hs r v :
  serving M n pre hs r -> is_int v -> v < 0 ->
  free_request_ok pre v = true ->
  (length pre < n)%nat -> Z.of_nat n < 2 ^ 32 ->
  exists r',
    run_query (length pre) (read_query v) r = Done r' /\
    responses r' = responses r /\
    serving M n (pre ++ [v]) (hs ++ [None]) r' /\
    match hs !! Z.to_nat (- v - 1) with
    | Some (Some handle) =>
        Free handle (memory_manager r) = Done (memory_manager r')
    | _ => memory_manager r' = memory_manager r
    end.
Proof.
  intros [Hr Hlen Hres Hnodes Hreq Hall Hdis] Hv H0 Hok Hn Hn32.
  set (m := memory_manager r) in *.
  pose proof (reachable_invariant M m Hr) as Hinv.
  pose proof (inv_consistent _ _ Hinv) as Hc.
  apply andb_true_iff in Hok as [Hprior Hnot%negb_true_iff].
  apply Z.ltb_lt in Hprior.
  set (k := Z.to_nat (- v - 1)) in *.
  assert (Hk : (k < length hs)%nat) by lia.
  assert (Hvk : v = - Z.of_nat k - 1) by lia.
  assert (Hres' : <[length pre := None]> (results r) = results r).
  { apply list_insert_id. rewrite Hres, <- Hlen.
    rewrite lookup_app_r, Nat.sub_diag by lia.
    apply lookup_replicate. split; [done|lia]. }
  assert (Hlook : results r !!! k = hs !!! k).
  { rewrite Hres. by rewrite lookup_total_app_l. }
  assert (Hrl : length (results r) = n).
  { rewrite Hres, length_app, length_replicate. lia. }
  assert (Hgrow : forall m',
    reachable M m' -> (next_node_ m' <= next_node_ m)%nat ->
    (forall j h, hs !! j = Some (Some h) -> - Z.of_nat j - 1 ∉ pre ->
       j <> k -> allocated m' h) ->
    serving M n (pre ++ [v]) (hs ++ [None])
      {| memory_manager := m'; results := results r;
         responses := responses r |}).
  { intros m' Hr' Hn' Hall'. split; simpl.
    - done.
    - rewrite !length_app. simpl. lia.
    - rewrite <- Hres', Hres, <- Hlen. apply results_step. lia.
    - rewrite length_app. simpl. lia.
    - intros j h Hj. destruct (decide (j < length hs)%nat) as [Hlt|Hge].
      + rewrite lookup_app_l in Hj by done.
        destruct (Hreq j h Hj) as (u & Hu & ?). exists u. split; [|done].
        rewrite lookup_app_l; [done|]. by apply lookup_lt_Some in Hu.
      + apply lookup_lt_Some in Hj as Hj'. rewrite length_app in Hj'.
        simpl in Hj'. assert (j = length hs) as -> by lia.
        by rewrite lookup_app_r, Nat.sub_diag in Hj by lia.
    - intros j h Hj [Hnj Hvj]%not_named_snoc.
      destruct (decide (j < length hs)%nat) as [Hlt|Hge].
      + rewrite lookup_app_l in Hj by done. apply (Hall' j h Hj Hnj). lia.
      + apply lookup_lt_Some in Hj as Hj'. rewrite length_app in Hj'.
        simpl in Hj'. assert (j = length hs) as -> by lia.
        by rewrite lookup_app_r, Nat.sub_diag in Hj by lia.
    - intros j j' h Hj Hj' [Hnj _]%not_named_snoc [Hnj' _]%not_named_snoc.
      destruct (decide (j < length hs)%nat) as [Hlt|Hge];
        destruct (decide (j' < length hs)%nat) as [Hlt'|Hge'].
      + rewrite lookup_app_l in Hj, Hj' by done. by eapply Hdis.
      + apply lookup_lt_Some in Hj' as Hl'. rewrite length_app in Hl'.
        simpl in Hl'. assert (j' = length hs) as -> by lia.
        by rewrite lookup_app_r, Nat.sub_diag in Hj' by lia.
      + apply lookup_lt_Some in Hj as Hl. rewrite length_app in Hl.
        simpl in Hl. assert (j = length hs) as -> by lia.
        by rewrite lookup_app_r, Nat.sub_diag in Hj by lia.
      + apply lookup_lt_Some in Hj as Hl. rewrite length_app in Hl.
        simpl in Hl. assert (j = length hs) as -> by lia.
        by rewrite lookup_app_r, Nat.sub_diag in Hj by lia. }
  rewrite (read_query_free v Hv H0).
  unfold run_query. cbn [AsAllocationQuery AsFreeQuery allocation_query_index].
  cbv zeta. rewrite Hres', Hrl.
  rewrite (to_size_t_id (- v - 1)) by (unfold is_size_t; lia).
  replace (- v - 1 <? Z.of_nat n) with true by lia.
  fold k. rewrite Hlook.
  destruct (hs !! k) as [[h|]|] eqn:Hh.
  - rewrite (list_lookup_total_correct _ _ _ Hh).
    destruct (Hreq k h Hh) as (u & Hu & Hu0).
    fold k in Hnot. rewrite Hu in Hnot.
    replace (0 <=? u) with true in Hnot by lia.
    rewrite andb_true_r in Hnot. apply bool_decide_eq_false in Hnot.
    assert (Hal : allocated m h).
    { apply (Hall k h Hh). by rewrite <- Hvk. }
    assert (Hroom : has_room m).
    { unfold has_room. pose proof (heap_size_bound m Hc).
      rewrite kNullIndex_eq. lia. }
    destruct (Free_allocated M m h Hinv Hal Hroom) as (m' & E & Hnn & Hkeep).
    fold m. rewrite E. cbn [mbind result_bind].
    eexists. split; [done|]. cbn. split; [done|]. split; [|done].
    apply Hgrow; [by eapply reachable_Free|lia|].
    intros j h' Hj Hnj Hjk. apply Hkeep; [by eapply Hall|].
    intros ->. apply Hjk. apply (Hdis j k h Hj Hh Hnj). by rewrite <- Hvk.
  - rewrite (list_lookup_total_correct _ _ _ Hh).
    eexists. split; [done|]. cbn. split; [done|]. split; [|done].
    apply Hgrow; [done|done|]. intros j h Hj Hnj _. by eapply Hall.
  - apply lookup_ge_None in Hh. lia.
Qed.

Lemma next_node_new memory_size :
  next_node_ (MemoryManager_new memory_size) = 1%nat.
Proof.
  unfold MemoryManager_new. by destruct (heap_push _ _) as [? [? ?]].
Qed.





(** * Further properties of the code *)

(** ** The heap, for any element type *)

(** What [Heap] needs of its two function objects: the observer records the
    index it is told and changes nothing a comparison reads, and [Compare] is
    a strict weak ordering. [index_of] reads the recorded index back. *)
Record heap_laws {T W : Type} `{EqDecision T}
  (compare_ : W -> T -> T -> bool) (observer_ : T -> Z -> W -> W)
  (index_of : W -> T -> option Z) : Prop := {
  law_compare_observer : forall x i w a b,
    compare_ (observer_ x i w) a b = compare_ w a b;
  law_index_of_observer : forall x i w y,
    index_of (observer_ x i w) y =
      if decide (y = x) then (fun _ => i) <$> index_of w x else index_of w y;
  law_irrefl : forall w a, compare_ w a a = false;
  law_trans : forall w a b c,
    compare_ w a b = true -> compare_ w b c = true -> compare_ w a c = true;
  law_negtrans : forall w a b c,
    compare_ w a b = false -> compare_ w b c = false -> compare_ w a c = false
}.

Lemma seg_heap_laws :
  heap_laws MemorySegmentSizeCompare MemorySegmentsHeapObserver seg_index.
Proof.
  split.
  - apply seg_compare_observer.
  - apply seg_index_observer.
  - apply seg_compare_irrefl.
  - apply seg_compare_trans.
  - apply seg_compare_negtrans.
Qed.

Section HeapFacts.
Context {T W : Type} `{EqDecision T}.
Variable compare_ : W -> T -> T -> bool.
Variable observer_ : T -> Z -> W -> W.

(** Where [SiftUp] leaves the element it was called on, and what it returns:
    the slot the element stopped in when it stopped below the root, and the
    initial value of [new_index] when it is in the root. *)
Lemma SiftUp_loop_result fuel : forall i ni w (h : Heap T) v,
  wf_heap h -> 0 <= i < size h -> slot h i = Some v ->
  (Z.to_nat i < fuel)%nat ->
  let r := SiftUp_loop compare_ observer_ fuel i ni (w, h) in
  r.1 = ni /\ slot r.2.2 0 = Some v \/
  0 < r.1 <= i /\ slot r.2.2 r.1 = Some v.
Proof.
  induction fuel as [|fuel IH]; intros i ni w h v Hwf Hi Hv Hfuel; [lia|].
  cbv zeta. rewrite SiftUp_loop_S.
  destruct (Z.eqb_spec i 0) as [->|Hi0]; [left; by split|].
  pose proof (Parent_range i ltac:(lia)) as HP.
  destruct (slot_is_Some h (Parent i) Hwf ltac:(lia)) as [p Hp].
  rewrite (CompareElements_in_range compare_ w h i (Parent i) v p)
    by (done || lia).
  destruct (compare_ w v p).
  - rewrite (SwapElements_in_range observer_ w h i (Parent i) v p)
      by (done || lia).
    destruct (IH (Parent i) ni (observer_ p i (observer_ v (Parent i) w))
                (swap_heap h i (Parent i) v p) v) as [Hroot|[Hr Hs]].
    + by apply wf_swap_heap.
    + rewrite size_swap_heap. lia.
    + rewrite (slot_swap_heap h i (Parent i) v p) by done.
      rewrite decide_False by lia. by rewrite decide_True.
    + lia.
    + by left.
    + right. split; [lia|done].
  - rewrite SiftUp_loop_0. cbn [fst snd]. right. split; [lia|done].
Qed.

End HeapFacts.

(** X1. [push] of an element that is not in the heap (its recorded index is
    [kNullIndex]) onto an index-tracked heap that is in heap order and has
    room for one more element: the heap holds the old elements and the new
    one, it is in heap order again, every element's recorded index is its
    slot, and no access leaves the bounds of the vector. *)
Theorem push_keeps_order {T W : Type} `{EqDecision T}
  (compare_ : W -> T -> T -> bool) (observer_ : T -> Z -> W -> W)
  (index_of : W -> T -> option Z) (v : T) (w : W) (h : Heap T) :
  heap_laws compare_ observer_ index_of ->
  tracked index_of w h -> heap_ordered compare_ w h ->
  index_of w v = Some kNullIndex -> size h < kNullIndex ->
  let s' := (push compare_ observer_ v (w, h)).2 in
  live s'.2 ≡ₚ v :: live h /\
  size s'.2 = size h + 1 /\
  heap_ordered compare_ s'.1 s'.2 /\
  tracked index_of s'.1 s'.2 /\
  out_of_range_ s'.2 = out_of_range_ h.
Proof.
  intros [L1 L2 L3 L4 L5] Ht Ho Hv Hsz.
  destruct (push_spec compare_ observer_ index_of L1 L2 L3 L4 L5 v w h Ht Hv Hsz)
    as [Ht' Hl Hs Hf _ Ho' _].
  cbv zeta. split_and!; try done. by apply Ho'.
Qed.

Lemma push_keeps_order_witness :
  let w := segment_of_ example_state in
  let h := free_memory_segments_ example_state in
  let s' := (heap_push 2%nat (w, h)).2 in
  live h = [0; 3; 1]%nat /\
  live s'.2 = [2; 0; 1; 3]%nat /\
  live s'.2 ≡ₚ 2%nat :: live h /\
  size s'.2 = size h + 1 /\
  heap_ordered MemorySegmentSizeCompare s'.1 s'.2 /\
  tracked seg_index s'.1 s'.2 /\
  out_of_range_ s'.2 = out_of_range_ h.
Proof.
  cbv zeta. destruct example_heap as (Ht & Ho & Hl & Hs & _ & Hv).
  split; [exact Hl|]. split; [vm_compute; reflexivity|].
  apply (push_keeps_order MemorySegmentSizeCompare MemorySegmentsHeapObserver
           seg_index 2%nat _ _ seg_heap_laws Ht Ho Hv).
  rewrite Hs. vm_compute. reflexivity.
Defined.

(** X2. What [push] returns. After [push(v)] of an element that is not in
    the heap (its recorded index is [kNullIndex]) onto an index-tracked heap
    with room, [v] rests in one slot [j], which the observer has recorded.
    [push] returns
    [j] when [j] is not the root; when [v] rests in the root it returns the
    number of elements the heap held before, the index [v] was inserted at. *)
Theorem push_returns {T W : Type} `{EqDecision T}
  (compare_ : W -> T -> T -> bool) (observer_ : T -> Z -> W -> W)
  (index_of : W -> T -> option Z) (v : T) (w : W) (h : Heap T) :
  heap_laws compare_ observer_ index_of ->
  tracked index_of w h ->
  index_of w v = Some kNullIndex -> size h < kNullIndex ->
  let r := push compare_ observer_ v (w, h) in
  exists j,
    index_of r.2.1 v = Some j /\
    slot r.2.2 j = Some v /\
    0 <= j <= size h /\
    r.1 = if decide (j = 0) then size h else j.
Proof.
  intros [L1 L2 L3 L4 L5] Ht Hv Hsz.
  pose proof (push_spec compare_ observer_ index_of L1 L2 L3 L4 L5 v w h Ht Hv Hsz)
    as [Ht' _ Hs _ _ _ _].
  pose proof (tracked_wf _ _ _ Ht) as Hwf.
  cbv zeta. revert Ht' Hs. unfold push, SiftUp, NotifyIndexChange.
  rewrite size_push_back.
  replace (to_size_t (size h + 1 - 1)) with (size h)
    by (unfold to_size_t, size in *; rewrite kNullIndex_eq in *; lia).
  set (w1 := observer_ v (size h) w). set (h1 := push_back v h).
  set (fuel := S (S (length (elements_ (w1, h1).2)))).
  intros Ht' Hs.
  assert (Hsz1 : size h1 = size h + 1) by apply size_push_back.
  assert (Hfuel : (Z.to_nat (size h) < fuel)%nat).
  { unfold fuel, h1, size. cbn [snd elements_ push_back].
    rewrite length_app, length_live by done. simpl. lia. }
  destruct (SiftUp_loop_result compare_ observer_ fuel (size h) (size h)
              w1 h1 v) as [[Hr Hroot]|[Hr Hslot]].
  - by apply wf_push_back.
  - unfold size in *. lia.
  - unfold h1. rewrite slot_push_back by done. by rewrite decide_True.
  - done.
  - exists 0. split; [|split; [done|split; [unfold size; lia|]]].
    + apply (tracked_slot _ _ _ Ht'); [unfold size in *; lia|done].
    + by rewrite decide_True.
  - exists (SiftUp_loop compare_ observer_ fuel (size h) (size h) (w1, h1)).1.
    split; [|split; [done|split; [lia|]]].
    + apply (tracked_slot _ _ _ Ht'); [lia|done].
    + by rewrite decide_False by lia.
Qed.

Lemma push_returns_witness :
  let w := segment_of_ example_state in
  let h := free_memory_segments_ example_state in
  let r := heap_push 2%nat (w, h) in
  size h = 3 /\ r.1 = 3 /\ slot r.2.2 0 = Some 2%nat /\
  seg_index r.2.1 2%nat = Some 0.
Proof.
  cbv zeta. destruct example_heap as (Ht & _ & _ & Hs & _ & Hv).
  assert (Hroom : size (free_memory_segments_ example_state) < kNullIndex)
    by (rewrite Hs; vm_compute; reflexivity).
  assert (Hidx : seg_index
            (heap_push 2%nat (segment_of_ example_state,
                              free_memory_segments_ example_state)).2.1 2%nat
          = Some 0) by (vm_compute; reflexivity).
  destruct (push_returns MemorySegmentSizeCompare MemorySegmentsHeapObserver
              seg_index 2%nat _ _ seg_heap_laws Ht Hv Hroom)
    as (j & Hj & Hslot & _ & Hr).
  rewrite Hidx in Hj. injection Hj as <-.
  rewrite Hs in Hr. rewrite decide_True in Hr by done.
  split; [exact Hs|]. split; [exact Hr|]. split; [exact Hslot|exact Hidx].
Defined.

(** X3. [erase] at a valid slot [i] of an index-tracked heap in heap order:
    the element of slot [i] leaves and is told [kNullIndex], the other
    elements stay, are in heap order again and have their slots recorded. The
    vector is read outside its bounds exactly when [i] is the last slot and
    not the root. *)
Theorem erase_removes {T W : Type} `{EqDecision T}
  (compare_ : W -> T -> T -> bool) (observer_ : T -> Z -> W -> W)
  (index_of : W -> T -> option Z) (i : Z) (a : T) (w : W) (h : Heap T) :
  heap_laws compare_ observer_ index_of ->
  tracked index_of w h -> heap_ordered compare_ w h ->
  0 <= i < size h -> slot h i = Some a ->
  let s' := erase compare_ observer_ i (w, h) in
  live h ≡ₚ a :: live s'.2 /\
  size s'.2 = size h - 1 /\
  heap_ordered compare_ s'.1 s'.2 /\
  tracked index_of s'.1 s'.2 /\
  index_of s'.1 a = Some kNullIndex /\
  out_of_range_ s'.2 =
    out_of_range_ h || ((i =? size h - 1) && negb (i =? 0)).
Proof.
  intros [L1 L2 L3 L4 L5] Ht Ho Hi Ha.
  destruct (erase_spec compare_ observer_ index_of L1 L2 L3 L4 L5 i a w h
              Ht Hi Ha) as [? ? ? ? _ ? _ ?].
  - by apply heap_ordered_hole.
  - intros _ H0. apply Ho. lia.
  - done.
Qed.

Lemma erase_removes_witness :
  let w := segment_of_ example_state in
  let h := free_memory_segments_ example_state in
  let s' := heap_erase 2 (w, h) in
  live h = [0; 3; 1]%nat /\
  live h ≡ₚ 1%nat :: live s'.2 /\
  size s'.2 = 2 /\
  heap_ordered MemorySegmentSizeCompare s'.1 s'.2 /\
  seg_index s'.1 1%nat = Some kNullIndex /\
  out_of_range_ h = false /\ out_of_range_ s'.2 = true.
Proof.
  cbv zeta. destruct example_heap as (Ht & Ho & Hl & Hs & Hf & _).
  assert (Hi : 0 <= 2 < size (free_memory_segments_ example_state))
    by (rewrite Hs; lia).
  assert (Ha : slot (free_memory_segments_ example_state) 2 = Some 1%nat)
    by (vm_compute; reflexivity).
  destruct (erase_removes MemorySegmentSizeCompare MemorySegmentsHeapObserver
              seg_index 2 1%nat _ _ seg_heap_laws Ht Ho Hi Ha)
    as (Hperm & Hsize & Hord & _ & Hnull & Hflag).
  rewrite Hs in Hsize, Hflag. rewrite Hf in Hflag.
  split; [exact Hl|]. split; [exact Hperm|]. split; [exact Hsize|].
  split; [exact Hord|]. split; [exact Hnull|]. split; [exact Hf|exact Hflag].
Defined.

(** X4. [top] of an index-tracked heap in heap order is an element of the
    heap that no element compares ahead of; the vector has no element 0
    exactly when the heap is empty. *)
Theorem top_is_first {T W : Type} `{EqDecision T}
  (compare_ : W -> T -> T -> bool) (observer_ : T -> Z -> W -> W)
  (index_of : W -> T -> option Z) (w : W) (h : Heap T) :
  heap_laws compare_ observer_ index_of ->
  tracked index_of w h -> heap_ordered compare_ w h ->
  (top h = None <-> size h = 0) /\
  forall r, top h = Some r ->
    r ∈ live h /\ forall x, x ∈ live h -> compare_ w x r = false.
Proof.
  intros [L1 L2 L3 L4 L5] Ht Ho. pose proof (tracked_wf _ _ _ Ht) as Hwf.
  split.
  - split.
    + intros Hn. destruct (decide (size h = 0)) as [|Hne]; [done|].
      destruct (slot_is_Some h 0 Hwf) as [x Hx]; [unfold size in *; lia|].
      assert (top h = Some x) as Hx'; [|congruence].
      apply top_slot. split; [unfold size in *; lia|done].
    + intros H0. destruct (top h) as [x|] eqn:Hx; [|done].
      apply top_slot in Hx. lia.
  - intros r [Hsz Hr]%top_slot. split; [eapply slot_live; [|done]; lia|].
    intros x (k & Hk & Hx)%live_slot.
    by apply (heap_ordered_root compare_ L3 L5 w h k x r).
Qed.

Lemma top_is_first_witness :
  let w := segment_of_ example_state in
  let h := free_memory_segments_ example_state in
  live h = [0; 3; 1]%nat /\
  top h = Some 0%nat /\
  MemorySegmentSizeCompare w 3%nat 0%nat = false /\
  MemorySegmentSizeCompare w 1%nat 0%nat = false.
Proof.
  cbv zeta. destruct example_heap as (Ht & Ho & Hl & _).
  assert (Htop : top (free_memory_segments_ example_state) = Some 0%nat)
    by (vm_compute; reflexivity).
  destruct (top_is_first MemorySegmentSizeCompare MemorySegmentsHeapObserver
              seg_index _ _ seg_heap_laws Ht Ho) as [_ Hfirst].
  destruct (Hfirst 0%nat Htop) as [_ Hahead].
  split; [exact Hl|]. split; [exact Htop|]. split.
  - apply Hahead. rewrite Hl. repeat constructor.
  - apply Hahead. rewrite Hl. repeat constructor.
Defined.

Lemma pop_is_erase {T W : Type} (compare_ : W -> T -> T -> bool)
  (observer_ : T -> Z -> W -> W) (s : HeapState T W) :
  pop compare_ observer_ s = erase compare_ observer_ 0 s.
Proof. done. Qed.

(** X5. [pop] on a non-empty index-tracked heap in heap order removes the
    element [top] returns: it is told [kNullIndex], the others stay, in heap
    order and with their slots recorded, and no access leaves the bounds of
    the vector. *)
Theorem pop_removes_top {T W : Type} `{EqDecision T}
  (compare_ : W -> T -> T -> bool) (observer_ : T -> Z -> W -> W)
  (index_of : W -> T -> option Z) (r : T) (w : W) (h : Heap T) :
  heap_laws compare_ observer_ index_of ->
  tracked index_of w h -> heap_ordered compare_ w h ->
  top h = Some r ->
  let s' := pop compare_ observer_ (w, h) in
  live h ≡ₚ r :: live s'.2 /\
  size s'.2 = size h - 1 /\
  heap_ordered compare_ s'.1 s'.2 /\
  tracked index_of s'.1 s'.2 /\
  index_of s'.1 r = Some kNullIndex /\
  out_of_range_ s'.2 = out_of_range_ h.
Proof.
  intros [L1 L2 L3 L4 L5] Ht Ho [Hsz Hr]%top_slot. cbv zeta.
  rewrite pop_is_erase.
  destruct (erase_spec compare_ observer_ index_of L1 L2 L3 L4 L5 0 r w h
              Ht ltac:(lia) Hr) as [? ? ? ? _ ? _ Hf].
  - by apply heap_ordered_hole.
  - lia.
  - split_and!; try done. rewrite Hf. simpl. by rewrite andb_false_r, orb_false_r.
Qed.

Lemma pop_removes_top_witness :
  let w := segment_of_ example_state in
  let h := free_memory_segments_ example_state in
  let s' := pop MemorySegmentSizeCompare MemorySegmentsHeapObserver (w, h) in
  live h = [0; 3; 1]%nat /\
  live s'.2 = [3; 1]%nat /\
  live h ≡ₚ 0%nat :: live s'.2 /\
  size s'.2 = size h - 1 /\
  heap_ordered MemorySegmentSizeCompare s'.1 s'.2 /\
  tracked seg_index s'.1 s'.2 /\
  seg_index s'.1 0%nat = Some kNullIndex /\
  out_of_range_ s'.2 = out_of_range_ h.
Proof.
  cbv zeta. destruct example_heap as (Ht & Ho & Hl & _).
  assert (Htop : top (free_memory_segments_ example_state) = Some 0%nat)
    by (vm_compute; reflexivity).
  split; [exact Hl|]. split; [vm_compute; reflexivity|].
  exact (pop_removes_top MemorySegmentSizeCompare MemorySegmentsHeapObserver
           seg_index 0%nat _ _ seg_heap_laws Ht Ho Htop).
Defined.

Section HeapBounds.
Context {T W : Type}.
Variable compare_ : W -> T -> T -> bool.
Variable observer_ : T -> Z -> W -> W.

(** An access outside the bounds is never forgotten, and the operations
    below neither add nor remove elements. *)
Lemma CompareElements_flag i j (s : HeapState T W) :
  out_of_range_ s.2 = true ->
  out_of_range_ (CompareElements compare_ i j s).2.2 = true.
Proof.
  destruct s as [w h]. unfold CompareElements, touch. simpl. intros Hs.
  repeat case_match; simpl; by rewrite Hs.
Qed.

Lemma SwapElements_flag i j (s : HeapState T W) :
  out_of_range_ s.2 = true ->
  out_of_range_ (SwapElements observer_ i j s).2 = true.
Proof.
  destruct s as [w h]. unfold SwapElements, touch. simpl. intros Hs.
  repeat case_match; simpl; by rewrite Hs.
Qed.

Lemma SwapElements_touch i j (s : HeapState T W) :
  ~ 0 <= i < size s.2 ->
  out_of_range_ (SwapElements observer_ i j s).2 = true.
Proof.
  destruct s as [w h]. unfold SwapElements, touch. simpl.
  intros Hi%in_range_false.
  repeat case_match; simpl; rewrite Hi; simpl; by rewrite ?orb_true_r.
Qed.



Lemma SiftUp_loop_flag fuel : forall i ni (s : HeapState T W),
  out_of_range_ s.2 = true ->
  out_of_range_ (SiftUp_loop compare_ observer_ fuel i ni s).2.2 = true.
Proof.
  induction fuel as [|fuel IH]; intros i ni s Hs; [done|].
  rewrite SiftUp_loop_S. destruct (i =? 0); [done|].
  pose proof (CompareElements_flag i (Parent i) s Hs) as Hc.
  destruct (CompareElements compare_ i (Parent i) s) as [[] s1]; simpl in Hc.
  - apply IH. by apply SwapElements_flag.
  - by apply IH.
Qed.

Lemma SiftDown_loop_flag fuel : forall i (s : HeapState T W),
  out_of_range_ s.2 = true ->
  out_of_range_ (SiftDown_loop compare_ observer_ fuel i s).2 = true.
Proof.
  induction fuel as [|fuel IH]; intros i s Hs; [done|].
  cbn [SiftDown_loop]. cbv zeta.
  destruct (LeftSon s.2 i =? kNullIndex); [done|].
  destruct (RightSon s.2 i =? kNullIndex).
  - pose proof (CompareElements_flag (LeftSon s.2 i) i s Hs) as Hc.
    destruct (CompareElements compare_ (LeftSon s.2 i) i s) as [[] s2];
      simpl in Hc; apply IH; [by apply SwapElements_flag|done].
  - pose proof (CompareElements_flag (RightSon s.2 i) (LeftSon s.2 i) s Hs)
      as Hc1.
    destruct (CompareElements compare_ (RightSon s.2 i) (LeftSon s.2 i) s)
      as [ra s1]; simpl in Hc1.
    set (b := if ra then RightSon s.2 i else LeftSon s.2 i).
    pose proof (CompareElements_flag b i s1 Hc1) as Hc2.
    destruct (CompareElements compare_ b i s1) as [[] s2];
      simpl in Hc2; apply IH; [by apply SwapElements_flag|done].
Qed.

Lemma remove_back_flag (s : HeapState T W) :
  out_of_range_ s.2 = true ->
  out_of_range_ (remove_back observer_ s).2 = true.
Proof.
  destruct s as [w h]. unfold remove_back, pop_back. simpl. intros Hs.
  case_match; simpl; by rewrite Hs.
Qed.

Lemma erase_flag i (s : HeapState T W) :
  ~ 0 <= i < size s.2 ->
  out_of_range_ (erase compare_ observer_ i s).2 = true.
Proof.
  intros Hi. unfold erase, SiftDown. apply SiftDown_loop_flag.
  unfold SiftUp. apply SiftUp_loop_flag, remove_back_flag.
  by apply SwapElements_touch.
Qed.

End HeapBounds.

(** X6. The heap checks no index. [erase] with an index that is not below
    [size()] reads the vector outside its bounds, whatever the heap holds,
    and so does [pop] on an empty heap. *)
Theorem erase_unchecked {T W : Type}
  (compare_ : W -> T -> T -> bool) (observer_ : T -> Z -> W -> W)
  (i : Z) (w : W) (h : Heap T) :
  ~ 0 <= i < size h ->
  out_of_range_ (erase compare_ observer_ i (w, h)).2 = true /\
  (size h = 0 -> out_of_range_ (pop compare_ observer_ (w, h)).2 = true).
Proof.
  intros Hi. split; [by apply erase_flag|].
  intros H0. rewrite pop_is_erase. apply erase_flag. simpl. lia.
Qed.

Lemma erase_unchecked_witness :
  out_of_range_
    (heap_erase 0 ({[ 0%nat := MemorySegment_new 0 10 ]}, empty_heap)).2
  = true.
Proof.
  refine (proj1 (erase_unchecked MemorySegmentSizeCompare
                   MemorySegmentsHeapObserver 0
                   {[ 0%nat := MemorySegment_new 0 10 ]} empty_heap _)).
  unfold size. simpl. lia.
Defined.



Section HeapLoops.
Context {T W : Type}.
Variable compare_ : W -> T -> T -> bool.
Variable observer_ : T -> Z -> W -> W.






End HeapLoops.





(** ** Segments *)

(** X10. [Unite] on two segments of the address space, each with its left
    end not above its right end. It throws exactly when neither segment ends
    where the other starts. When the first ends where the second starts, the
    result spans both, is marked allocated, holds as many cells as the two
    together, and is the same whichever of the two the method is called
    on. *)
Theorem Unite_adjacent (a b : MemorySegment) :
  0 <= left a <= right a -> 0 <= left b <= right b ->
  is_int (right a) -> is_int (right b) ->
  (Unite a b = Thrown runtime_error <->
     left a <> right b /\ right a <> left b) /\
  (right a = left b ->
     exists u,
       Unite a b = Done u /\ Unite b a = Done u /\
       left u = left a /\ right u = right b /\
       heap_index u = kNullIndex /\
       Size u = Size a + Size b).
Proof.
  intros Ha Hb Hia Hib. unfold is_int in *. split.
  - unfold Unite.
    destruct (Z.eqb_spec (left a) (right b));
      destruct (Z.eqb_spec (right a) (left b)); split; try done; lia.
  - intros Hadj.
    assert (Hu : forall l r, 0 <= l <= r -> r < 2 ^ 31 ->
              MemorySegment_new l r = mkSegment l r kNullIndex).
    { intros l r Hl Hr. unfold MemorySegment_new.
      by rewrite !to_int_id by (unfold is_int; lia). }
    exists (mkSegment (left a) (right b) kNullIndex).
    rewrite !Size_sorted by (simpl; unfold is_int; lia). simpl.
    split_and!; try done; try lia.
    + unfold Unite. destruct (Z.eqb_spec (left a) (right b)) as [E|E].
      * rewrite Hu by lia. do 2 f_equal; lia.
      * rewrite (proj2 (Z.eqb_eq _ _) Hadj). by rewrite Hu by lia.
    + unfold Unite. rewrite (proj2 (Z.eqb_eq (left b) (right a))) by done.
      rewrite Hu by lia. do 2 f_equal; lia.
Qed.

Lemma Unite_adjacent_witness :
  exists u,
    Unite (MemorySegment_new 0 3) (MemorySegment_new 3 10) = Done u /\
    Size u = Size (MemorySegment_new 0 3) + Size (MemorySegment_new 3 10).
Proof.
  destruct (Unite_adjacent (MemorySegment_new 0 3) (MemorySegment_new 3 10))
    as [_ Hu].
  - vm_compute. split; discriminate.
  - vm_compute. split; discriminate.
  - vm_compute. split; [discriminate|reflexivity].
  - vm_compute. split; [discriminate|reflexivity].
  - destruct (Hu eq_refl) as (u & E & _ & _ & _ & _ & Hs).
    exists u. split; [exact E|exact Hs].
Defined.

(** X11. [MemorySegmentSizeCompare] is a strict weak ordering of the
    segments the iterators point to: no segment is ahead of itself, being
    ahead is transitive, and so is not being ahead. Two segments of which
    neither is ahead of the other have the same size and the same left
    end. *)
Theorem MemorySegmentSizeCompare_order (w : nodes) :
  (forall a, MemorySegmentSizeCompare w a a = false) /\
  (forall a b c,
     MemorySegmentSizeCompare w a b = true ->
     MemorySegmentSizeCompare w b c = true ->
     MemorySegmentSizeCompare w a c = true) /\
  (forall a b c,
     MemorySegmentSizeCompare w a b = false ->
     MemorySegmentSizeCompare w b c = false ->
     MemorySegmentSizeCompare w a c = false) /\
  (forall a b,
     MemorySegmentSizeCompare w a b = false ->
     MemorySegmentSizeCompare w b a = false ->
     Size (w !!! a) = Size (w !!! b) /\ left (w !!! a) = left (w !!! b)).
Proof.
  split_and!.
  - apply seg_compare_irrefl.
  - apply seg_compare_trans.
  - apply seg_compare_negtrans.
  - intros a b. unfold MemorySegmentSizeCompare. cbv zeta.
    destruct (Z.eqb_spec (Size (w !!! a)) (Size (w !!! b)));
      destruct (Z.eqb_spec (Size (w !!! b)) (Size (w !!! a))); lia.
Qed.

(** ** The manager *)

Lemma spans_adjacent lo hi (b1 : list block) ba bp (b2 : list block) :
  spans lo hi (b1 ++ ba :: bp :: b2) -> block_right ba = block_left bp.
Proof. intros [_ Hs]%spans_middle. simpl in Hs. by destruct Hs. Qed.

Lemma invariant_block M m seg n :
  invariant M m -> n ∈ memory_segments_ m -> segment_of_ m !! n = Some seg ->
  0 <= left seg /\ is_int (left seg) /\ is_int (right seg) /\
  ((1 < length (memory_segments_ m))%nat -> left seg <= right seg).
Proof.
  intros Hinv Hn Hseg.
  pose proof (inv_laid_out _ _ Hinv) as Hlo.
  assert (Hb : block_at m n ∈ blocks m).
  { unfold blocks. apply list_elem_of_fmap. by exists n. }
  pose proof (lo_int _ _ Hlo) as Hall. rewrite Forall_forall in Hall.
  destruct (Hall _ Hb) as (H0 & Hi & Hr).
  rewrite (block_at_lookup m n seg Hseg) in H0, Hi, Hr, Hb. simpl in *.
  split_and!; try done. intros Hlen.
  pose proof (lo_sorted _ _ Hlo) as Hs.
  specialize (Hs ltac:(unfold blocks; by rewrite length_fmap)).
  rewrite Forall_forall in Hs. by apply Hs in Hb.
Qed.

(** X12. A manager built over [memory_size] cells, [memory_size] within the
    range of [int], starts as one free segment [[0, memory_size)]. It refuses
    every request for more, and grants a request for all of it at address 0;
    after that the whole memory is one allocated segment and every request,
    of any size, is refused. *)
Theorem fresh_manager (M : Z) :
  0 <= M <= INT_MAX ->
  blocks (MemoryManager_new M) = [mkBlock 0 M true] /\
  (forall s, M < s < 2 ^ 64 ->
     Allocate s (MemoryManager_new M) = Done (None, MemoryManager_new M)) /\
  exists m',
    Allocate M (MemoryManager_new M) = Done (Some 0%nat, m') /\
    blocks m' = [mkBlock 0 M false] /\
    forall s, Allocate s m' = Done (None, m').
Proof.
  intros HM. unfold INT_MAX in HM.
  destruct (MemoryManager_new_spec M) as (Hc & Hl & Hb).
  rewrite to_int_id in Hb by (unfold is_int; lia).
  pose proof (MemoryManager_new_invariant M) as Hinv.
  set (m := MemoryManager_new M) in *.
  destruct (invariant_lookup M m 0%nat Hinv) as (seg & Hseg & Hbs);
    [rewrite Hl; set_solver|].
  assert (Hb0 : block_at m 0%nat = mkBlock 0 M true).
  { unfold blocks in Hb. rewrite Hl in Hb. simpl in Hb. by simplify_eq. }
  rewrite Hbs in Hb0. injection Hb0 as Hleft Hright Hfree.
  assert (HS : Size seg = M).
  { rewrite Size_sorted; unfold is_int; lia. }
  assert (Hfs : free_segment m 0%nat seg).
  { split; [rewrite Hl; set_solver|done]. }
  assert (Hne : size (free_memory_segments_ m) <> 0).
  { apply (free_segment_live m _ _ Hc) in Hfs.
    apply live_slot in Hfs as (k & Hk & _). lia. }
  assert (Hcases : forall s, is_size_t s ->
    exists l1 l2, memory_segments_ m = l1 ++ 0%nat :: l2 /\
      (Size seg < s /\ Allocate s m = Done (None, m) \/
       s = Size seg /\
         (exists m', Allocate s m = Done (Some 0%nat, m') /\
            live (free_memory_segments_ m)
              ≡ₚ 0%nat :: live (free_memory_segments_ m') /\
            consistent m' /\
            blocks m' =
              (block_at m <$> l1) ++ mkBlock (left seg) (right seg) false
                                  :: (block_at m <$> l2)) \/
       s < Size seg)).
  { intros s Hs.
    destruct (Allocate_cases M m s Hinv Hs)
      as [[H0 _]|(t & tseg & l1 & l2 & Ht & Htseg & _ & Hlt & Hcase)];
      [done|].
    assert (t = 0%nat) as ->.
    { assert (t ∈ memory_segments_ m) as Hin by (rewrite Hlt; set_solver).
      rewrite Hl in Hin. set_solver. }
    assert (tseg = seg) as -> by congruence.
    exists l1, l2. split; [done|].
    destruct Hcase as [?|[[-> (m' & E & Hinv' & _ & _ & _ & Hp & Hb')]|[? _]]];
      [by left| |by right; right].
    right. left. split; [done|]. exists m'. split_and!; try done.
    apply Hinv'. }
  split; [done|]. split.
  - intros s Hs. destruct (Hcases s) as (_ & _ & _ & [[_ E]|[[E _]|E]]);
      [unfold is_size_t; lia|done|lia..].
  - destruct (Hcases M) as (l1 & l2 & Hl12 & [[E _]|[[_ Hex]|E]]);
      [unfold is_size_t; lia|lia| |lia].
    destruct Hex as (m' & E & Hp & Hc' & Hb').
    rewrite Hl in Hl12.
    assert (l1 = [] /\ l2 = []) as [-> ->].
    { destruct l1 as [|x l1]; [by simplify_eq/=|].
      simplify_eq/=. by destruct l1. }
    exists m'. split; [done|]. split; [by rewrite Hb', Hleft, Hright|].
    assert (Hlen : (length (live (free_memory_segments_ m)) <= 1)%nat).
    { assert (live (free_memory_segments_ m) ⊆+ [0%nat]) as Hsub.
      { apply NoDup_submseteq;
          [apply (tracked_NoDup seg_index _ _ (c_tracked _ Hc))|].
        intros n Hn. apply (live_in_list m n Hc) in Hn as [Hn _].
        by rewrite Hl in Hn. }
      by apply submseteq_length in Hsub. }
    apply Permutation_length in Hp. simpl in Hp.
    assert (size (free_memory_segments_ m') = 0) as H0.
    { rewrite length_live in Hp
        by apply (tracked_wf _ _ _ (c_tracked _ Hc')).
      unfold size. lia. }
    intros s. unfold Allocate. by rewrite H0.
Qed.

Lemma fresh_manager_witness :
  blocks (MemoryManager_new 10) = [mkBlock 0 10 true] /\
  exists m', Allocate 10 (MemoryManager_new 10) = Done (Some 0%nat, m').
Proof.
  assert (HM : 0 <= 10 <= INT_MAX) by (unfold INT_MAX; lia).
  destruct (fresh_manager 10 HM) as (Hb & _ & m' & E & _).
  split; [exact Hb|]. exists m'. exact E.
Defined.

Lemma Size_extent seg seg' :
  left seg' = left seg -> right seg' = right seg -> Size seg' = Size seg.
Proof. unfold Size. by intros -> ->. Qed.

Lemma block_at_extent m n seg l r f :
  segment_of_ m !! n = Some seg -> block_at m n = mkBlock l r f ->
  left seg = l /\ right seg = r /\ is_free seg = f.
Proof.
  intros Hseg Hb. rewrite (block_at_lookup m n seg Hseg) in Hb.
  by injection Hb.
Qed.

(** What a successful [Allocate] does to the allocated segments. *)
Lemma Allocate_handle_facts M m s handle m' :
  invariant M m -> is_size_t s ->
  Allocate s m = Done (Some handle, m') ->
  (exists hseg,
     segment_of_ m' !! handle = Some hseg /\
     Size hseg = s /\ heap_index hseg = kNullIndex) /\
  ~ allocated m handle /\
  (forall q, allocated m q ->
     allocated m' q /\ block_at m' q = block_at m q) /\
  (forall q, allocated m' q -> q = handle \/ allocated m q).
Proof.
  intros Hinv Hs Ha.
  pose proof (inv_consistent _ _ Hinv) as Hc.
  destruct (Allocate_allocated M m s _ m' Hinv Hs Ha) as (_ & Hold & Hnew).
  destruct (Hnew handle eq_refl) as [Hal Hnot].
  assert (Hinv' : invariant M m') by by eapply Allocate_invariant.
  pose proof (inv_consistent _ _ Hinv') as Hc'.
  destruct (invariant_lookup M m' handle Hinv' (proj1 Hal))
    as (hseg & Hh & Hbh).
  assert (Hnull : heap_index hseg = kNullIndex).
  { destruct Hal as [_ Hi]. rewrite (seg_index_Some _ _ _ Hh) in Hi.
    by simplify_eq. }
  destruct (Allocate_cases M m s Hinv Hs)
    as [[_ E]|(t & seg & l1 & l2 & Ht & Hseg & Hfree & Hl &
               [[_ E]|[[-> (m1 & E & _ & Hl' & _ & _ & _ & Hb')]
                      |[Hlt (m1 & E & _ & Hl' & _ & Hfresh & _ & Hb')]]])];
    rewrite E in Ha; simplify_eq.
  - (* the top segment, whole *)
    rewrite Hl in Hl'.
    destruct (blocks_inj_1 m' l1 handle l2 _ _ _ Hl' Hb'
                ltac:(by rewrite length_fmap)) as (H1 & Ht' & H2).
    destruct (block_at_extent m' handle hseg _ _ _ Hh Ht') as (HL & HR & _).
    assert (Hsame : forall q, q ∈ l1 ++ l2 -> block_at m' q = block_at m q).
    { intros q [?|?]%elem_of_app;
        [by apply (fmap_eq_elem _ _ l1)|by apply (fmap_eq_elem _ _ l2)]. }
    split_and!; try done.
    + exists hseg. split_and!; try done. by apply Size_extent.
    + intros q Hq. split; [by apply Hold|]. apply Hsame.
      pose proof Hq as [Hqm Hqi]. rewrite Hl in Hqm.
      assert (q <> handle) by (intros ->; by apply Hnot).
      set_solver.
    + intros q Hq. destruct (decide (q = handle)) as [|Hne]; [by left|].
      right. apply (allocated_iff_block m' q Hc') in Hq as [Hqm Hqf].
      apply (allocated_iff_block m q Hc). rewrite Hl' in Hqm.
      split; [rewrite Hl; set_solver|]. rewrite <- Hsame; [done|set_solver].
  - (* split *)
    set (a := next_node_ m) in *.
    destruct (blocks_inj_1 m' l1 a (t :: l2) _ _ _ Hl' Hb'
                ltac:(by rewrite length_fmap)) as (H1 & Ha' & H2).
    rewrite fmap_cons in H2. apply cons_eq_split in H2 as [Ht' H2].
    destruct (block_at_extent m' a hseg _ _ _ Hh Ha') as (HL & HR & _).
    assert (Hsame : forall q, q ∈ l1 ++ l2 -> block_at m' q = block_at m q).
    { intros q [?|?]%elem_of_app;
        [by apply (fmap_eq_elem _ _ l1)|by apply (fmap_eq_elem _ _ l2)]. }
    assert (Htm : t ∈ memory_segments_ m) by (rewrite Hl; set_solver).
    destruct (invariant_block M m seg t Hinv Htm Hseg) as (H0 & Hi & Hri & _).
    pose proof (Size_positive seg ltac:(unfold is_size_t in Hs; lia)) as Hle.
    rewrite (Size_sorted seg H0 Hri Hle) in Hlt.
    assert (Hnt : ~ allocated m t).
    { intros [_ Hi']. rewrite (seg_index_Some _ _ _ Hseg) in Hi'.
      apply is_free_true in Hfree. by simplify_eq. }
    split_and!; try done.
    + exists hseg. split_and!; try done.
      unfold is_int, is_size_t in *.
      rewrite Size_sorted by (rewrite ?HL, ?HR; unfold is_int; lia). lia.
    + intros q Hq. split; [by apply Hold|]. apply Hsame.
      pose proof Hq as [Hqm Hqi]. rewrite Hl in Hqm.
      assert (q <> t) by (intros ->; by apply Hnt).
      set_solver.
    + intros q Hq. destruct (decide (q = a)) as [|Hne]; [by left|].
      right. apply (allocated_iff_block m' q Hc') in Hq as [Hqm Hqf].
      apply (allocated_iff_block m q Hc). rewrite Hl' in Hqm.
      assert (q <> t) by (intros ->; rewrite Ht' in Hqf; done).
      split; [rewrite Hl; set_solver|]. rewrite <- Hsame; [done|set_solver].
Qed.

(** X13. A successful [Allocate(s)] on a reachable state hands out exactly
    [s] cells: the segment of the handle has size [s] and is marked
    allocated. The handle was not an allocated segment before; every segment
    allocated before is still allocated and keeps its range; and no other
    segment has become allocated. *)
Theorem Allocate_hands_out M m s handle m' :
  reachable M m -> is_size_t s ->
  Allocate s m = Done (Some handle, m') ->
  (exists hseg,
     segment_of_ m' !! handle = Some hseg /\
     Size hseg = s /\ heap_index hseg = kNullIndex) /\
  ~ allocated m handle /\
  (forall q, allocated m q ->
     allocated m' q /\ block_at m' q = block_at m q) /\
  (forall q, allocated m' q -> q = handle \/ allocated m q).
Proof.
  intros Hr Hs Ha.
  by apply (Allocate_handle_facts M m s handle m' (reachable_invariant M m Hr)).
Qed.

Lemma Allocate_hands_out_witness :
  exists handle m' hseg,
    Allocate 3 (MemoryManager_new 10) = Done (Some handle, m') /\
    segment_of_ m' !! handle = Some hseg /\ Size hseg = 3.
Proof.
  assert (Hr : reachable 10 (MemoryManager_new 10)) by apply reachable_new.
  assert (Hs : is_size_t 3) by (unfold is_size_t; lia).
  assert (E : exists handle m',
             Allocate 3 (MemoryManager_new 10) = Done (Some handle, m')).
  { vm_compute. eexists _, _. reflexivity. }
  destruct E as (handle & m' & E).
  destruct (Allocate_hands_out 10 (MemoryManager_new 10) 3 handle m' Hr Hs E)
    as ((hseg & Hh & HS & _) & _).
  by exists handle, m', hseg.
Defined.

(** X14. [Free] on an allocated handle of a reachable state with room in
    the heap returns the cells: afterwards the handle names a free segment
    that covers the range it had, so every request up to the freed size is
    granted again. Every other allocated segment stays allocated and keeps
    its range, and no segment has become allocated. *)
Theorem Free_returns M m p pseg :
  reachable M m -> allocated m p -> has_room m ->
  segment_of_ m !! p = Some pseg ->
  exists m' seg',
    Free p m = Done m' /\
    free_segment m' p seg' /\
    left seg' <= left pseg /\ right pseg <= right seg' /\
    Size pseg <= Size seg' /\
    (forall q, allocated m q -> q <> p ->
       allocated m' q /\ block_at m' q = block_at m q) /\
    (forall q, allocated m' q -> allocated m q /\ q <> p) /\
    (forall s, 0 <= s <= Size pseg ->
       exists handle m'', Allocate s m' = Done (Some handle, m'')).
Proof.
  intros Hr Hal Hroom Hp. pose proof (reachable_invariant M m Hr) as Hinv.
  pose proof (inv_consistent _ _ Hinv) as Hc.
  destruct (list_elem_of_split _ _ (proj1 Hal)) as (l1 & l2 & Hl).
  destruct (Free_spec M m p l1 l2 Hinv Hal Hl ltac:(done))
    as (m' & l1' & l2' & E & Hinv' & _ & Hl' & Hf & Hrest & Hleft & Hright).
  pose proof (inv_consistent _ _ Hinv') as Hc'.
  assert (Hpm' : p ∈ memory_segments_ m') by (rewrite Hl'; set_solver).
  destruct (invariant_lookup M m' p Hinv' Hpm') as (seg' & Hp' & Hbp').
  pose proof (block_at_lookup m p pseg Hp) as Hbp.
  rewrite Hbp' in Hf, Hleft, Hright. rewrite Hbp in Hleft, Hright.
  cbn [block_left block_right block_free] in Hf, Hleft, Hright.
  pose proof (inv_laid_out _ _ Hinv) as Hlo.
  assert (HL : left seg' <= left pseg).
  { destruct Hleft as [(_ & _ & ->)|(a & -> & Hfa & ->)]; [done|].
    rewrite <- app_assoc in Hl. simpl in Hl.
    destruct (invariant_lookup M m a Hinv) as (aseg & Ha & Hba);
      [rewrite Hl; set_solver|].
    rewrite Hba. simpl.
    destruct (invariant_block M m aseg a Hinv) as (_ & _ & _ & Hs);
      [rewrite Hl; set_solver|done|].
    specialize (Hs ltac:(rewrite Hl, length_app; simpl; lia)).
    pose proof (lo_spans _ _ Hlo) as Hsp. unfold blocks in Hsp.
    rewrite Hl, fmap_app, !fmap_cons in Hsp.
    apply spans_adjacent in Hsp. rewrite Hba, Hbp in Hsp. simpl in Hsp.
    lia. }
  assert (HR : right pseg <= right seg').
  { destruct Hright as [(_ & _ & ->)|(b & -> & Hfb & ->)]; [done|].
    destruct (invariant_lookup M m b Hinv) as (bseg & Hb & Hbb);
      [rewrite Hl; set_solver|].
    rewrite Hbb. simpl.
    destruct (invariant_block M m bseg b Hinv) as (_ & _ & _ & Hs);
      [rewrite Hl; set_solver|done|].
    specialize (Hs ltac:(rewrite Hl, length_app; simpl; lia)).
    pose proof (lo_spans _ _ Hlo) as Hsp. unfold blocks in Hsp.
    rewrite Hl, fmap_app, !fmap_cons in Hsp.
    apply spans_adjacent in Hsp. rewrite Hbb, Hbp in Hsp. simpl in Hsp.
    lia. }
  assert (HS : Size pseg <= Size seg').
  { destruct (decide (left pseg <= right pseg)) as [Hle|Hgt].
    - destruct (invariant_block M m pseg p Hinv (proj1 Hal) Hp)
        as (H0 & _ & Hri & _).
      destruct (invariant_block M m' seg' p Hinv' Hpm' Hp')
        as (H0' & _ & Hri' & _).
      rewrite (Size_sorted pseg), (Size_sorted seg') by (done || lia). lia.
    - unfold Size at 1. replace (right pseg >=? left pseg) with false by lia.
      apply Size_nonneg. }
  assert (Hfs : free_segment m' p seg') by done.
  assert (Hnd : NoDup (l1 ++ p :: l2)) by (rewrite <- Hl; apply Hc).
  exists m', seg'. split_and!; try done.
  - intros q Hq Hqp.
    pose proof Hq as [Hqm Hqf]%(allocated_iff_block m q Hc).
    assert (q ∈ l1' ++ l2') as Hin.
    { rewrite Hl in Hqm.
      apply elem_of_app in Hqm as [Hq1|[->|Hq2]%elem_of_cons]; [|done|].
      - destruct Hleft as [(-> & _)|(a & -> & Hfa & _)]; [set_solver|].
        apply elem_of_app in Hq1 as [?|Hqa%list_elem_of_singleton];
          [set_solver|]. subst q. congruence.
      - destruct Hright as [(-> & _)|(b & -> & Hfb & _)]; [set_solver|].
        apply elem_of_cons in Hq2 as [->|?]; [congruence|set_solver]. }
    split; [|by apply Hrest].
    apply (allocated_iff_block m' q Hc').
    split; [rewrite Hl'; set_solver|]. by rewrite (Hrest q Hin).
  - intros q Hq.
    pose proof Hq as [Hqm Hqf]%(allocated_iff_block m' q Hc').
    assert (Hqp : q <> p) by (intros ->; rewrite Hbp' in Hqf; simpl in Hqf;
                               congruence).
    split; [|done].
    assert (q ∈ l1' ++ l2') as Hin by (rewrite Hl' in Hqm; set_solver).
    apply (allocated_iff_block m q Hc). rewrite <- (Hrest q Hin).
    split; [|done]. rewrite Hl.
    apply elem_of_app in Hin as [Hq1|Hq2].
    + destruct Hleft as [(-> & _)|(a & -> & _)]; set_solver.
    + destruct Hright as [(-> & _)|(b & -> & _)]; set_solver.
  - intros s Hs.
    assert (is_size_t s) as Hst.
    { unfold is_size_t. split; [lia|].
      assert (Size pseg < 2 ^ 64); [|lia].
      unfold Size, to_size_t. case_match; lia. }
    destruct (Allocate_success M m' s Hinv' Hst) as (it & m'' & Ea & Hiff & _).
    destruct (proj2 Hiff) as [h Hh]; [exists p, seg'; split; [done|lia]|].
    subst it. by exists h, m''.
Qed.

Lemma Free_returns_witness :
  exists handle m1 m2,
    Allocate 3 (MemoryManager_new 10) = Done (Some handle, m1) /\
    Free handle m1 = Done m2 /\
    exists h' m3, Allocate 3 m2 = Done (Some h', m3).
Proof.
  assert (E : exists handle m1 pseg,
             Allocate 3 (MemoryManager_new 10) = Done (Some handle, m1) /\
             segment_of_ m1 !! handle = Some pseg /\
             size (free_memory_segments_ m1) <? kNullIndex = true /\
             3 <=? Size pseg = true).
  { eexists _, _, _. split; [vm_compute; reflexivity|].
    split; [vm_compute; reflexivity|]. split; vm_compute; reflexivity. }
  destruct E as (handle & m1 & pseg & E & Hp & Hroom & Hsize).
  assert (Hs : is_size_t 3) by (unfold is_size_t; lia).
  assert (Hr : reachable 10 m1).
  { eapply reachable_Allocate; [apply reachable_new|exact Hs|exact E]. }
  assert (Hal : allocated m1 handle).
  { eapply (Allocate_allocated 10 (MemoryManager_new 10) 3);
      [apply MemoryManager_new_invariant|exact Hs|exact E|reflexivity]. }
  destruct (Free_returns 10 m1 handle pseg Hr Hal
              ltac:(unfold has_room; lia) Hp)
    as (m2 & seg' & EF & _ & _ & _ & _ & _ & _ & Hagain).
  destruct (Hagain 3 ltac:(lia)) as (h' & m3 & E3).
  exists handle, m1, m2. split; [exact E|]. split; [exact EF|].
  exists h', m3. exact E3.
Defined.







(** ** The driver *)

Lemma block_bounds M m n seg :
  invariant M m -> 0 <= M <= INT_MAX ->
  n ∈ memory_segments_ m -> segment_of_ m !! n = Some seg ->
  0 <= left seg /\ left seg <= right seg /\ right seg <= M.
Proof.
  intros Hinv HM Hn Hseg.
  destruct (laid_out_partitions M (blocks m) HM (inv_laid_out _ _ Hinv))
    as (_ & Hsp & Hsorted).
  destruct (spans_ascending 0 M (blocks m) Hsp Hsorted) as (_ & Hin & _).
  assert (Hb : block_at m n ∈ blocks m).
  { unfold blocks. apply list_elem_of_fmap. by exists n. }
  rewrite Forall_forall in Hsorted. specialize (Hsorted _ Hb).
  destruct (Hin _ Hb) as [H0 HR].
  rewrite (block_at_lookup m n seg Hseg) in Hsorted, H0, HR. simpl in *.
  lia.
Qed.

(** An answer to an allocation request of [v] cells in a memory of [M]: the
    failure mark, or a 1-indexed address from which [v] cells fit. *)
Definition answer_in_range (M v a : Z) : Prop :=
  a = -1 \/ 1 <= a /\ a - 1 + v <= M.

Lemma run_queries_in_range M n rest : forall pre hs r,
  0 <= M <= INT_MAX ->
  serving M n pre hs r ->
  valid_stream pre rest = true -> Forall is_int rest ->
  (length pre + length rest = n)%nat -> Z.of_nat n < 2 ^ 32 ->
  exists r' out,
    run_queries (length pre) (read_query <$> rest) r = Done r' /\
    OutputMemoryManagerResponses (responses r') =
      OutputMemoryManagerResponses (responses r) ++ out /\
    Forall2 (answer_in_range M) (filter (fun v => 0 <= v) rest) out.
Proof.
  induction rest as [|v rest IH]; intros pre hs r HM Hsv Hvalid Hint Hlen Hn.
  { exists r, []. rewrite app_nil_r. by split_and!. }
  simpl in Hvalid. apply andb_true_iff in Hvalid as [Hv Hvalid].
  apply Forall_cons in Hint as [Hvi Hint]. simpl in Hlen.
  rewrite fmap_cons. cbn [run_queries].
  destruct (Z.leb_spec 0 v) as [H0|H0].
  - destruct (serve_allocation M n pre hs r v Hsv Hvi H0 ltac:(lia))
      as (it & m' & r1 & E & Hrun & Hm & Hout & Hsv1).
    destruct (IH (pre ++ [v]) (hs ++ [it]) r1 HM Hsv1 Hvalid Hint)
      as (r' & out & Hrun' & Hout' & Hall);
      [rewrite length_app; simpl; lia|done|].
    rewrite length_app, Nat.add_1_r in Hrun'.
    rewrite Hrun. cbn [mbind result_bind].
    eexists r', _. split; [done|].
    rewrite Hout', Hout, <- app_assoc. split; [done|].
    rewrite filter_cons_True by done. simpl. constructor; [|done].
    destruct it as [h|]; [|by left]. right.
    pose proof (reachable_invariant M _ (sv_reachable _ _ _ _ _ Hsv)) as Hinv.
    pose proof (reachable_invariant M _ (sv_reachable _ _ _ _ _ Hsv1)) as Hinv'.
    rewrite Hm in Hinv'.
    assert (Hs : is_size_t v) by (unfold is_int, is_size_t in *; lia).
    destruct (Allocate_handle_facts M _ v h m' Hinv Hs E)
      as ((hseg & Hh & HS & _) & _).
    destruct (Allocate_allocated M _ v _ m' Hinv Hs E) as (_ & _ & Hnew).
    destruct (Hnew h eq_refl) as [[Hhm _] _].
    destruct (block_bounds M m' h hseg Hinv' HM Hhm Hh) as (Hl0 & Hlr & HrM).
    rewrite (lookup_total_correct _ _ _ Hh).
    rewrite Size_sorted in HS by (unfold is_int, INT_MAX in *; lia). lia.
  - simpl in Hv.
    destruct (serve_free M n pre hs r v Hsv Hvi H0 Hv ltac:(lia) Hn)
      as (r1 & Hrun & Hresp & Hsv1 & _).
    destruct (IH (pre ++ [v]) (hs ++ [None]) r1 HM Hsv1 Hvalid Hint)
      as (r' & out & Hrun' & Hout' & Hall);
      [rewrite length_app; simpl; lia|done|].
    rewrite length_app, Nat.add_1_r in Hrun'.
    rewrite Hrun. cbn [mbind result_bind].
    exists r', out. split; [done|]. rewrite <- Hresp. split; [done|].
    by rewrite filter_cons_False by lia.
Qed.

(** X16. On a stream whose free requests name earlier requests and name no
    allocation request twice, with a memory size within the range of [int],
    every number the driver prints for an allocation request of [v] cells is
    -1 or an address [a] with [1 <= a] and [a - 1 + v <= memory_size]: the
    cells handed out lie inside the memory. *)
Theorem driver_in_range M values :
  0 <= M <= INT_MAX -> Forall is_int values ->
  Z.of_nat (length values) < 2 ^ 32 ->
  valid_stream [] values = true ->
  exists out,
    main (M :: Z.of_nat (length values) :: values) = Done out /\
    Forall2 (answer_in_range M) (filter (fun v => 0 <= v) values) out.
Proof.
  intros HM Hint Hn Hvalid.
  assert (Hread : ReadMemoryManagerQueries (Z.of_nat (length values) :: values)
                  = read_query <$> values).
  { unfold ReadMemoryManagerQueries. cbn [extract].
    replace (Z.to_nat (Z.of_nat (length values) mod 2 ^ 32))
      with (length values) by lia.
    apply read_queries_fmap. }
  set (r0 := {| memory_manager := MemoryManager_new M;
                results := replicate (length (read_query <$> values)) None;
                responses := [] |}).
  assert (Hsv : serving M (length values) [] [] r0).
  { split; [apply reachable_new|done| | |done..].
    - simpl. by rewrite length_fmap, Nat.sub_0_r.
    - unfold r0. cbn [memory_manager]. by rewrite next_node_new. }
  destruct (run_queries_in_range M (length values) values [] [] r0 HM Hsv
              Hvalid Hint eq_refl Hn) as (r' & out & Hrun & Hout & Hall).
  exists out. split; [|done].
  unfold main, ReadMemorySize. cbn [extract].
  rewrite (to_size_t_id M) by (unfold is_size_t, INT_MAX in *; lia).
  rewrite Hread. unfold RunMemoryManager.
  fold r0. simpl in Hrun. rewrite Hrun. cbn [mbind result_bind].
  by rewrite Hout.
Qed.

Lemma driver_in_range_witness :
  exists out,
    main [10; 5; 3; 3; 3; -1; 3] = Done out /\
    Forall2 (answer_in_range 10) [3; 3; 3; 3] out.
Proof.
  assert (HM : 0 <= 10 <= INT_MAX) by (unfold INT_MAX; lia).
  assert (Hint : Forall is_int [3; 3; 3; -1; 3])
    by (repeat constructor; unfold is_int; lia).
  assert (Hn : Z.of_nat (length [3; 3; 3; -1; 3]) < 2 ^ 32) by (simpl; lia).
  assert (Hvalid : valid_stream [] [3; 3; 3; -1; 3] = true) by reflexivity.
  destruct (driver_in_range 10 [3; 3; 3; -1; 3] HM Hint Hn Hvalid)
    as (out & E & Hall).
  exists out. split; [exact E|exact Hall].
Defined.

(** X17. The constructor stores [memory_size] in an [int], and the manager
    serves what it stored: in every reachable state a request for more cells
    than [memory_size], converted to [int], amounts to is refused and the
    state stays as it is. A manager built with a [memory_size] that the
    conversion makes negative or zero refuses every request of positive
    size. *)
Theorem Allocate_beyond_memory M m s :
  reachable M m -> is_size_t s -> Z.max 0 (to_int M) < s ->
  Allocate s m = Done (None, m).
Proof.
  intros Hr Hs Hbig. pose proof (reachable_invariant M m Hr) as Hinv.
  pose proof (inv_laid_out _ _ Hinv) as Hlo.
  destruct (Allocate_success M m s Hinv Hs) as (it & m' & E & Hiff & _).
  destruct it as [h|]; [|by rewrite (Allocate_None_unchanged s m m' E) in E].
  exfalso. destruct (proj1 Hiff ltac:(by eexists)) as (n & seg & Hn & Hle).
  destruct Hn as (Hin & Hseg & _).
  destruct (invariant_block M m seg n Hinv Hin Hseg) as (H0 & _ & Hri & _).
  destruct (decide (left seg <= right seg)) as [Hsorted|Hinverted]; cycle 1.
  { unfold Size in Hle. replace (right seg >=? left seg) with false in Hle by lia.
    lia. }
  rewrite (Size_sorted seg H0 Hri Hsorted) in Hle.
  assert (Hb : block_at m n ∈ blocks m).
  { unfold blocks. apply list_elem_of_fmap. by exists n. }
  rewrite (block_at_lookup m n seg Hseg) in Hb.
  pose proof (lo_spans _ _ Hlo) as Hsp.
  destruct (blocks m) as [|b [|b' bs]] eqn:Hbs.
  - by apply lo_nonempty in Hlo.
  - apply list_elem_of_singleton in Hb. subst b. simpl in Hsp. lia.
  - pose proof (lo_sorted _ _ Hlo ltac:(simpl; lia)) as Hall.
    destruct (spans_ascending _ _ _ Hsp Hall) as (_ & Hbound & _).
    apply Hbound in Hb. simpl in Hb. lia.
Qed.

Lemma Allocate_beyond_memory_witness :
  Allocate 1 (MemoryManager_new (2 ^ 31))
  = Done (None, MemoryManager_new (2 ^ 31)).
Proof.
  apply (Allocate_beyond_memory (2 ^ 31)).
  - apply reachable_new.
  - unfold is_size_t. lia.
  - vm_compute. reflexivity.
Defined.

(** X18. [push] of an element that is not in the heap (its recorded index
    is [kNullIndex]) followed by [erase] at the index the observer recorded
    for it, on an index-tracked heap in heap order with room for one more: the pushed element is gone again and told [kNullIndex], and the
    heap holds the elements it held before, in heap order and with their
    slots recorded. *)
Theorem push_erase_round_trip {T W : Type} `{EqDecision T}
  (compare_ : W -> T -> T -> bool) (observer_ : T -> Z -> W -> W)
  (index_of : W -> T -> option Z) (v : T) (w : W) (h : Heap T) :
  heap_laws compare_ observer_ index_of ->
  tracked index_of w h -> heap_ordered compare_ w h ->
  index_of w v = Some kNullIndex -> size h < kNullIndex ->
  let s1 := (push compare_ observer_ v (w, h)).2 in
  exists j,
    index_of s1.1 v = Some j /\
    let s2 := erase compare_ observer_ j s1 in
    live s2.2 ≡ₚ live h /\
    size s2.2 = size h /\
    heap_ordered compare_ s2.1 s2.2 /\
    tracked index_of s2.1 s2.2 /\
    index_of s2.1 v = Some kNullIndex.
Proof.
  intros [L1 L2 L3 L4 L5] Ht Ho Hv Hsz. cbv zeta.
  destruct (push_spec compare_ observer_ index_of L1 L2 L3 L4 L5 v w h Ht Hv Hsz)
    as [Ht1 Hl1 Hs1 _ _ Ho1 _].
  specialize (Ho1 Ho).
  destruct (push compare_ observer_ v (w, h)) as [r [w1 h1]]. simpl in *.
  assert (Hin : v ∈ live h1) by (rewrite Hl1; set_solver).
  destruct (tracked_live_index index_of w1 h1 v Ht1 Hin) as (j & Hj & Hslot & Hidx).
  exists j. split; [done|].
  destruct (erase_spec compare_ observer_ index_of L1 L2 L3 L4 L5 j v w1 h1
              Ht1 Hj Hslot) as [Ht2 Hl2 Hs2 Hi2 _ Ho2 _ _].
  - by apply heap_ordered_hole.
  - intros _ H0. apply Ho1. lia.
  - split_and!; try done; [|lia].
    rewrite Hl2 in Hl1. by apply (inj (cons v)) in Hl1.
Qed.

Lemma push_erase_round_trip_witness :
  let w := segment_of_ example_state in
  let h := free_memory_segments_ example_state in
  let s1 := (heap_push 2%nat (w, h)).2 in
  live h = [0; 3; 1]%nat /\
  live s1.2 = [2; 0; 1; 3]%nat /\
  exists j,
    seg_index s1.1 2%nat = Some j /\
    live (heap_erase j s1).2 ≡ₚ live h /\
    heap_ordered MemorySegmentSizeCompare (heap_erase j s1).1 (heap_erase j s1).2 /\
    seg_index (heap_erase j s1).1 2%nat = Some kNullIndex.
Proof.
  cbv zeta. destruct example_heap as (Ht & Ho & Hl & Hs & _ & Hv).
  assert (Hroom : size (free_memory_segments_ example_state) < kNullIndex)
    by (rewrite Hs; vm_compute; reflexivity).
  destruct (push_erase_round_trip MemorySegmentSizeCompare
              MemorySegmentsHeapObserver seg_index 2%nat _ _
              seg_heap_laws Ht Ho Hv Hroom)
    as (j & Hj & Hperm & _ & Hord & _ & Hnull).
  split; [exact Hl|]. split; [vm_compute; reflexivity|].
  exists j. split; [exact Hj|]. split; [exact Hperm|].
  split; [exact Hord|exact Hnull].
Defined.

Lemma all_free_single (bs : list block) :
  no_adjacent_free bs -> Forall (fun b => block_free b = true) bs ->
  (length bs <= 1)%nat.
Proof.
  destruct bs as [|a [|b bs]]; [simpl; lia..|].
  intros [Hpair _] Hall. exfalso. apply Hpair.
  apply Forall_cons in Hall as [Ha Hall].
  by apply Forall_cons in Hall as [Hb _].
Qed.

(** X19. Full coalescing: a reachable state in which no segment is
    allocated consists of one free segment, from 0 to the memory size the
    constructor stored. Whatever was allocated and freed on the way leaves no
    split behind. *)
Theorem nothing_allocated M m :
  reachable M m -> (forall q, ~ allocated m q) ->
  blocks m = [mkBlock 0 (to_int M) true].
Proof.
  intros Hr Hnone. pose proof (reachable_invariant M m Hr) as [Hc Hlo Hno].
  assert (Hall : Forall (fun b => block_free b = true) (blocks m)).
  { apply Forall_forall. intros b Hb. unfold blocks in Hb.
    apply list_elem_of_fmap in Hb as (n & -> & Hn).
    destruct (block_free (block_at m n)) eqn:Hf; [done|].
    destruct (Hnone n). by apply block_at_allocated. }
  pose proof (all_free_single _ Hno Hall) as Hlen.
  pose proof (lo_spans _ _ Hlo) as Hsp.
  destruct (blocks m) as [|[l r f] [|b bs]] eqn:Hbs.
  - by apply lo_nonempty in Hlo.
  - apply Forall_cons in Hall as [Hf _]. simpl in Hsp, Hf.
    destruct Hsp as [-> ->]. by rewrite Hf.
  - simpl in Hlen. lia.
Qed.

Lemma nothing_allocated_witness :
  reachable 10 example_returned /\
  memory_segments_ example_returned = [1%nat] /\
  blocks example_returned = [mkBlock 0 (to_int 10) true].
Proof.
  assert (Hr : reachable 10 example_returned)
    by apply example_returned_reachable.
  assert (Hl : memory_segments_ example_returned = [1%nat])
    by (vm_compute; reflexivity).
  split; [exact Hr|]. split; [exact Hl|].
  apply (nothing_allocated 10 example_returned Hr).
  intros q [Hq Hi]. rewrite Hl in Hq.
  apply list_elem_of_singleton in Hq. subst q.
  vm_compute in Hi. discriminate.
Defined.

(** The free block that [Allocate] looks at: the top of the heap. *)
Lemma top_block M m t tseg :
  invariant M m -> top (free_memory_segments_ m) = Some t ->
  segment_of_ m !! t = Some tseg ->
  mkBlock (left tseg) (right tseg) true ∈ blocks m /\
  forall l r, mkBlock l r true ∈ blocks m ->
    Size (mkSegment l r 0) <= Size tseg /\
    (Size (mkSegment l r 0) = Size tseg -> left tseg <= l).
Proof.
  intros Hinv Ht Htseg. pose proof (inv_consistent _ _ Hinv) as Hc.
  destruct (top_facts m t Hc Ht) as (_ & _ & Htl & seg & Hseg & _ & Hfree).
  rewrite Htseg in Hseg. injection Hseg as <-. split.
  - unfold blocks. apply list_elem_of_fmap. exists t. split; [|done].
    by rewrite (block_at_lookup m t tseg Htseg), Hfree.
  - intros l r Hb. unfold blocks in Hb.
    apply list_elem_of_fmap in Hb as (n & Hbn & Hn).
    destruct (invariant_lookup M m n Hinv Hn) as (nseg & Hnseg & Hbn').
    rewrite Hbn' in Hbn. injection Hbn as -> -> Hf.
    assert (Size (mkSegment (left nseg) (right nseg) 0) = Size nseg) as ->
      by by apply Size_extent.
    by apply (top_largest m t tseg n nseg Hc Ht Htseg).
Qed.

(** What [Allocate] answers, read off the top of the heap. *)
Lemma Allocate_answer M m s :
  invariant M m -> is_size_t s ->
  (Allocate s m = Done (None, m) /\
   forall l r, mkBlock l r true ∈ blocks m -> Size (mkSegment l r 0) < s) \/
  exists h m' hseg t tseg,
    Allocate s m = Done (Some h, m') /\
    segment_of_ m' !! h = Some hseg /\
    top (free_memory_segments_ m) = Some t /\
    segment_of_ m !! t = Some tseg /\
    left hseg = left tseg /\ s <= Size tseg.
Proof.
  intros Hinv Hs. pose proof (inv_consistent _ _ Hinv) as Hc.
  destruct (Allocate_cases M m s Hinv Hs)
    as [[H0 E]|(t & seg & l1 & l2 & Ht & Hseg & Hfree & Hl & Hcase)].
  { left. split; [done|]. intros l r Hb. exfalso. unfold blocks in Hb.
    apply list_elem_of_fmap in Hb as (n & Hbn & Hn).
    destruct (invariant_lookup M m n Hinv Hn) as (nseg & Hnseg & Hbn').
    rewrite Hbn' in Hbn. injection Hbn as _ _ Hf.
    by apply (empty_heap_no_free m n nseg Hc H0). }
  destruct (top_block M m t seg Hinv Ht Hseg) as [_ Hmax].
  destruct Hcase as [[Hlt E]|[[-> (m' & E & Hinv' & Hl' & _ & _ & _ & Hb')]
                             |[Hlt (m' & E & Hinv' & Hl' & _ & _ & _ & Hb')]]].
  - left. split; [done|]. intros l r Hb. destruct (Hmax l r Hb). lia.
  - right. rewrite Hl in Hl'.
    destruct (blocks_inj_1 m' l1 t l2 _ _ _ Hl' Hb'
                ltac:(by rewrite length_fmap)) as (_ & Ht' & _).
    destruct (invariant_lookup M m' t Hinv') as (hseg & Hh & _);
      [rewrite Hl'; set_solver|].
    destruct (block_at_extent m' t hseg _ _ _ Hh Ht') as (HL & _).
    exists t, m', hseg, t, seg. split_and!; (done || lia).
  - right.
    destruct (blocks_inj_1 m' l1 (next_node_ m) (t :: l2) _ _ _ Hl' Hb'
                ltac:(by rewrite length_fmap)) as (_ & Ha' & _).
    destruct (invariant_lookup M m' (next_node_ m) Hinv') as (hseg & Hh & _);
      [rewrite Hl'; set_solver|].
    destruct (block_at_extent m' _ hseg _ _ _ Hh Ha') as (HL & _).
    exists (next_node_ m), m', hseg, t, seg. split_and!; (done || lia).
Qed.

(** X20. What [Allocate] answers depends on the layout alone. Two reachable
    states with the same sequence of blocks (the same ranges and free flags
    in the same order), whatever their nodes and the arrangement of their
    heaps, give the same answer to the same request: both refuse it, or both
    grant it at the same address. *)
Theorem Allocate_by_layout M1 m1 M2 m2 s it1 m1' it2 m2' :
  reachable M1 m1 -> reachable M2 m2 -> blocks m1 = blocks m2 ->
  is_size_t s ->
  Allocate s m1 = Done (it1, m1') -> Allocate s m2 = Done (it2, m2') ->
  (is_Some it1 <-> is_Some it2) /\
  forall h1 h2, it1 = Some h1 -> it2 = Some h2 ->
    exists seg1 seg2,
      segment_of_ m1' !! h1 = Some seg1 /\
      segment_of_ m2' !! h2 = Some seg2 /\
      left seg1 = left seg2.
Proof.
  intros Hr1 Hr2 Hb Hs E1 E2.
  pose proof (reachable_invariant M1 m1 Hr1) as Hinv1.
  pose proof (reachable_invariant M2 m2 Hr2) as Hinv2.
  destruct (Allocate_answer M1 m1 s Hinv1 Hs)
    as [[E1' Hsmall1]|(h1 & n1 & hseg1 & t1 & tseg1 & E1' & Hh1 & Ht1 & Hts1
                       & HL1 & Hle1)];
    destruct (Allocate_answer M2 m2 s Hinv2 Hs)
    as [[E2' Hsmall2]|(h2 & n2 & hseg2 & t2 & tseg2 & E2' & Hh2 & Ht2 & Hts2
                       & HL2 & Hle2)];
    rewrite E1' in E1; rewrite E2' in E2; simplify_eq.
  - split; [done|]. by intros.
  - exfalso.
    destruct (top_block M2 m2 t2 tseg2 Hinv2 Ht2 Hts2) as [Hin _].
    rewrite <- Hb in Hin. apply Hsmall1 in Hin.
    rewrite (Size_extent tseg2 (mkSegment (left tseg2) (right tseg2) 0)) in Hin
      by done. lia.
  - exfalso.
    destruct (top_block M1 m1 t1 tseg1 Hinv1 Ht1 Hts1) as [Hin _].
    rewrite Hb in Hin. apply Hsmall2 in Hin.
    rewrite (Size_extent tseg1 (mkSegment (left tseg1) (right tseg1) 0)) in Hin
      by done. lia.
  - split; [by split; eexists|]. intros ? ? [= <-] [= <-].
    destruct (top_block M1 m1 t1 tseg1 Hinv1 Ht1 Hts1) as [Hin1 Hmax1].
    destruct (top_block M2 m2 t2 tseg2 Hinv2 Ht2 Hts2) as [Hin2 Hmax2].
    rewrite Hb in Hin1. rewrite <- Hb in Hin2.
    destruct (Hmax2 _ _ Hin1) as [Hs12 Ht12].
    destruct (Hmax1 _ _ Hin2) as [Hs21 Ht21].
    rewrite (Size_extent tseg1 (mkSegment (left tseg1) (right tseg1) 0))
      in Hs12, Ht12 by done.
    rewrite (Size_extent tseg2 (mkSegment (left tseg2) (right tseg2) 0))
      in Hs21, Ht21 by done.
    exists hseg1, hseg2. split_and!; try done. lia.
Qed.

Lemma Allocate_by_layout_witness :
  memory_segments_ (MemoryManager_new 10) = [0%nat] /\
  memory_segments_ example_returned = [1%nat] /\
  blocks (MemoryManager_new 10) = blocks example_returned /\
  exists m1' m2' seg1 seg2,
    Allocate 3 (MemoryManager_new 10) = Done (Some 1%nat, m1') /\
    Allocate 3 example_returned = Done (Some 2%nat, m2') /\
    segment_of_ m1' !! 1%nat = Some seg1 /\
    segment_of_ m2' !! 2%nat = Some seg2 /\
    left seg1 = left seg2.
Proof.
  assert (Hb : blocks (MemoryManager_new 10) = blocks example_returned)
    by (vm_compute; reflexivity).
  assert (Hs : is_size_t 3) by (unfold is_size_t; lia).
  assert (E1 : exists m1',
             Allocate 3 (MemoryManager_new 10) = Done (Some 1%nat, m1'))
    by (eexists; vm_compute; reflexivity).
  assert (E2 : exists m2',
             Allocate 3 example_returned = Done (Some 2%nat, m2'))
    by (eexists; vm_compute; reflexivity).
  destruct E1 as [m1' E1]. destruct E2 as [m2' E2].
  destruct (Allocate_by_layout 10 (MemoryManager_new 10) 10 example_returned
              3 (Some 1%nat) m1' (Some 2%nat) m2'
              (reachable_new 10) example_returned_reachable Hb Hs E1 E2)
    as [_ Hsame].
  destruct (Hsame 1%nat 2%nat eq_refl eq_refl) as (seg1 & seg2 & H1 & H2 & HL).
  split; [vm_compute; reflexivity|]. split; [vm_compute; reflexivity|].
  split; [exact Hb|].
  exists m1', m2', seg1, seg2.
  split; [exact E1|]. split; [exact E2|]. split; [exact H1|].
  split; [exact H2|exact HL].
Defined.
